(** * Color palette picker: a shallow embedding of [script.js]

    The palette logic of the page script is embedded function by function.
    JavaScript Numbers are IEEE 754 binary64 values, so they are modelled by
    Rocq's primitive floats; the arrays the script mutates in place live in
    an explicit heap, so that copies and aliases are distinguished. *)

From Stdlib Require Import ZArith List String Ascii Bool Lia.
From Stdlib Require Import Floats Uint63.
From Stdlib Require Import Sorting.Permutation Sorting.Sorted.
From stdpp Require Import base gmap.
Import ListNotations.

Local Open Scope Z_scope.

(** ** Constants of the script *)

Definition MAX_COLORS : Z := 21.
Definition MIN_CROP_SIZE : Z := 10.
Definition MAX_UNDO_STACK : Z := 10.

(** ** JavaScript Numbers and the built-ins the script calls *)

Module JS.

(** An integer as a Number; exact below [2^53] in absolute value. *)
Definition ofZ (n : Z) : float :=
  if 0 <=? n then of_uint63 (Uint63.of_Z n)
  else (- of_uint63 (Uint63.of_Z (- n)))%float.

(** Relational operators, with the IEEE behaviour on NaN. *)
Definition lt (a b : float) : bool := (a <? b)%float.
Definition gt (a b : float) : bool := (b <? a)%float.
Definition le (a b : float) : bool := (a <=? b)%float.
Definition ge (a b : float) : bool := (b <=? a)%float.
(** [===] on Numbers. *)
Definition seq (a b : float) : bool := (a =? b)%float.

(** [Math.max] and [Math.min] of two Numbers: NaN is contagious and
    [+0] is larger than [-0]. *)
Definition Math_max (a b : float) : float :=
  if is_nan a || is_nan b then nan
  else if (a <? b)%float then b
  else if (b <? a)%float then a
  else if get_sign a then b else a.

Definition Math_min (a b : float) : float :=
  if is_nan a || is_nan b then nan
  else if (a <? b)%float then a
  else if (b <? a)%float then b
  else if get_sign a then a else b.

(** [Math.floor]: the largest integral Number not above the argument. *)
Definition Math_floor (x : float) : float :=
  match Prim2SF x with
  | S754_finite s m e =>
      if 0 <=? e then x
      else
        let n := Z.shiftr (cond_Zopp s (Zpos m)) (- e) in
        if n =? 0 then zero else ofZ n
  | _ => x
  end.

(** [Math.round]: the nearest integral Number, ties towards [+∞]; an argument
    in [[-0.5, 0)] gives [-0]. *)
Definition Math_round (x : float) : float :=
  match Prim2SF x with
  | S754_finite s m e =>
      if 0 <=? e then x
      else
        let n := Z.shiftr (2 * cond_Zopp s (Zpos m) + 2 ^ (- e)) (1 - e) in
        if n =? 0 then (if s then neg_zero else zero) else ofZ n
  | _ => x
  end.

(** The WebIDL conversion of a Number to a [long] index (truncation; NaN and
    the infinities give 0). *)
Definition toInt (x : float) : Z :=
  match Prim2SF x with
  | S754_finite s m e =>
      let v := if 0 <=? e then Zpos m * 2 ^ e else Z.shiftr (Zpos m) (- e) in
      let t := cond_Zopp s v in
      let w := t mod 2 ^ 32 in
      if w <? 2 ^ 31 then w else w - 2 ^ 32
  | _ => 0
  end.

(** *** Digits in radix 16 *)

Definition hexDigit (d : Z) : ascii :=
  nth (Z.to_nat d)
    ["0"; "1"; "2"; "3"; "4"; "5"; "6"; "7"; "8"; "9";
     "a"; "b"; "c"; "d"; "e"; "f"]%char "0"%char.

Fixpoint intDigits16 (fuel : nat) (n : Z) (acc : string) : string :=
  match fuel with
  | O => acc
  | S fuel' =>
      let acc' := String (hexDigit (n mod 16)) acc in
      if n / 16 =? 0 then acc' else intDigits16 fuel' (n / 16) acc'
  end.

(** The digits of a non-negative integer; the fuel is its number of digits. *)
Definition intToString16 (n : Z) : string :=
  intDigits16 (S (Z.to_nat (Z.log2 n / 4))) n EmptyString.

Fixpoint fracDigits16 (fuel : nat) (num den : Z) : string :=
  match fuel with
  | O => EmptyString
  | S fuel' =>
      if num =? 0 then EmptyString
      else String (hexDigit (16 * num / den))
                  (fracDigits16 fuel' ((16 * num) mod den) den)
  end.

(** [Number.prototype.toString(16)].  On integral Numbers, NaN and the
    infinities this is the ECMAScript result.  On a Number with a fractional
    part the language leaves the digits after the point to the engine
    (engines print the shortest string that reads back); the exact expansion
    is written here, and nothing below depends on it: every caller in the
    script passes the result of [Math.round] or an integer channel. *)
Definition Number_toString16 (x : float) : string :=
  match Prim2SF x with
  | S754_nan => "NaN"
  | S754_infinity false => "Infinity"
  | S754_infinity true => "-Infinity"
  | S754_zero _ => "0"
  | S754_finite s m e =>
      let ip := if 0 <=? e then Zpos m * 2 ^ e else Z.shiftr (Zpos m) (- e) in
      let den := if 0 <=? e then 1 else 2 ^ (- e) in
      let num := if 0 <=? e then 0 else Z.land (Zpos m) (den - 1) in
      ((if s then "-" else "") ++ intToString16 ip ++
       (if (num =? 0)%Z then ""
        else String "."%char (fracDigits16 (Z.to_nat (- e)) num den)))%string
  end.

(** The characters of the class [[a-f\d]] under the [i] flag. *)
Definition hexVal (c : ascii) : option Z :=
  let n := Z.of_N (N_of_ascii c) in
  if (48 <=? n) && (n <=? 57) then Some (n - 48)
  else if (97 <=? n) && (n <=? 102) then Some (n - 87)
  else if (65 <=? n) && (n <=? 70) then Some (n - 55)
  else None.

(** [parseInt(s, 16)] on a string of two characters of that class. *)
Definition parseInt16 (c1 c2 : ascii) : option float :=
  match hexVal c1, hexVal c2 with
  | Some h, Some l => Some (ofZ (16 * h + l))
  | _, _ => None
  end.

(** [String.prototype.toUpperCase] on the ASCII range. *)
Definition upperChar (c : ascii) : ascii :=
  let n := N_of_ascii c in
  if ((97 <=? n) && (n <=? 122))%N then ascii_of_N (n - 32) else c.

Fixpoint toUpperCase (s : string) : string :=
  match s with
  | EmptyString => EmptyString
  | String c s' => String (upperChar c) (toUpperCase s')
  end.

(** [Array.prototype.join]. *)
Fixpoint join (sep : string) (l : list string) : string :=
  match l with
  | [] => EmptyString
  | [x] => x
  | x :: l' => (x ++ sep ++ join sep l')%string
  end.

(** [Array.prototype.slice(0, end)]: a negative [end] counts from the end
    of the array. *)
Definition slice0 {A : Type} (l : list A) (e : Z) : list A :=
  let len := Z.of_nat (List.length l) in
  let k := if e <? 0 then Z.max (len + e) 0 else Z.min e len in
  firstn (Z.to_nat k) l.

End JS.

(** ** Colour conversions *)

Record rgb := mkRgb { r : float; g : float; b : float }.
Record hsl := mkHsl { h : float; s : float; l : float }.

(** [rgbToHex]: each channel printed in radix 16 and padded to two
    characters when it has one. *)
Definition channelHex (x : float) : string :=
  let hex := JS.Number_toString16 x in
  if (String.length hex =? 1)%nat then ("0" ++ hex)%string else hex.

Definition rgbToHex (r g b : float) : string :=
  ("#" ++ JS.join "" (List.map channelHex [r; g; b]))%string.

(** [hexToRgb]: the pattern [/^#?([a-f\d]{2})([a-f\d]{2})([a-f\d]{2})$/i];
    [None] is the script's [null]. *)
Definition hexToRgb (hex : string) : option rgb :=
  let body :=
    match hex with
    | String "#"%char rest => rest
    | _ => hex
    end in
  match body with
  | String c1 (String c2 (String c3 (String c4 (String c5 (String c6 EmptyString))))) =>
      match JS.parseInt16 c1 c2, JS.parseInt16 c3 c4, JS.parseInt16 c5 c6 with
      | Some r, Some g, Some b => Some (mkRgb r g b)
      | _, _, _ => None
      end
  | _ => None
  end.

(** [rgbToHsl]; [Math.max(r, g, b)] is the two-argument maximum folded,
    the [switch] compares with [===], and a [switch] that matches no case
    leaves [h] undefined, so that [h * 360] is NaN. *)
Definition rgbToHsl (r g b : float) : hsl :=
  let r := (r / 255)%float in
  let g := (g / 255)%float in
  let b := (b / 255)%float in
  let max := JS.Math_max (JS.Math_max r g) b in
  let min := JS.Math_min (JS.Math_min r g) b in
  let l := ((max + min) / 2)%float in
  let hs :=
    if JS.seq max min then (0%float, 0%float)
    else
      let d := (max - min)%float in
      let s := if JS.gt l 0.5 then (d / (2 - max - min))%float
               else (d / (max + min))%float in
      let h :=
        if JS.seq max r then
          (((g - b) / d + (if JS.lt g b then 6 else 0)) / 6)%float
        else if JS.seq max g then (((b - r) / d + 2) / 6)%float
        else if JS.seq max b then (((r - g) / d + 4) / 6)%float
        else nan in
      (h, s) in
  mkHsl (fst hs * 360)%float (snd hs * 100)%float (l * 100)%float.

(** The local function [hue2rgb] of [hslToRgb]. *)
Definition hue2rgb (p q t : float) : float :=
  let t := if JS.lt t 0 then (t + 1)%float else t in
  let t := if JS.gt t 1 then (t - 1)%float else t in
  if JS.lt t (1 / 6) then (p + (q - p) * 6 * t)%float
  else if JS.lt t (1 / 2) then q
  else if JS.lt t (2 / 3) then (p + (q - p) * (2 / 3 - t) * 6)%float
  else p.

Definition hslToRgb (h s l : float) : rgb :=
  let h := (h / 360)%float in
  let s := (s / 100)%float in
  let l := (l / 100)%float in
  let '(r, g, b) :=
    if JS.seq s 0 then (l, l, l)
    else
      let q := if JS.lt l 0.5 then (l * (1 + s))%float
               else (l + s - l * s)%float in
      let p := (2 * l - q)%float in
      (hue2rgb p q (h + 1 / 3), hue2rgb p q h, hue2rgb p q (h - 1 / 3)) in
  mkRgb (JS.Math_round (r * 255)) (JS.Math_round (g * 255))
        (JS.Math_round (b * 255)).

Definition rgbHex (c : rgb) : string := rgbToHex (r c) (g c) (b c).

(** [createColorVariations]; the array is built by [push] in this order and
    cut by [slice(0, count)]. *)
Definition createColorVariations (r g b : float) (count : Z) : list string :=
  let hsl := rgbToHsl r g b in
  let variations := [] in
  let lighter := hslToRgb (h hsl) (s hsl) (JS.Math_min 100 (l hsl + 15)) in
  let variations := variations ++ [rgbHex lighter] in
  let darker := hslToRgb (h hsl) (s hsl) (JS.Math_max 0 (l hsl - 15)) in
  let variations := variations ++ [rgbHex darker] in
  let desaturated := hslToRgb (h hsl) (JS.Math_max 0 (s hsl - 30)) (l hsl) in
  let variations := variations ++ [rgbHex desaturated] in
  let variations :=
    if 4 <=? count then
      let saturated := hslToRgb (h hsl) (JS.Math_min 100 (s hsl + 20)) (l hsl) in
      variations ++ [rgbHex saturated]
    else variations in
  JS.slice0 variations count.

(** ** The page state *)

(** An array of the script is an object: it has an identity, it is mutated in
    place by [push], [splice] and [sort], and two variables can refer to the
    same one.  Arrays of hex strings therefore live in a heap. *)
Definition loc := nat.

(** A decoded image: its size and its pixels (red, green and blue bytes as
    [getImageData] returns them). *)
Record image := mkImage {
  width : Z;
  height : Z;
  pixel : Z -> Z -> Byte.byte * Byte.byte * Byte.byte
}.

Inductive prefillMode := basic | advanced.

(** What the script leaves for later: the two [setTimeout] callbacks and the
    [onload] handler of the cropped image. *)
Inductive task :=
| SpliceTask (actualIndex : nat)
| ClearTask
| CropLoadTask (croppedImg : image).

Record mouseEvent := mkMouse { clientX : float; clientY : float; button : Z }.

Record state := mkState {
  heap : gmap loc (list string);
  colors : loc;
  undoStack : list loc;            (* bottom of the stack first *)
  currentImage : option image;
  zoom : float;
  panX : float;
  panY : float;
  isPanning : bool;
  hasDragged : bool;
  lastMouseX : float;
  lastMouseY : float;
  isCropMode : bool;
  cropStartX : option float;       (* [None] is [null] *)
  cropStartY : float;
  cropEndX : float;
  cropEndY : float;
  cropPrefillMode : option prefillMode;
  hasEverHadColors : bool;
  (* the page around the script *)
  canvasLeft : float;              (* canvas.getBoundingClientRect() *)
  canvasTop : float;
  blocks : list string;            (* the .color-block elements, in order *)
  undoDisabled : bool;             (* undoBtn.disabled *)
  notifications : list string;
  alerts : list string;
  clipboard : list string;         (* texts given to clipboard.writeText *)
  tasks : list task
}.

(** The contents of an array. *)
Definition arr (st : state) (a : loc) : list string :=
  default [] (heap st !! a).

(** The palette in manual order. *)
Definition palette (st : state) : list string := arr st (colors st).

(** The snapshots held by the undo stack, bottom first. *)
Definition history (st : state) : list (list string) :=
  List.map (arr st) (undoStack st).

Definition set_heap (f : gmap loc (list string) -> gmap loc (list string))
    (st : state) : state :=
  mkState (f (heap st)) (colors st) (undoStack st) (currentImage st) (zoom st)
    (panX st) (panY st) (isPanning st) (hasDragged st) (lastMouseX st)
    (lastMouseY st) (isCropMode st) (cropStartX st) (cropStartY st)
    (cropEndX st) (cropEndY st) (cropPrefillMode st) (hasEverHadColors st)
    (canvasLeft st) (canvasTop st) (blocks st) (undoDisabled st)
    (notifications st) (alerts st) (clipboard st) (tasks st).

Definition set_colors (a : loc) (st : state) : state :=
  mkState (heap st) a (undoStack st) (currentImage st) (zoom st)
    (panX st) (panY st) (isPanning st) (hasDragged st) (lastMouseX st)
    (lastMouseY st) (isCropMode st) (cropStartX st) (cropStartY st)
    (cropEndX st) (cropEndY st) (cropPrefillMode st) (hasEverHadColors st)
    (canvasLeft st) (canvasTop st) (blocks st) (undoDisabled st)
    (notifications st) (alerts st) (clipboard st) (tasks st).

Definition set_undoStack (u : list loc) (st : state) : state :=
  mkState (heap st) (colors st) u (currentImage st) (zoom st)
    (panX st) (panY st) (isPanning st) (hasDragged st) (lastMouseX st)
    (lastMouseY st) (isCropMode st) (cropStartX st) (cropStartY st)
    (cropEndX st) (cropEndY st) (cropPrefillMode st) (hasEverHadColors st)
    (canvasLeft st) (canvasTop st) (blocks st) (undoDisabled st)
    (notifications st) (alerts st) (clipboard st) (tasks st).

Definition set_pan (p : bool) (d : bool) (st : state) : state :=
  mkState (heap st) (colors st) (undoStack st) (currentImage st) (zoom st)
    (panX st) (panY st) p d (lastMouseX st)
    (lastMouseY st) (isCropMode st) (cropStartX st) (cropStartY st)
    (cropEndX st) (cropEndY st) (cropPrefillMode st) (hasEverHadColors st)
    (canvasLeft st) (canvasTop st) (blocks st) (undoDisabled st)
    (notifications st) (alerts st) (clipboard st) (tasks st).

Definition set_crop (m : bool) (sx : option float) (st : state) : state :=
  mkState (heap st) (colors st) (undoStack st) (currentImage st) (zoom st)
    (panX st) (panY st) (isPanning st) (hasDragged st) (lastMouseX st)
    (lastMouseY st) m sx (cropStartY st)
    (cropEndX st) (cropEndY st) (cropPrefillMode st) (hasEverHadColors st)
    (canvasLeft st) (canvasTop st) (blocks st) (undoDisabled st)
    (notifications st) (alerts st) (clipboard st) (tasks st).

Definition set_cropPrefillMode (m : option prefillMode) (st : state) : state :=
  mkState (heap st) (colors st) (undoStack st) (currentImage st) (zoom st)
    (panX st) (panY st) (isPanning st) (hasDragged st) (lastMouseX st)
    (lastMouseY st) (isCropMode st) (cropStartX st) (cropStartY st)
    (cropEndX st) (cropEndY st) m (hasEverHadColors st)
    (canvasLeft st) (canvasTop st) (blocks st) (undoDisabled st)
    (notifications st) (alerts st) (clipboard st) (tasks st).

Definition set_hasEverHadColors (v : bool) (st : state) : state :=
  mkState (heap st) (colors st) (undoStack st) (currentImage st) (zoom st)
    (panX st) (panY st) (isPanning st) (hasDragged st) (lastMouseX st)
    (lastMouseY st) (isCropMode st) (cropStartX st) (cropStartY st)
    (cropEndX st) (cropEndY st) (cropPrefillMode st) v
    (canvasLeft st) (canvasTop st) (blocks st) (undoDisabled st)
    (notifications st) (alerts st) (clipboard st) (tasks st).

Definition set_blocks (v : list string) (st : state) : state :=
  mkState (heap st) (colors st) (undoStack st) (currentImage st) (zoom st)
    (panX st) (panY st) (isPanning st) (hasDragged st) (lastMouseX st)
    (lastMouseY st) (isCropMode st) (cropStartX st) (cropStartY st)
    (cropEndX st) (cropEndY st) (cropPrefillMode st) (hasEverHadColors st)
    (canvasLeft st) (canvasTop st) v (undoDisabled st)
    (notifications st) (alerts st) (clipboard st) (tasks st).

Definition set_undoDisabled (v : bool) (st : state) : state :=
  mkState (heap st) (colors st) (undoStack st) (currentImage st) (zoom st)
    (panX st) (panY st) (isPanning st) (hasDragged st) (lastMouseX st)
    (lastMouseY st) (isCropMode st) (cropStartX st) (cropStartY st)
    (cropEndX st) (cropEndY st) (cropPrefillMode st) (hasEverHadColors st)
    (canvasLeft st) (canvasTop st) (blocks st) v
    (notifications st) (alerts st) (clipboard st) (tasks st).

Definition add_notification (m : string) (st : state) : state :=
  mkState (heap st) (colors st) (undoStack st) (currentImage st) (zoom st)
    (panX st) (panY st) (isPanning st) (hasDragged st) (lastMouseX st)
    (lastMouseY st) (isCropMode st) (cropStartX st) (cropStartY st)
    (cropEndX st) (cropEndY st) (cropPrefillMode st) (hasEverHadColors st)
    (canvasLeft st) (canvasTop st) (blocks st) (undoDisabled st)
    (notifications st ++ [m]) (alerts st) (clipboard st) (tasks st).

Definition add_alert (m : string) (st : state) : state :=
  mkState (heap st) (colors st) (undoStack st) (currentImage st) (zoom st)
    (panX st) (panY st) (isPanning st) (hasDragged st) (lastMouseX st)
    (lastMouseY st) (isCropMode st) (cropStartX st) (cropStartY st)
    (cropEndX st) (cropEndY st) (cropPrefillMode st) (hasEverHadColors st)
    (canvasLeft st) (canvasTop st) (blocks st) (undoDisabled st)
    (notifications st) (alerts st ++ [m]) (clipboard st) (tasks st).

Definition add_clipboard (m : string) (st : state) : state :=
  mkState (heap st) (colors st) (undoStack st) (currentImage st) (zoom st)
    (panX st) (panY st) (isPanning st) (hasDragged st) (lastMouseX st)
    (lastMouseY st) (isCropMode st) (cropStartX st) (cropStartY st)
    (cropEndX st) (cropEndY st) (cropPrefillMode st) (hasEverHadColors st)
    (canvasLeft st) (canvasTop st) (blocks st) (undoDisabled st)
    (notifications st) (alerts st) (clipboard st ++ [m]) (tasks st).

Definition add_task (t : task) (st : state) : state :=
  mkState (heap st) (colors st) (undoStack st) (currentImage st) (zoom st)
    (panX st) (panY st) (isPanning st) (hasDragged st) (lastMouseX st)
    (lastMouseY st) (isCropMode st) (cropStartX st) (cropStartY st)
    (cropEndX st) (cropEndY st) (cropPrefillMode st) (hasEverHadColors st)
    (canvasLeft st) (canvasTop st) (blocks st) (undoDisabled st)
    (notifications st) (alerts st) (clipboard st) (tasks st ++ [t]).

Definition set_cropRect (sx : option float) (sy ex ey : float) (st : state)
    : state :=
  mkState (heap st) (colors st) (undoStack st) (currentImage st) (zoom st)
    (panX st) (panY st) (isPanning st) (hasDragged st) (lastMouseX st)
    (lastMouseY st) (isCropMode st) sx sy ex ey
    (cropPrefillMode st) (hasEverHadColors st)
    (canvasLeft st) (canvasTop st) (blocks st) (undoDisabled st)
    (notifications st) (alerts st) (clipboard st) (tasks st).

Definition set_drag (px py lx ly : float) (st : state) : state :=
  mkState (heap st) (colors st) (undoStack st) (currentImage st) (zoom st)
    px py (isPanning st) (hasDragged st) lx ly
    (isCropMode st) (cropStartX st) (cropStartY st)
    (cropEndX st) (cropEndY st) (cropPrefillMode st) (hasEverHadColors st)
    (canvasLeft st) (canvasTop st) (blocks st) (undoDisabled st)
    (notifications st) (alerts st) (clipboard st) (tasks st).

Definition set_view (img : option image) (z px py : float) (st : state) : state :=
  mkState (heap st) (colors st) (undoStack st) img z
    px py (isPanning st) (hasDragged st) (lastMouseX st)
    (lastMouseY st) (isCropMode st) (cropStartX st) (cropStartY st)
    (cropEndX st) (cropEndY st) (cropPrefillMode st) (hasEverHadColors st)
    (canvasLeft st) (canvasTop st) (blocks st) (undoDisabled st)
    (notifications st) (alerts st) (clipboard st) (tasks st).

Definition set_tasks (t : list task) (st : state) : state :=
  mkState (heap st) (colors st) (undoStack st) (currentImage st) (zoom st)
    (panX st) (panY st) (isPanning st) (hasDragged st) (lastMouseX st)
    (lastMouseY st) (isCropMode st) (cropStartX st) (cropStartY st)
    (cropEndX st) (cropEndY st) (cropPrefillMode st) (hasEverHadColors st)
    (canvasLeft st) (canvasTop st) (blocks st) (undoDisabled st)
    (notifications st) (alerts st) (clipboard st) t.

(** ** Statements: state and exceptions

    A JavaScript statement ends normally with a value or throws; what it did
    to the state before throwing stays done. *)

Inductive completion (A : Type) :=
| Normal (a : A)
| Throw (e : string).
Arguments Normal {A} a.
Arguments Throw {A} e.

Definition JSM (A : Type) : Type := state -> completion A * state.

Definition ret {A} (a : A) : JSM A := fun st => (Normal a, st).
Definition throw {A} (e : string) : JSM A := fun st => (Throw e, st).
Definition bind {A B} (m : JSM A) (k : A -> JSM B) : JSM B :=
  fun st =>
    match m st with
    | (Normal a, st') => k a st'
    | (Throw e, st') => (Throw e, st')
    end.
Definition get : JSM state := fun st => (Normal st, st).
Definition modify (f : state -> state) : JSM unit := fun st => (Normal tt, f st).
(** [try { m } catch (error) { handler }] *)
Definition try_catch (m : JSM unit) (handler : JSM unit) : JSM unit :=
  fun st =>
    match m st with
    | (Normal a, st') => (Normal a, st')
    | (Throw _, st') => handler st'
    end.
(** A call of a function that cannot change the state but may throw. *)
Definition lift {A} (c : completion A) : JSM A := fun st => (c, st).

Declare Scope js_scope.
Delimit Scope js_scope with js.
Notation "x <- m ;; k" := (bind m (fun x => k))
  (at level 100, m at next level, right associativity) : js_scope.
Notation "m ;; k" := (bind m (fun _ => k))
  (at level 100, right associativity) : js_scope.
Local Open Scope js_scope.

Definition TypeError : string := "TypeError".

Definition cbind {A B} (c : completion A) (k : A -> completion B) : completion B :=
  match c with
  | Normal a => k a
  | Throw e => Throw e
  end.

(** ** Arrays *)

(** [[...a]], [a.slice()], [[]] and [a.map(f)] make a new array. *)
Definition Array_new (content : list string) : JSM loc :=
  fun st =>
    let a := fresh (dom (heap st)) in
    (Normal a, set_heap (fun h => <[a := content]> h) st).

Definition Array_read (a : loc) : JSM (list string) :=
  fun st => (Normal (arr st a), st).

Definition Array_write (a : loc) (content : list string) : JSM unit :=
  modify (set_heap (fun h => <[a := content]> h)).

(** [a.push(x1, ..., xn)] *)
Definition Array_push (a : loc) (xs : list string) : JSM unit :=
  l <- Array_read a ;; Array_write a (l ++ xs).

(** [a.splice(i, 1)] for an index [i >= 0]: nothing past the end. *)
Definition Array_splice1 (a : loc) (i : nat) : JSM unit :=
  l <- Array_read a ;; Array_write a (firstn i l ++ skipn (S i) l).

Definition Array_slice (a : loc) : JSM loc :=
  l <- Array_read a ;; Array_new l.

(** [a.indexOf(x)]: [None] is [-1]. *)
Fixpoint indexOf (x : string) (l : list string) : option nat :=
  match l with
  | [] => None
  | y :: l' => if String.eqb y x then Some O else option_map S (indexOf x l')
  end.

(** [Array.prototype.sort(comparefn)].  ECMAScript specifies a stable sort:
    with a comparator that orders consistently the result is the one stable
    arrangement, whatever algorithm the engine runs; it is written here as
    insertion sort.  A comparator result [v > 0] puts its first argument
    after the second, anything else (negative, zero, NaN) does not.  When the
    comparator throws, [sort] throws. *)
Section Sort.
Context {A : Type} (comparefn : A -> A -> completion float).

Fixpoint sortInsert (x : A) (sorted : list A) : completion (list A) :=
  match sorted with
  | [] => Normal [x]
  | y :: rest =>
      cbind (comparefn x y) (fun v =>
        if JS.gt v 0 then cbind (sortInsert x rest) (fun r => Normal (y :: r))
        else Normal (x :: y :: rest))
  end.

Fixpoint sortWith (l : list A) : completion (list A) :=
  match l with
  | [] => Normal []
  | x :: l' => cbind (sortWith l') (sortInsert x)
  end.

End Sort.

Definition Array_sort (comparefn : string -> string -> completion float)
    (a : loc) : JSM loc :=
  l <- Array_read a ;;
  l' <- lift (sortWith comparefn l) ;;
  Array_write a l' ;;
  ret a.

(** ** Sorting by hue *)

(** The comparator of [sortByHue]: reading [.r] of [null] throws. *)
Definition hueCompare (a b : string) : completion float :=
  let rgbA := hexToRgb a in
  let rgbB := hexToRgb b in
  match rgbA, rgbB with
  | Some (mkRgb rA gA bA), Some (mkRgb rB gB bB) =>
      let hslA := rgbToHsl rA gA bA in
      let hslB := rgbToHsl rB gB bB in
      Normal (h hslA - h hslB)%float
  | _, _ => Throw TypeError
  end.

Definition sortByHue (colorArray : loc) : JSM loc :=
  copy <- Array_slice colorArray ;;
  Array_sort hueCompare copy.

(** ** Viewport *)

Definition getCanvasCoords (st : state) (e : mouseEvent) : float * float :=
  ((clientX e - canvasLeft st)%float, (clientY e - canvasTop st)%float).

Definition canvasToImageCoords (st : state) (canvasX canvasY : float)
    : float * float :=
  (((canvasX - panX st * zoom st) / zoom st)%float,
   ((canvasY - panY st * zoom st) / zoom st)%float).

(** ** Sampling *)

Definition byteZ (x : Byte.byte) : Z := Z.of_N (Byte.to_N x).

(** The offsets [(dx, dy)] in the order of the two loops. *)
Definition neighbourhood : list (float * float) :=
  flat_map (fun dy => List.map (fun dx => (dx, dy)) [(-1)%float; 0%float; 1%float])
           [(-1)%float; 0%float; 1%float].

(** The loop body of [sampleArea].  The three sums and the count are
    integers below [2^12], where Number arithmetic is exact; they are kept
    in [Z] and become Numbers at the division. *)
Definition sampleStep (img : image) (x y : float) (acc : Z * Z * Z * Z)
    (d : float * float) : Z * Z * Z * Z :=
  let '(r, g, b, count) := acc in
  let px := (x + fst d)%float in
  let py := (y + snd d)%float in
  if JS.ge px 0 && JS.ge py 0 && JS.lt px (JS.ofZ (width img))
     && JS.lt py (JS.ofZ (height img)) then
    let '(pr, pg, pb) := pixel img (JS.toInt px) (JS.toInt py) in
    (r + byteZ pr, g + byteZ pg, b + byteZ pb, count + 1)
  else acc.

Definition sampleSums (img : image) (x y : float) : Z * Z * Z * Z :=
  fold_left (sampleStep img x y) neighbourhood (0, 0, 0, 0).

Definition sampleArea (img : image) (x y : float) : rgb :=
  let '(r, g, b, count) := sampleSums img x y in
  mkRgb (JS.Math_round (JS.ofZ r / JS.ofZ count))
        (JS.Math_round (JS.ofZ g / JS.ofZ count))
        (JS.Math_round (JS.ofZ b / JS.ofZ count)).

(** The image drawn by [cropCtx.drawImage(currentImage, imgX1, imgY1, w, h,
    0, 0, w, h)] and read back through [toDataURL]. *)
Definition cropImage (img : image) (imgX1 imgY1 cropWidth cropHeight : float)
    : image :=
  mkImage (JS.toInt cropWidth) (JS.toInt cropHeight)
          (fun i j => pixel img (JS.toInt imgX1 + i) (JS.toInt imgY1 + j)).

(** ** The script's functions *)

Definition DRAG_THRESHOLD : float := 2%float.

Definition msgTooSmall : string := "Selection too small. Please try again.".
Definition msgExtractFailed : string :=
  "Failed to extract colors. Make sure the image is loaded correctly.".

Section Script.

(** [new ColorThief().getPalette(image, n)], a library outside the script:
    it gives a list of channel triples or fails (an exception of its own, or
    a [null] result on which [.map] or [.forEach] throws). *)
Variable getPalette : image -> Z -> completion (list (float * float * float)).

Definition showNotification (message : string) : JSM unit :=
  modify (add_notification message).

Definition alert (message : string) : JSM unit :=
  modify (add_alert message).

Definition updateUndoButton : JSM unit :=
  modify (fun st => set_undoDisabled (Nat.eqb (List.length (undoStack st)) 0) st).

Definition saveState : JSM unit :=
  st <- get ;;
  copy <- Array_slice (colors st) ;;
  modify (fun st => set_undoStack (undoStack st ++ [copy]) st) ;;
  st <- get ;;
  (if Z.of_nat (List.length (undoStack st)) >? MAX_UNDO_STACK
   then modify (fun st => set_undoStack (tl (undoStack st)) st)
   else ret tt) ;;
  updateUndoButton.

(** [renderPalette]: the blocks of the sidebar are rebuilt from the sorted
    copy; the animation flag only chooses a style class. *)
Definition renderPalette (animateNew : bool) : JSM unit :=
  st <- get ;;
  sorted <- sortByHue (colors st) ;;
  shown <- Array_read sorted ;;
  modify (set_blocks shown) ;;
  st <- get ;;
  (if negb (Nat.eqb (List.length (palette st)) 0) && negb (hasEverHadColors st)
   then modify (set_hasEverHadColors true)
   else ret tt) ;;
  updateUndoButton.

Definition pickColorAtPoint (e : mouseEvent) : JSM unit :=
  st <- get ;;
  match currentImage st with
  | None => ret tt
  | Some img =>
      if Z.of_nat (List.length (palette st)) >=? MAX_COLORS then ret tt
      else
        let '(canvasX, canvasY) := getCanvasCoords st e in
        let '(imageX, imageY) := canvasToImageCoords st canvasX canvasY in
        if JS.lt imageX 0 || JS.lt imageY 0
           || JS.ge imageX (JS.ofZ (width img))
           || JS.ge imageY (JS.ofZ (height img))
        then ret tt
        else
          saveState ;;
          let color := sampleArea img (JS.Math_floor imageX) (JS.Math_floor imageY) in
          let hex := rgbToHex (r color) (g color) (b color) in
          Array_push (colors st) [hex] ;;
          renderPalette true
  end.

Definition removeColor (hex : string) (index : nat) : JSM unit :=
  st <- get ;;
  match indexOf hex (palette st) with
  | None => ret tt
  | Some actualIndex =>
      saveState ;;
      match nth_error (blocks st) index with
      | Some blockToRemove => modify (add_task (SpliceTask actualIndex))
      | None =>
          Array_splice1 (colors st) actualIndex ;;
          renderPalette false
      end
  end.

Definition undo : JSM unit :=
  st <- get ;;
  match rev (undoStack st) with
  | [] => ret tt
  | top :: below =>
      modify (fun st => set_colors top (set_undoStack (rev below) st)) ;;
      updateUndoButton ;;
      renderPalette true ;;
      showNotification "Undo successful"
  end.

Definition clearAll : JSM unit :=
  st <- get ;;
  if Nat.eqb (List.length (palette st)) 0 then ret tt
  else
    saveState ;;
    modify (add_task ClearTask).

Definition startCropMode (mode : prefillMode) : JSM unit :=
  modify (fun st => set_cropPrefillMode (Some mode) (set_crop true None st)) ;;
  showNotification "Draw a rectangle to select the area for color extraction".

(** The rectangle of [executeCropPrefill] in image space: corners put in
    order, taken to image coordinates, floored and clamped to the image; the
    result is [(imgX1, imgY1, cropWidth, cropHeight)]. *)
Definition cropRectangle (st : state) (img : image) (startX : float)
    : float * float * float * float :=
  let x1 := JS.Math_min startX (cropEndX st) in
  let y1 := JS.Math_min (cropStartY st) (cropEndY st) in
  let x2 := JS.Math_max startX (cropEndX st) in
  let y2 := JS.Math_max (cropStartY st) (cropEndY st) in
  let imgCoords1 := canvasToImageCoords st x1 y1 in
  let imgCoords2 := canvasToImageCoords st x2 y2 in
  let imgX1 := JS.Math_max 0 (JS.Math_floor (fst imgCoords1)) in
  let imgY1 := JS.Math_max 0 (JS.Math_floor (snd imgCoords1)) in
  let imgX2 := JS.Math_min (JS.ofZ (width img)) (JS.Math_floor (fst imgCoords2)) in
  let imgY2 := JS.Math_min (JS.ofZ (height img)) (JS.Math_floor (snd imgCoords2)) in
  let cropWidth := (imgX2 - imgX1)%float in
  let cropHeight := (imgY2 - imgY1)%float in
  (imgX1, imgY1, cropWidth, cropHeight).

Definition executeCropPrefill : JSM unit :=
  st <- get ;;
  match currentImage st, cropStartX st with
  | Some img, Some startX =>
      let '(imgX1, imgY1, cropWidth, cropHeight) := cropRectangle st img startX in
      if JS.lt cropWidth (JS.ofZ MIN_CROP_SIZE)
         || JS.lt cropHeight (JS.ofZ MIN_CROP_SIZE)
      then showNotification msgTooSmall
      else modify (add_task (CropLoadTask (cropImage img imgX1 imgY1 cropWidth cropHeight)))
  | _, _ => ret tt
  end.

Definition prefillPaletteFromImage (image : option image) : JSM unit :=
  match image with
  | None => ret tt
  | Some img =>
      try_catch
        (saveState ;;
         palette <- lift (getPalette img 20) ;;
         mapped <- Array_new (List.map (fun '(r, g, b) => rgbToHex r g b) palette) ;;
         modify (set_colors mapped) ;;
         renderPalette true)
        (alert msgExtractFailed)
  end.

Definition prefillPalette : JSM unit :=
  st <- get ;; prefillPaletteFromImage (currentImage st).

(** The [forEach] callback of the advanced prefill, over the entries from
    [index] on. *)
Fixpoint pushMainColors (mainPalette : list (float * float * float))
    (index : nat) : JSM unit :=
  match mainPalette with
  | [] => ret tt
  | (r, g, b) :: rest =>
      st <- get ;;
      let baseHex := rgbToHex r g b in
      Array_push (colors st) [baseHex] ;;
      (if Nat.eqb index 0
       then Array_push (colors st) (createColorVariations r g b 4)
       else Array_push (colors st) (createColorVariations r g b 3)) ;;
      pushMainColors rest (S index)
  end.

Definition prefillAdvancedPaletteFromImage (image : option image) : JSM unit :=
  match image with
  | None => ret tt
  | Some img =>
      try_catch
        (saveState ;;
         mainPalette <- lift (getPalette img 5) ;;
         empty <- Array_new [] ;;
         modify (set_colors empty) ;;
         pushMainColors mainPalette 0 ;;
         renderPalette true)
        (alert msgExtractFailed)
  end.

Definition prefillAdvancedPalette : JSM unit :=
  st <- get ;; prefillAdvancedPaletteFromImage (currentImage st).

(** [exportColors]: the text handed to [navigator.clipboard.writeText]; the
    promise it returns only decides which message is shown afterwards. *)
Definition exportColors : JSM unit :=
  st <- get ;;
  if Nat.eqb (List.length (palette st)) 0 then ret tt
  else
    let exported := JS.join ", " (palette st) in
    modify (add_clipboard exported).

(** The callbacks left for later, when they run. *)
Definition runTask (t : task) : JSM unit :=
  match t with
  | SpliceTask actualIndex =>
      st <- get ;;
      Array_splice1 (colors st) actualIndex ;;
      renderPalette false
  | ClearTask =>
      empty <- Array_new [] ;;
      modify (set_colors empty) ;;
      renderPalette true
  | CropLoadTask croppedImg =>
      st <- get ;;
      match cropPrefillMode st with
      | Some basic => prefillPaletteFromImage (Some croppedImg)
      | _ => prefillAdvancedPaletteFromImage (Some croppedImg)
      end
  end.

(** Running the [n]-th pending callback. *)
Definition fire (n : nat) : JSM unit :=
  st <- get ;;
  match nth_error (tasks st) n with
  | None => ret tt
  | Some t =>
      modify (set_tasks (firstn n (tasks st) ++ skipn (S n) (tasks st))) ;;
      runTask t
  end.

(** [img.onload] of [handleImageUpload] with [initializeCanvas]: the image
    becomes the current one, zoomed to fill a pane of the given size and
    centred in it. *)
Definition imageLoaded (img : image) (paneWidth paneHeight : Z) : JSM unit :=
  let scaleX := (JS.ofZ paneWidth / JS.ofZ (width img))%float in
  let scaleY := (JS.ofZ paneHeight / JS.ofZ (height img))%float in
  let zoom := JS.Math_max scaleX scaleY in
  modify (set_view (Some img) zoom
            ((JS.ofZ paneWidth / zoom - JS.ofZ (width img)) / 2)%float
            ((JS.ofZ paneHeight / zoom - JS.ofZ (height img)) / 2)%float).

Definition handleMouseDown (e : mouseEvent) : JSM unit :=
  st <- get ;;
  match currentImage st with
  | None => ret tt
  | Some _ =>
      if negb (button e =? 0) then ret tt
      else
        let '(canvasX, canvasY) := getCanvasCoords st e in
        if isCropMode st then
          modify (set_cropRect (Some canvasX) canvasY canvasX canvasY)
        else
          modify (fun st => set_drag (panX st) (panY st) (clientX e) (clientY e)
                              (set_pan true false st))
  end.

Definition handleMouseMove (e : mouseEvent) : JSM unit :=
  st <- get ;;
  match currentImage st with
  | None => ret tt
  | Some _ =>
      let '(canvasX, canvasY) := getCanvasCoords st e in
      match isCropMode st, cropStartX st with
      | true, Some startX =>
          modify (set_cropRect (Some startX) (cropStartY st) canvasX canvasY)
      | _, _ =>
          if isPanning st then
            let dx := (clientX e - lastMouseX st)%float in
            let dy := (clientY e - lastMouseY st)%float in
            let dragged :=
              JS.gt (abs dx) DRAG_THRESHOLD || JS.gt (abs dy) DRAG_THRESHOLD in
            modify (fun st =>
              set_drag (panX st + dx / zoom st)%float (panY st + dy / zoom st)%float
                       (clientX e) (clientY e)
                       (set_pan (isPanning st) (dragged || hasDragged st) st))
          else ret tt
      end
  end.

Definition handleMouseUp (e : mouseEvent) : JSM unit :=
  st <- get ;;
  match isCropMode st, cropStartX st with
  | true, Some _ =>
      executeCropPrefill ;;
      modify (set_crop false None)
  | _, _ =>
      if isPanning st then
        modify (fun st => set_pan false (hasDragged st) st) ;;
        (if negb (hasDragged st) then pickColorAtPoint e else ret tt) ;;
        modify (fun st => set_pan (isPanning st) false st)
      else ret tt
  end.

End Script.

(** ** Vocabulary of the specification *)

(** A Color of the data model: [#] and six hexadecimal digits. *)
Definition isColor (c : string) : bool :=
  match c with
  | String "#"%char rest =>
      Nat.eqb (String.length rest) 6
      && forallb (fun ch => match JS.hexVal ch with Some _ => true | None => false end)
                 (list_ascii_of_string rest)
  | _ => false
  end.

(** The channel values of the data model, as integers. *)
Definition byteRange : list Z := List.map Z.of_nat (List.seq 0 256).

(** The page as the script finds it when it starts, the canvas at
    [(left, top)] in the window. *)
Definition initialState (left top : float) : state :=
  mkState {[ 0%nat := [] ]} 0%nat [] None 1%float 0%float 0%float false false
    0%float 0%float false (Some 0%float) 0%float 0%float 0%float None false
    left top [] true [] [] [] [].

(** A page holding the given palette and an empty history. *)
Definition pageWith (pal : list string) : state :=
  mkState {[ 0%nat := pal ]} 0%nat [] None 1%float 0%float 0%float false false
    0%float 0%float false (Some 0%float) 0%float 0%float 0%float None
    (negb (Nat.eqb (List.length pal) 0))
    0%float 0%float [] true [] [] [] [].

(** An image of one colour, and the page showing an image at zoom 1 with
    the given palette. *)
Definition solidImage (w h : Z) (c : Byte.byte * Byte.byte * Byte.byte) : image :=
  mkImage w h (fun _ _ => c).

Definition redImage : image := solidImage 100 100 (Byte.xff, Byte.x00, Byte.x00).

Definition pageShowing (img : image) (pal : list string) : state :=
  set_view (Some img) 1%float 0%float 0%float (pageWith pal).

(** An extractor that always fails, and one that answers five fixed colours. *)
Definition noExtractor : image -> Z -> completion (list (float * float * float)) :=
  fun _ _ => Throw "no palette".

Definition fiveColors : list (float * float * float) :=
  [(255, 0, 0); (0, 255, 0); (0, 0, 255); (10, 200, 30); (128, 128, 128)]%float.

Definition fixedExtractor : image -> Z -> completion (list (float * float * float)) :=
  fun _ _ => Normal fiveColors.

(** The palette of the export scenario. *)
Definition examplePalette : list string :=
  ["#aabbcc"%string; "#112233"%string].

(** ** Numbers as ordered values

    A binary64 value that is not NaN is an integer multiple of [2^-1074];
    [ordZ] gives that integer (and a bound beyond every finite value for the
    infinities), so that comparisons of Numbers become comparisons in [Z]. *)
Definition beyondFinite : Z := 2 ^ 2200.

Definition ordZ (x : spec_float) : Z :=
  match x with
  | S754_zero _ => 0
  | S754_infinity s => cond_Zopp s beyondFinite
  | S754_nan => 0
  | S754_finite s m e => cond_Zopp s (Zpos m * 2 ^ (e + 1074))
  end.

Definition ordF (x : float) : Z := ordZ (Prim2SF x).

(** A rounded result that kept its sign and did not vanish. *)
Definition signedNonzero (s : bool) (x : spec_float) : Prop :=
  (exists m e, x = S754_finite s m e) \/ x = S754_infinity s.

(** ** The variations as the specification words them

    Lighter by 15 points of lightness and no more than 100, darker by 15 and
    no less than 0, less saturated by 30 and no less than 0 and, for four
    variations only, more saturated by 20 and no more than 100; then the
    first [count] of them. *)
Definition clampAbove100 (x : float) : float :=
  if (100 <=? x)%float then 100%float else x.

Definition clampBelow0 (x : float) : float :=
  if (x <=? 0)%float then 0%float else x.

Definition withLightness (c : hsl) (l' : float) : string :=
  rgbHex (hslToRgb (h c) (s c) l').

Definition withSaturation (c : hsl) (s' : float) : string :=
  rgbHex (hslToRgb (h c) s' (l c)).

Definition deriveVariations (r g b : float) (count : Z) : list string :=
  let c := rgbToHsl r g b in
  firstn (Z.to_nat count)
    ([withLightness c (clampAbove100 (l c + 15));
      withLightness c (clampBelow0 (l c - 15));
      withSaturation c (clampBelow0 (s c - 30))]
     ++ (if count =? 4 then [withSaturation c (clampAbove100 (s c + 20))] else [])).

(** ** The history discipline

    The state the script is in after [saveState], the well-formedness of the
    references it holds, and the bounded push of the specification. *)
Definition afterSave (st : state) : state :=
  let a := fresh (dom (heap st)) in
  let u := undoStack st ++ [a] in
  let u' := if Z.of_nat (List.length u) >? MAX_UNDO_STACK then tl u else u in
  set_undoDisabled (Nat.eqb (List.length u') 0)
    (set_undoStack u' (set_heap (fun h => <[a := palette st]> h) st)).

(** Every array the script refers to exists, and no two of its references
    are to the same array. *)
Definition wf (st : state) : Prop :=
  colors st ∈ dom (heap st)
  /\ Forall (fun a => a ∈ dom (heap st)) (undoStack st)
  /\ NoDup (colors st :: undoStack st).

Definition inv (st : state) : Prop :=
  wf st /\ Z.of_nat (List.length (undoStack st)) <= MAX_UNDO_STACK.

(** A snapshot pushed on a stack of capacity 10: past the capacity the
    bottom entry goes. *)
Definition pushBounded {A : Type} (x : A) (stack : list A) : list A :=
  let stack' := stack ++ [x] in
  if Z.of_nat (List.length stack') >? MAX_UNDO_STACK then tl stack' else stack'.

(** A change of state that leaves the undo stack and every array other than
    the current palette as they were: the palette array is edited in place,
    or [colors] is pointed at a new array. *)
Definition paletteStep (st st' : state) : Prop :=
  undoStack st' = undoStack st
  /\ (forall a, a ∈ dom (heap st) -> a <> colors st -> heap st' !! a = heap st !! a)
  /\ (forall a, a ∈ dom (heap st) -> a ∈ dom (heap st'))
  /\ (colors st' = colors st \/ colors st' ∉ dom (heap st))
  /\ colors st' ∈ dom (heap st').

(** ** Operations on the palette

    What the user can make the script do to the palette, and the test that
    an operation, in a given state, goes on to change the palette (its guards
    pass, so that it calls [saveState]). *)
Inductive operation :=
| OpPick (e : mouseEvent)
| OpPrefillBasic
| OpPrefillAdvanced
| OpRemove (hex : string) (index : nat)
| OpClear
| OpTimer (n : nat)
| OpUndo.

(** The image-space point of a click. *)
Definition imagePoint (st : state) (e : mouseEvent) : float * float :=
  let '(canvasX, canvasY) := getCanvasCoords st e in
  canvasToImageCoords st canvasX canvasY.

(** The bounds test of [pickColorAtPoint]. *)
Definition outsideImage (img : image) (p : float * float) : bool :=
  JS.lt (fst p) 0 || JS.lt (snd p) 0
  || JS.ge (fst p) (JS.ofZ (width img))
  || JS.ge (snd p) (JS.ofZ (height img)).

Definition mutates (op : operation) (st : state) : bool :=
  match op with
  | OpPick e =>
      match currentImage st with
      | Some img =>
          negb (Z.of_nat (List.length (palette st)) >=? MAX_COLORS)
          && negb (outsideImage img (imagePoint st e))
      | None => false
      end
  | OpPrefillBasic | OpPrefillAdvanced =>
      match currentImage st with Some _ => true | None => false end
  | OpRemove hex _ =>
      match indexOf hex (palette st) with Some _ => true | None => false end
  | OpClear => negb (Nat.eqb (List.length (palette st)) 0)
  | OpTimer n =>
      match nth_error (tasks st) n with
      | Some (CropLoadTask _) => true
      | _ => false
      end
  | OpUndo => false
  end.

Definition isUndo (op : operation) : bool :=
  match op with OpUndo => true | _ => false end.

(** The colours the advanced prefill makes of the main colours from
    [index] on: each main colour followed by its variations, four for the
    first and three for the others. *)
Definition withVariations (count : Z) (c : float * float * float) : list string :=
  let '(r, g, b) := c in
  rgbToHex r g b :: createColorVariations r g b count.

Definition slotColors (index : nat) (c : float * float * float) : list string :=
  withVariations (if Nat.eqb index 0 then 4 else 3) c.

Fixpoint advancedColors (mainPalette : list (float * float * float))
    (index : nat) : list string :=
  match mainPalette with
  | [] => []
  | c :: rest => slotColors index c ++ advancedColors rest (S index)
  end.

(** Performing an operation, and a run of operations. *)
Definition perform
    (getPalette : image -> Z -> completion (list (float * float * float)))
    (op : operation) : JSM unit :=
  match op with
  | OpPick e => pickColorAtPoint e
  | OpPrefillBasic => prefillPalette getPalette
  | OpPrefillAdvanced => prefillAdvancedPalette getPalette
  | OpRemove hex index => removeColor hex index
  | OpClear => clearAll
  | OpTimer n => fire getPalette n
  | OpUndo => undo
  end.

Fixpoint performAll
    (getPalette : image -> Z -> completion (list (float * float * float)))
    (ops : list operation) (st : state) : state :=
  match ops with
  | [] => st
  | op :: rest => performAll getPalette rest (snd (perform getPalette op st))
  end.

(** How many operations of a run change the palette. *)
Fixpoint mutations
    (getPalette : image -> Z -> completion (list (float * float * float)))
    (ops : list operation) (st : state) : nat :=
  match ops with
  | [] => O
  | op :: rest =>
      ((if mutates op st then 1 else 0)
       + mutations getPalette rest (snd (perform getPalette op st)))%nat
  end.

Definition undoTimes (n : nat) (st : state) : state :=
  Nat.iter n (fun st => snd (undo st)) st.

(** The size test of [executeCropPrefill]. *)
Definition selectionTooSmall (st : state) (img : image) (startX : float) : bool :=
  let '(_, _, cropWidth, cropHeight) := cropRectangle st img startX in
  JS.lt cropWidth (JS.ofZ MIN_CROP_SIZE) || JS.lt cropHeight (JS.ofZ MIN_CROP_SIZE).

(** A crop gesture from [(10, 10)] to [(15, 60)] on the red image. *)
Definition narrowSelection : state :=
  set_cropRect (Some 10%float) 10%float 15%float 60%float
    (set_cropPrefillMode (Some basic)
       (set_crop true None (pageShowing redImage examplePalette))).

(** ** Hue order

    The hue of a stored colour, the order the display is sorted by, and the
    check that the hue of every 24-bit colour is a number. *)
Definition hueOf (c : string) : float :=
  match hexToRgb c with
  | Some (mkRgb r g b) => h (rgbToHsl r g b)
  | None => nan
  end.

Definition hueLe (c1 c2 : string) : Prop := (hueOf c1 <=? hueOf c2)%float = true.

Definition sameHue (c x : string) : bool := (hueOf x =? hueOf c)%float.

Definition hueKey (c : string) : Z := ordF (hueOf c).

Definition byteFloats : list float :=
  Eval vm_compute in List.map JS.ofZ byteRange.

Definition hueDefined (r g b : float) : bool := negb (is_nan (h (rgbToHsl r g b))).

(** ** Sampling

    The bounds test of the loop of [sampleArea] at the centre, a channel
    value of the data model, and the mean [sampleArea] rounds. *)
Definition inBounds (img : image) (x y : float) : bool :=
  JS.ge x 0 && JS.ge y 0 && JS.lt x (JS.ofZ (width img))
  && JS.lt y (JS.ofZ (height img)).

Definition isByteNumber (v : float) : Prop :=
  exists n, 0 <= n <= 255 /\ v = JS.ofZ n.

Definition roundedMean (sum count : Z) : float :=
  JS.Math_round (JS.ofZ sum / JS.ofZ count).

Definition zRange (n : Z) : list Z := List.map Z.of_nat (List.seq 0 (Z.to_nat n)).

Definition meanIsByte (count : Z) : bool :=
  forallb (fun sum => existsb (PrimFloat.Leibniz.eqb (roundedMean sum count)) byteFloats)
          (zRange (255 * count + 1)).

(** The sums and the count of [sampleArea], by name. *)
Definition sumR (acc : Z * Z * Z * Z) : Z := fst (fst (fst acc)).
Definition sumG (acc : Z * Z * Z * Z) : Z := snd (fst (fst acc)).
Definition sumB (acc : Z * Z * Z * Z) : Z := snd (fst acc).
Definition countOf (acc : Z * Z * Z * Z) : Z := snd acc.

Definition sumsOk (acc : Z * Z * Z * Z) : Prop :=
  0 <= countOf acc
  /\ 0 <= sumR acc <= 255 * countOf acc
  /\ 0 <= sumG acc <= 255 * countOf acc
  /\ 0 <= sumB acc <= 255 * countOf acc.

(** The colour a click appends: the sample at the floored image point. *)
Definition pickedHex (st : state) (e : mouseEvent) (img : image) : string :=
  let p := imagePoint st e in
  rgbHex (sampleArea img (JS.Math_floor (fst p)) (JS.Math_floor (snd p))).

(** ** Channel texts

    The radix-16 text of an integer, and a channel text that is two
    hexadecimal digits. *)
Definition signedDigits16 (n : Z) : string :=
  ((if (n <? 0)%Z then "-" else "") ++ JS.intToString16 (Z.abs n))%string.

Definition isHexChar (ch : ascii) : bool :=
  match JS.hexVal ch with Some _ => true | None => false end.

Definition twoHexDigits (s : string) : bool :=
  Nat.eqb (String.length s) 2 && forallb isHexChar (list_ascii_of_string s).

(** A finite Number, and one that is also not zero. *)
Definition isFiniteSF (x : spec_float) : Prop :=
  match x with S754_zero _ | S754_finite _ _ _ => True | _ => False end.

Definition isNonzeroSF (x : spec_float) : Prop :=
  match x with S754_finite _ _ _ => True | _ => False end.

Definition isFiniteNumber (x : float) : bool :=
  match Prim2SF x with
  | S754_zero _ | S754_finite _ _ _ => true
  | _ => false
  end.

Definition isNonzeroNumber (x : float) : bool :=
  match Prim2SF x with
  | S754_finite _ _ _ => true
  | _ => false
  end.

(** The viewport and the click are numbers: the zoom is finite and not
    zero, the pan is not NaN, and the click has finite canvas coordinates. *)
Definition viewportDefined (st : state) (e : mouseEvent) : bool :=
  isNonzeroNumber (zoom st)
  && negb (is_nan (panX st)) && negb (is_nan (panY st))
  && isFiniteNumber (fst (getCanvasCoords st e))
  && isFiniteNumber (snd (getCanvasCoords st e)).

(** ** Scenario data *)

(** A byte channel survives the two conversions. *)
Definition channelRoundTrips (n : Z) : bool :=
  match channelHex (JS.ofZ n) with
  | String c1 (String c2 EmptyString) =>
      match JS.parseInt16 c1 c2 with
      | Some v => PrimFloat.Leibniz.eqb v (JS.ofZ n)
      | None => false
      end
  | _ => false
  end.

(** A palette of 21 colours. *)
Definition fullPalette : list string := repeat "#336699"%string 21.

(** The palette of the display scenario: two colours of hue 0 among others. *)
Definition tiedPalette : list string :=
  ["#0000ff"; "#ff0000"; "#00ff00"; "#800000"; "#ffff00"]%string.

(** The page after the red image arrived in a pane without size. *)
Definition emptyPane : state :=
  snd (imageLoaded redImage 0 0 (pageWith examplePalette)).

(** The page after the red image arrived in a pane of 800 by 600. *)
Definition filledPane : state :=
  snd (imageLoaded redImage 800 600 (pageWith examplePalette)).

(** ** More of the script: wheel, gestures, selection, export as image *)

(** *** Hex texts *)

(** What [hexToRgb] matches its six digits against: the argument without
    the one [#] that the pattern lets it start with. *)
Definition hexBody (hex : string) : string :=
  match hex with
  | String "#"%char rest => rest
  | _ => hex
  end.

(** Exactly six characters, each a digit in radix 16. *)
Definition sixHexDigits (body : string) : bool :=
  Nat.eqb (String.length body) 6 && forallb isHexChar (list_ascii_of_string body).

(** The text of an integer channel is its two digits, high one first. *)
Definition hexPairRoundTrips (n : Z) : bool :=
  String.eqb (channelHex (JS.ofZ n))
             (String (JS.hexDigit (n / 16)) (String (JS.hexDigit (n mod 16)) EmptyString)).

(** *** The history after a change *)

(** The snapshots that remain below a new one on the bounded stack. *)
Definition keptBelow {A : Type} (stack : list A) : list A :=
  if Z.of_nat (List.length stack) <? MAX_UNDO_STACK then stack else tl stack.

(** A list without the first occurrence of [x]. *)
Fixpoint removeFirst (x : string) (l : list string) : list string :=
  match l with
  | [] => []
  | y :: l' => if String.eqb y x then l' else y :: removeFirst x l'
  end.

(** The page once a removal is over: at once when no block was found to
    animate, after the timer of the animation otherwise. *)
Definition afterRemoval
    (getPalette : image -> Z -> completion (list (float * float * float)))
    (hex : string) (index : nat) (st : state) : state :=
  let st1 := snd (removeColor hex index st) in
  match nth_error (blocks st) index with
  | Some _ => snd (fire getPalette (List.length (tasks st)) st1)
  | None => st1
  end.

(** The hex text of a colour of the extractor, and a colour of the
    extractor whose channels are channel values of the data model. *)
Definition hexOfTriple (c : float * float * float) : string :=
  let '(r, g, b) := c in rgbToHex r g b.

Definition byteTriple (c : float * float * float) : Prop :=
  let '(r, g, b) := c in isByteNumber r /\ isByteNumber g /\ isByteNumber b.

(** *** The wheel *)

(** The zoom constants of the script.  A decimal literal is the nearest
    binary64 value, in the script as here. *)
#[local] Set Warnings "-inexact-float".

Definition ZOOM_DELTA : float := 0.1%float.
Definition ZOOM_MIN : float := 0.1%float.
Definition ZOOM_MAX : float := 10%float.

(** The one field of a wheel event that the script reads. *)
Record wheelEvent := mkWheel { deltaY : float }.

(** Assignment to [zoom]. *)
Definition set_zoom (z : float) (st : state) : state :=
  mkState (heap st) (colors st) (undoStack st) (currentImage st) z
    (panX st) (panY st) (isPanning st) (hasDragged st) (lastMouseX st)
    (lastMouseY st) (isCropMode st) (cropStartX st) (cropStartY st)
    (cropEndX st) (cropEndY st) (cropPrefillMode st) (hasEverHadColors st)
    (canvasLeft st) (canvasTop st) (blocks st) (undoDisabled st)
    (notifications st) (alerts st) (clipboard st) (tasks st).

(** [handleWheel]; [drawImage] and [updateZoomDisplay] repaint the canvas and
    the zoom label from the state and change nothing in it. *)
Definition handleWheel (e : wheelEvent) : JSM unit :=
  st <- get ;;
  match currentImage st with
  | None => ret tt
  | Some _ =>
      let delta := if JS.gt (deltaY e) 0 then (1 - ZOOM_DELTA)%float
                   else (1 + ZOOM_DELTA)%float in
      modify (fun st => set_zoom (zoom st * delta)%float st) ;;
      modify (fun st =>
        set_zoom (JS.Math_max ZOOM_MIN (JS.Math_min (zoom st) ZOOM_MAX)) st)
  end.

(** *** Gestures on the canvas *)

(** The pointer state a press leaves behind once the button is released. *)
Definition released (e : mouseEvent) (st : state) : state :=
  set_drag (panX st) (panY st) (clientX e) (clientY e) (set_pan false false st).

(** A press and a release at the same point. *)
Definition click (e : mouseEvent) : JSM unit :=
  handleMouseDown e ;; handleMouseUp e.

(** A press, one move and a release. *)
Definition drag (e0 e1 e2 : mouseEvent) : JSM unit :=
  handleMouseDown e0 ;; handleMouseMove e1 ;; handleMouseUp e2.

(** *** The selection in image space *)

(** The far corner of the rectangle of [executeCropPrefill], [imgX2] and
    [imgY2]: the width and height it computes are the differences with
    the near corner. *)
Definition cropFarCorner (st : state) (img : image) (startX : float)
    : float * float :=
  let x2 := JS.Math_max startX (cropEndX st) in
  let y2 := JS.Math_max (cropStartY st) (cropEndY st) in
  let imgCoords2 := canvasToImageCoords st x2 y2 in
  (JS.Math_min (JS.ofZ (width img)) (JS.Math_floor (fst imgCoords2)),
   JS.Math_min (JS.ofZ (height img)) (JS.Math_floor (snd imgCoords2))).

(** The view and the selection are numbers. *)
Definition selectionDefined (st : state) (startX : float) : bool :=
  isNonzeroNumber (zoom st)
  && negb (is_nan (panX st)) && negb (is_nan (panY st))
  && isFiniteNumber startX && isFiniteNumber (cropStartY st)
  && isFiniteNumber (cropEndX st) && isFiniteNumber (cropEndY st).

(** *** The palette as an image *)

(** [Math.ceil], through [Math.floor]: the sign of a zero result is that of
    the argument. *)
Definition Math_ceil (x : float) : float := (- JS.Math_floor (- x))%float.

(** [getContrastColor]: reading [.r] of [null] throws. *)
Definition getContrastColor (hexColor : string) : completion string :=
  match hexToRgb hexColor with
  | Some rgb =>
      let luminance :=
        ((0.299 * r rgb + 0.587 * g rgb + 0.114 * b rgb) / 255)%float in
      Normal (if JS.gt luminance 0.5 then "#000000" else "#ffffff")%string
  | None => Throw TypeError
  end.

(** What [exportPaletteImage] draws on its canvas, each call with the
    style that was assigned before it.  (A canvas keeps its former style
    when the text assigned is not a CSS colour; the properties below are
    about palettes of Colors, which are.) *)
Inductive drawing :=
| FillRect (fillStyle : string) (x y w h : float)
| StrokeRect (strokeStyle : string) (lineWidth : float) (x y w h : float)
| FillText (fillStyle : string) (text : string) (x y : float).

Record paletteCanvas := mkCanvas {
  canvasWidth : float;
  canvasHeight : float;
  drawings : list drawing
}.

(** The two constants of [exportPaletteImage]. *)
Definition squareSize : float := 100%float.
Definition columns : Z := 7.

(** The callback of [colors.forEach]; [index] is an array index, and [%] on
    two non-negative integers is the integer remainder. *)
Definition drawSquare (color : string) (index : nat) : completion (list drawing) :=
  let col := JS.ofZ (Z.of_nat index mod columns) in
  let row := JS.Math_floor (JS.ofZ (Z.of_nat index) / JS.ofZ columns) in
  let x := (col * squareSize)%float in
  let y := (row * squareSize)%float in
  cbind (getContrastColor color) (fun contrast =>
    Normal [FillRect color x y squareSize squareSize;
            StrokeRect "#333333" 2 x y squareSize squareSize;
            FillText contrast (JS.toUpperCase color)
                     (x + squareSize / 2) (y + squareSize / 2)]).

Fixpoint drawSquares (cs : list string) (index : nat) : completion (list drawing) :=
  match cs with
  | [] => Normal []
  | color :: rest =>
      cbind (drawSquare color index) (fun ds =>
        cbind (drawSquares rest (S index)) (fun ds' => Normal (ds ++ ds')))
  end.

(** [exportPaletteImage] up to [toBlob]: the canvas that is handed over, or
    [None] when the palette is empty.  The download and its notification
    happen in the callback of [toBlob]. *)
Definition exportPaletteImage : JSM (option paletteCanvas) :=
  st <- get ;;
  if Nat.eqb (List.length (palette st)) 0 then ret None
  else
    let rows := Math_ceil (JS.ofZ (Z.of_nat (List.length (palette st))) / JS.ofZ columns) in
    let w := (JS.ofZ columns * squareSize)%float in
    let h := (rows * squareSize)%float in
    ds <- lift (drawSquares (palette st) 0) ;;
    ret (Some (mkCanvas w h (FillRect "#ffffff" 0 0 w h :: ds))).

(** The layout in integers: the origin of the square of an index, and the
    height of the canvas for a number of colours. *)
Definition squareOrigin (index : nat) : Z * Z :=
  (100 * (Z.of_nat index mod 7), 100 * (Z.of_nat index / 7)).

Definition canvasRows (n : nat) : Z := (Z.of_nat n + 6) / 7.

(** The text colour of a label, and the drawings of one square at its
    integer origin. *)
Definition textColor (color : string) : string :=
  match getContrastColor color with
  | Normal contrast => contrast
  | Throw _ => EmptyString
  end.

Definition squareAt (color : string) (index : nat) : list drawing :=
  let '(x, y) := squareOrigin index in
  [FillRect color (JS.ofZ x) (JS.ofZ y) 100 100;
   StrokeRect "#333333" 2 (JS.ofZ x) (JS.ofZ y) 100 100;
   FillText (textColor color) (JS.toUpperCase color)
            (JS.ofZ (x + 50)) (JS.ofZ (y + 50))].

Fixpoint paletteSquares (cs : list string) (index : nat) : list drawing :=
  match cs with
  | [] => []
  | color :: rest => squareAt color index ++ paletteSquares rest (S index)
  end.

(** The Numbers the script computes for a square and for the height are
    the integers of the layout; decided by evaluation up to 21 colours. *)
Definition originAgrees (i : nat) : bool :=
  let col := JS.ofZ (Z.of_nat i mod columns) in
  let row := JS.Math_floor (JS.ofZ (Z.of_nat i) / JS.ofZ columns) in
  let x := (col * squareSize)%float in
  let y := (row * squareSize)%float in
  let '(ox, oy) := squareOrigin i in
  PrimFloat.Leibniz.eqb x (JS.ofZ ox) && PrimFloat.Leibniz.eqb y (JS.ofZ oy)
  && PrimFloat.Leibniz.eqb (x + squareSize / 2) (JS.ofZ (ox + 50))
  && PrimFloat.Leibniz.eqb (y + squareSize / 2) (JS.ofZ (oy + 50)).

Definition heightAgrees (n : nat) : bool :=
  PrimFloat.Leibniz.eqb
    (Math_ceil (JS.ofZ (Z.of_nat n) / JS.ofZ columns) * squareSize)%float
    (JS.ofZ (100 * canvasRows n)).

(** The label colour on the grey of level [v]. *)
Definition greyContrast (v : Z) : bool :=
  match getContrastColor (rgbToHex (JS.ofZ v) (JS.ofZ v) (JS.ofZ v)) with
  | Normal t => String.eqb t (if 128 <=? v then "#000000" else "#ffffff")
  | Throw _ => false
  end.

(** *** The undo button *)

(** The button is disabled exactly when the stack is empty. *)
Definition buttonOk (st : state) : Prop :=
  undoDisabled st = Nat.eqb (List.length (undoStack st)) 0.

(** *** Palettes of colours *)

(** The palette and every snapshot hold colours only. *)
Definition colorsOnly (st : state) : Prop :=
  Forall (fun c => isColor c = true) (palette st)
  /\ Forall (Forall (fun c => isColor c = true)) (history st).

(** An extractor that answers channel values of the data model. *)
Definition byteExtractor
    (getPalette : image -> Z -> completion (list (float * float * float))) : Prop :=
  forall img n pal, getPalette img n = Normal pal -> Forall byteTriple pal.

(** The operations followed here: every one but the advanced prefill, a
    click being made in a view that is defined. *)
Definition followed (op : operation) (st : state) : Prop :=
  match op with
  | OpPick e => viewportDefined st e = true
  | OpPrefillAdvanced => False
  | OpTimer n =>
      match nth_error (tasks st) n with
      | Some (CropLoadTask _) => cropPrefillMode st = Some basic
      | _ => True
      end
  | _ => True
  end.

(** *** A crop gesture *)

Definition msgDraw : string :=
  "Draw a rectangle to select the area for color extraction".

(** Choosing a crop button, then a press, a move and a release. *)
Definition cropGesture (mode : prefillMode) (e0 e1 e2 : mouseEvent) : JSM unit :=
  startCropMode mode ;; handleMouseDown e0 ;; handleMouseMove e1 ;; handleMouseUp e2.

(** The page while the rectangle from the press at [e0] to the move at [e1]
    is being drawn. *)
Definition selecting (mode : prefillMode) (e0 e1 : mouseEvent) (st : state) : state :=
  set_cropRect (Some (fst (getCanvasCoords st e0))) (snd (getCanvasCoords st e0))
               (fst (getCanvasCoords st e1)) (snd (getCanvasCoords st e1))
    (add_notification msgDraw (set_cropPrefillMode (Some mode) (set_crop true None st))).

(** The image cut out by a selection. *)
Definition croppedImage (st : state) (img : image) (startX : float) : image :=
  let '(imgX1, imgY1, cropWidth, cropHeight) := cropRectangle st img startX in
  cropImage img imgX1 imgY1 cropWidth cropHeight.

(** *** Clearing and sampling *)

(** The page once a clearing is over: after its timer. *)
Definition afterClearing
    (getPalette : image -> Z -> completion (list (float * float * float)))
    (st : state) : state :=
  performAll getPalette [OpClear; OpTimer (List.length (tasks st))] st.

(** The rounded mean of [count] equal channel values is that value. *)
Definition flatMean (count : Z) : bool :=
  forallb (fun c => PrimFloat.Leibniz.eqb (roundedMean (c * count) count) (JS.ofZ c))
          byteRange.

(** *** More scenario data *)

(** A page whose sidebar shows its palette. *)
Definition shownPage (pal : list string) : state :=
  snd (renderPalette true (pageWith pal)).

Definition threeColors : list string := ["#ff0000"; "#00ff00"; "#0000ff"]%string.

(** A crop gesture from [(10, 10)] to [(60, 60)] on the red image. *)
Definition wideSelection : state :=
  set_cropRect (Some 10%float) 10%float 60%float 60%float
    (set_cropPrefillMode (Some basic)
       (set_crop true None (pageShowing redImage examplePalette))).

(** An extractor that answers two colours. *)
Definition twoColorExtractor : image -> Z -> completion (list (float * float * float)) :=
  fun _ _ => Normal [(255, 0, 0); (0, 0, 255)]%float.

(** ** Sessions, timers and channels outside the data model *)

(** What happens on the page: an image arrives in the pane, or the user
    makes the script perform an operation. *)
Inductive event :=
| EvLoad (img : image) (paneWidth paneHeight : Z)
| EvOp (op : operation).

Definition handle
    (getPalette : image -> Z -> completion (list (float * float * float)))
    (ev : event) : JSM unit :=
  match ev with
  | EvLoad img paneWidth paneHeight => imageLoaded img paneWidth paneHeight
  | EvOp op => perform getPalette op
  end.

Fixpoint session
    (getPalette : image -> Z -> completion (list (float * float * float)))
    (evs : list event) (st : state) : state :=
  match evs with
  | [] => st
  | ev :: rest => session getPalette rest (snd (handle getPalette ev st))
  end.




(** A Number that [===] an integer from 0 to 255 ([-0] is such a Number). *)
Definition isByteValue (x : float) : Prop :=
  exists n, 0 <= n <= 255 /\ JS.seq x (JS.ofZ n) = true.

(** A string of ASCII characters, on which [JS.toUpperCase] is
    [String.prototype.toUpperCase]. *)
Definition isAscii (s : string) : bool :=
  forallb (fun c => (N_of_ascii c <? 128)%N) (list_ascii_of_string s).

(** The greys, and the variations of a grey in integers: 15 points of
    lightness are 38 levels, and a saturation of 20 tints the grey towards
    red. *)
Definition grey (v : Z) : string := rgbToHex (JS.ofZ v) (JS.ofZ v) (JS.ofZ v).

Definition tintedGrey (v : Z) : string :=
  if v <=? 127 then
    rgbToHex (JS.ofZ ((12 * v + 5) / 10)) (JS.ofZ ((8 * v + 5) / 10))
             (JS.ofZ ((8 * v + 5) / 10))
  else
    rgbToHex (JS.ofZ ((8 * v + 515) / 10)) (JS.ofZ ((12 * v - 505) / 10))
             (JS.ofZ ((12 * v - 505) / 10)).

Definition greyVariations (v : Z) : list string :=
  [grey (Z.min 255 (v + 38)); grey (Z.max 0 (v - 38)); grey v; tintedGrey v].

Fixpoint sameTexts (l1 l2 : list string) : bool :=
  match l1, l2 with
  | [], [] => true
  | x :: l1', y :: l2' => String.eqb x y && sameTexts l1' l2'
  | _, _ => false
  end.

(** The corners of the colour cube and their four variations. *)
Definition cubeCorners : list (float * float * float) :=
  [(0, 0, 0); (255, 255, 255); (255, 0, 0); (0, 255, 0); (0, 0, 255);
   (255, 255, 0); (0, 255, 255); (255, 0, 255)]%float.

Definition cornerVariations : list (list string) :=
  [["#262626"; "#000000"; "#000000"; "#000000"];
   ["#ffffff"; "#d9d9d9"; "#ffffff"; "#ffffff"];
   ["#ff4d4d"; "#b30000"; "#d92626"; "#ff0000"];
   ["#4dff4d"; "#00b300"; "#26d926"; "#00ff00"];
   ["#4d4dff"; "#0000b3"; "#2626d9"; "#0000ff"];
   ["#ffff4d"; "#b2b300"; "#d9d926"; "#ffff00"];
   ["#4dffff"; "#00b2b3"; "#26d9d9"; "#00ffff"];
   ["#ff4dff"; "#b300b2"; "#d926d9"; "#ff00ff"]]%string.


(** A channel the data model excludes: NaN, below 0 or above 255 (the
    infinities are below or above). *)
Definition outOfRange (x : float) : bool :=
  is_nan x || JS.lt x 0 || JS.gt x 255.

(** * Properties *)

(** ** Facts on binary64 arithmetic *)

Lemma digits2_pos_size (m : positive) : digits2_pos m = Pos.size m.
Proof. induction m; simpl; congruence. Qed.

Lemma digits2_pos_bounds (m : positive) :
  2 ^ (Zpos (digits2_pos m) - 1) <= Zpos m < 2 ^ Zpos (digits2_pos m).
Proof.
  rewrite digits2_pos_size. split.
  - pose proof (Pos.size_le m) as H.
    assert (H2 : 2 ^ Zpos (Pos.size m) <= 2 * Zpos m).
    { rewrite <- Pos2Z.inj_pow. change (2 * Z.pos m) with (Zpos (m~0)). lia. }
    replace (Zpos (Pos.size m)) with (Z.succ (Zpos (Pos.size m) - 1)) in H2 by lia.
    rewrite Z.pow_succ_r in H2 by lia. lia.
  - pose proof (Pos.size_gt m) as H.
    rewrite <- Pos2Z.inj_pow. lia.
Qed.

Lemma bounded_spec (m : positive) (e : Z) :
  bounded prec emax m e = true ->
  -1074 <= e <= 971 /\ Zpos (digits2_pos m) <= 53
  /\ (-1074 < e -> Zpos (digits2_pos m) = 53).
Proof.
  unfold bounded, canonical_mantissa, fexp, SpecFloat.emin, emax, prec.
  intros H. apply andb_prop in H as [H1 H2].
  apply Z.eqb_eq in H1. apply Z.leb_le in H2. lia.
Qed.

Lemma beyondFinite_pos : 0 < beyondFinite.
Proof. unfold beyondFinite. apply Z.pow_pos_nonneg; lia. Qed.

Lemma finite_bounds (m : positive) (e : Z) :
  bounded prec emax m e = true ->
  0 < Zpos m * 2 ^ (e + 1074) < beyondFinite.
Proof.
  unfold beyondFinite.
  intros H. apply bounded_spec in H as (He & Hd & _).
  pose proof (digits2_pos_bounds m) as [_ Hm].
  assert (0 < 2 ^ (e + 1074)) by (apply Z.pow_pos_nonneg; lia).
  split; [lia|].
  apply Z.lt_le_trans with (2 ^ 53 * 2 ^ (e + 1074)).
  - apply Z.mul_lt_mono_pos_r; [lia|].
    apply Z.lt_le_trans with (2 ^ Zpos (digits2_pos m)); [lia|].
    apply Z.pow_le_mono_r; lia.
  - rewrite <- Z.pow_add_r by lia. apply Z.pow_le_mono_r; lia.
Qed.

Lemma finite_compare (m1 m2 : positive) (e1 e2 : Z) :
  bounded prec emax m1 e1 = true -> bounded prec emax m2 e2 = true ->
  match e1 ?= e2 with
  | Lt => Lt
  | Gt => Gt
  | Eq => Pos.compare_cont Eq m1 m2
  end = (Zpos m1 * 2 ^ (e1 + 1074) ?= Zpos m2 * 2 ^ (e2 + 1074)).
Proof.
  intros B1 B2.
  assert (Hlt : forall m1 m2 e1 e2,
    bounded prec emax m1 e1 = true -> bounded prec emax m2 e2 = true ->
    e1 < e2 -> Zpos m1 * 2 ^ (e1 + 1074) < Zpos m2 * 2 ^ (e2 + 1074)).
  { clear. intros m1 m2 e1 e2 B1 B2 Hlt.
    apply bounded_spec in B1 as (He1 & Hd1 & _).
    apply bounded_spec in B2 as (He2 & Hd2 & Hn2).
    pose proof (digits2_pos_bounds m1) as [_ Hm1].
    pose proof (digits2_pos_bounds m2) as [Hm2 _].
    rewrite Hn2 in Hm2 by lia.
    assert (Hp1 : 0 < 2 ^ (e1 + 1074)) by (apply Z.pow_pos_nonneg; lia).
    apply Z.lt_le_trans with (2 ^ 53 * 2 ^ (e1 + 1074)).
    - apply Z.mul_lt_mono_pos_r; [lia|].
      apply Z.lt_le_trans with (2 ^ Zpos (digits2_pos m1)); [lia|].
      apply Z.pow_le_mono_r; lia.
    - apply Z.le_trans with (2 ^ 52 * 2 ^ (e2 + 1074)).
      + rewrite <- !Z.pow_add_r by lia. apply Z.pow_le_mono_r; lia.
      + apply Z.mul_le_mono_nonneg_r; [|exact Hm2].
        apply Z.pow_nonneg; lia. }
  destruct (Z.compare_spec e1 e2) as [E|L|G].
  - subst e2. symmetry.
    assert (0 < 2 ^ (e1 + 1074)).
    { apply bounded_spec in B1. apply Z.pow_pos_nonneg; lia. }
    rewrite <- Zmult_compare_compat_r by lia. reflexivity.
  - symmetry. apply Z.compare_lt_iff. now apply Hlt.
  - symmetry. apply Z.compare_gt_iff. apply Hlt; auto.
Qed.

Lemma SFcompare_ordZ (x y : spec_float) :
  valid_binary x = true -> valid_binary y = true ->
  x <> S754_nan -> y <> S754_nan ->
  SFcompare x y = Some (ordZ x ?= ordZ y).
Proof.
  intros Vx Vy Nx Ny.
  destruct x as [sx|sx| |sx mx ex]; [| | congruence |];
  destruct y as [sy|sy| |sy my ey]; try congruence.
  all: try (simpl in Vx; pose proof (finite_bounds _ _ Vx) as Bx).
  all: try (simpl in Vy; pose proof (finite_bounds _ _ Vy) as By).
  all: pose proof beyondFinite_pos as Hinf.
  all: unfold SFcompare, ordZ.
  all: try (destruct sx); try (destruct sy); unfold cond_Zopp.
  all: try (f_equal; symmetry;
            first [ apply Z.compare_lt_iff; lia | apply Z.compare_gt_iff; lia
                  | apply Z.compare_eq_iff; lia ]).
  - pose proof (finite_compare _ _ _ _ Vx Vy) as H.
    rewrite Z.compare_opp, (Z.compare_antisym (Z.pos mx * _)), <- H.
    destruct (ex ?= ey); reflexivity.
  - now rewrite (finite_compare _ _ _ _ Vx Vy).
Qed.

Lemma fexp_eq (z : Z) : fexp prec emax z = Z.max (z - 53) (-1074).
Proof. reflexivity. Qed.

Lemma shr_1_m (mrs : shr_record) :
  0 <= shr_m mrs -> shr_m (shr_1 mrs) = Z.div2 (shr_m mrs).
Proof.
  destruct mrs as [m r s]. simpl. intros Hm.
  destruct m as [|p|p]; [reflexivity| |lia].
  destruct p; reflexivity.
Qed.

Lemma iter_shr_1 (p : positive) (mrs : shr_record) :
  0 <= shr_m mrs ->
  shr_m (SpecFloat.iter_pos shr_1 p mrs) = shr_m mrs / 2 ^ Zpos p.
Proof.
  revert mrs. induction p as [p IH|p IH|]; intros mrs Hm; simpl SpecFloat.iter_pos.
  - assert (H1 : 0 <= shr_m (shr_1 mrs)).
    { rewrite shr_1_m, Z.div2_div by lia. apply Z.div_pos; lia. }
    assert (H2 : 0 <= shr_m (SpecFloat.iter_pos shr_1 p (shr_1 mrs))).
    { rewrite IH by lia. apply Z.div_pos; [lia|]. apply Z.pow_pos_nonneg; lia. }
    rewrite IH, IH, shr_1_m, Z.div2_div by lia.
    assert (0 < 2 ^ Zpos p) by (apply Z.pow_pos_nonneg; lia).
    rewrite !Z.div_div by lia. f_equal.
    rewrite (Pos2Z.inj_xI p).
    replace (2 * Zpos p + 1) with (Z.succ (Zpos p + Zpos p)) by lia.
    rewrite Z.pow_succ_r, Z.pow_add_r by lia. reflexivity.
  - assert (H2 : 0 <= shr_m (SpecFloat.iter_pos shr_1 p mrs)).
    { rewrite IH by lia. apply Z.div_pos; [lia|]. apply Z.pow_pos_nonneg; lia. }
    rewrite IH, IH by lia.
    assert (0 < 2 ^ Zpos p) by (apply Z.pow_pos_nonneg; lia).
    rewrite !Z.div_div by lia. f_equal.
    rewrite (Pos2Z.inj_xO p).
    replace (2 * Zpos p) with (Zpos p + Zpos p) by lia.
    rewrite Z.pow_add_r by lia. reflexivity.
  - rewrite shr_1_m, Z.div2_div by lia. reflexivity.
Qed.

Lemma shr_record_of_loc_m (m : Z) (l : location) :
  shr_m (shr_record_of_loc m l) = m.
Proof. destruct l as [|[]]; reflexivity. Qed.

Lemma shr_fexp_pos (m e : Z) (l : location) :
  0 < m -> -1074 <= e ->
  0 < shr_m (fst (shr_fexp prec emax m e l))
  /\ -1074 <= snd (shr_fexp prec emax m e l).
Proof.
  intros Hm He. unfold shr_fexp, shr. rewrite fexp_eq.
  destruct m as [|q|q]; try lia. cbn [Zdigits2].
  pose proof (digits2_pos_bounds q) as [Hq _].
  destruct (Z.max (Zpos (digits2_pos q) + e - 53) (-1074) - e) as [|p|p] eqn:En;
    cbn [fst snd]; rewrite ?shr_record_of_loc_m; try lia.
  rewrite iter_shr_1 by (rewrite shr_record_of_loc_m; lia).
  rewrite shr_record_of_loc_m. split; [|lia].
  assert (Hp : Zpos p <= Zpos (digits2_pos q) - 1) by lia.
  assert (H2 : 2 ^ Zpos p <= Zpos q).
  { apply Z.le_trans with (2 ^ (Zpos (digits2_pos q) - 1)); [|lia].
    apply Z.pow_le_mono_r; lia. }
  assert (0 < 2 ^ Zpos p) by (apply Z.pow_pos_nonneg; lia).
  apply Z.lt_le_trans with 1; [lia|].
  apply Z.div_le_lower_bound; lia.
Qed.

Lemma round_nearest_even_pos (m : Z) (l : location) :
  0 < m -> 0 < round_nearest_even m l.
Proof.
  intros Hm. destruct l as [|[]]; simpl; try lia.
  destruct (Z.even m); lia.
Qed.

Lemma binary_round_aux_sign (s : bool) (m e : Z) (l : location) :
  0 < m -> -1074 <= e ->
  signedNonzero s (binary_round_aux prec emax s m e l).
Proof.
  intros Hm He. unfold binary_round_aux.
  pose proof (shr_fexp_pos m e l Hm He) as [H1 H2].
  destruct (shr_fexp prec emax m e l) as [mrs' e']. cbn [fst snd] in H1, H2.
  pose proof (shr_fexp_pos _ e' loc_Exact
                (round_nearest_even_pos _ (loc_of_shr_record mrs') H1) H2) as [H3 H4].
  destruct (shr_fexp prec emax _ e' loc_Exact) as [mrs'' e''].
  cbn [fst snd] in H3, H4.
  destruct (shr_m mrs'') as [|p|p]; try lia.
  destruct (e'' <=? emax - prec); [left; eauto | right; reflexivity].
Qed.

Lemma binary_round_sign (s : bool) (m : positive) (e : Z) :
  -1074 <= e -> signedNonzero s (binary_round prec emax s m e).
Proof.
  intros He. unfold binary_round.
  destruct (shl_align m e _) as [mz ez] eqn:E.
  apply binary_round_aux_sign; [lia|].
  unfold shl_align in E. rewrite fexp_eq in E.
  destruct (Z.max _ _ - e) eqn:En; inversion E; subst; lia.
Qed.

Lemma Pos_iter_xO (m d : positive) :
  Zpos (Pos.iter xO m d) = Zpos m * 2 ^ Zpos d.
Proof.
  induction d as [|d IH] using Pos.peano_ind.
  - simpl. lia.
  - rewrite Pos.iter_succ, Pos2Z.inj_xO, IH, Pos2Z.inj_succ, Z.pow_succ_r by lia. lia.
Qed.

Lemma shl_align_fst (m : positive) (e e' : Z) :
  e' <= e -> Zpos (fst (shl_align m e e')) = Zpos m * 2 ^ (e - e').
Proof.
  intros Hle. unfold shl_align.
  destruct (e' - e) as [|d|d] eqn:Ed; cbn [fst].
  - replace (e - e') with 0 by lia. lia.
  - lia.
  - rewrite Pos_iter_xO. f_equal. f_equal. lia.
Qed.

Lemma SFltb_zero_signed (s : bool) (x : spec_float) :
  signedNonzero s x -> SFltb (S754_zero false) x = negb s.
Proof.
  intros [(m & e & ->)| ->]; destruct s; reflexivity.
Qed.

Lemma SFsub_sign (x y : spec_float) :
  valid_binary x = true -> valid_binary y = true ->
  x <> S754_nan -> y <> S754_nan ->
  SFltb (S754_zero false) (SF64sub x y) = (ordZ y <? ordZ x).
Proof.
  intros Vx Vy Nx Ny.
  destruct x as [sx|sx| |sx mx ex]; [| | congruence |];
  destruct y as [sy|sy| |sy my ey]; try congruence.
  all: try (simpl in Vx; pose proof (finite_bounds _ _ Vx) as Bx).
  all: try (simpl in Vy; pose proof (finite_bounds _ _ Vy) as By).
  all: pose proof beyondFinite_pos as Hinf.
  1-8: unfold SF64sub, SFsub, ordZ;
       try (destruct sx); try (destruct sy); unfold cond_Zopp; cbn [negb];
       unfold SFltb, SFcompare; symmetry;
       first [ apply Z.ltb_lt; lia | apply Z.ltb_ge; lia ].
  unfold SF64sub, SFsub.
  pose proof (bounded_spec _ _ Vx) as (Hex & _).
  pose proof (bounded_spec _ _ Vy) as (Hey & _).
  set (ez := Z.min ex ey).
  rewrite (shl_align_fst mx ex ez), (shl_align_fst my ey ez) by (subst ez; lia).
  set (D := cond_Zopp sx (Zpos mx * 2 ^ (ex - ez)) - cond_Zopp sy (Zpos my * 2 ^ (ey - ez))).
  assert (HD : ordZ (S754_finite sx mx ex) - ordZ (S754_finite sy my ey)
               = D * 2 ^ (ez + 1074)).
  { assert (Ex : 2 ^ (ex + 1074) = 2 ^ (ex - ez) * 2 ^ (ez + 1074)).
    { rewrite <- Z.pow_add_r by (subst ez; lia). f_equal. lia. }
    assert (Ey : 2 ^ (ey + 1074) = 2 ^ (ey - ez) * 2 ^ (ez + 1074)).
    { rewrite <- Z.pow_add_r by (subst ez; lia). f_equal. lia. }
    unfold ordZ, D. rewrite Ex, Ey.
    destruct sx, sy; unfold cond_Zopp; ring. }
  assert (Hp : 0 < 2 ^ (ez + 1074)) by (apply Z.pow_pos_nonneg; subst ez; lia).
  unfold binary_normalize.
  destruct D as [|p|p] eqn:ED.
  - symmetry. apply Z.ltb_ge. lia.
  - rewrite (SFltb_zero_signed false) by (apply binary_round_sign; subst ez; lia).
    symmetry. apply Z.ltb_lt. nia.
  - rewrite (SFltb_zero_signed true) by (apply binary_round_sign; subst ez; lia).
    symmetry. apply Z.ltb_ge. nia.
Qed.

Lemma SFcompare_refl (x : spec_float) :
  valid_binary x = true -> x <> S754_nan -> SFcompare x x = Some Eq.
Proof.
  intros V N. rewrite SFcompare_ordZ by assumption. now rewrite Z.compare_refl.
Qed.

Lemma is_nan_spec (x : float) : is_nan x = true <-> Prim2SF x = S754_nan.
Proof.
  unfold is_nan. rewrite FloatAxioms.eqb_spec. unfold SFeqb. split.
  - intros H. destruct (Prim2SF x) eqn:E; try reflexivity; exfalso.
    all: rewrite SFcompare_refl in H;
      [discriminate | rewrite <- E; apply Prim2SF_valid | discriminate].
  - intros ->. reflexivity.
Qed.

Lemma is_nan_false (x : float) : is_nan x = false <-> Prim2SF x <> S754_nan.
Proof.
  rewrite <- is_nan_spec. destruct (is_nan x); split; congruence.
Qed.

Lemma is_nan_eq (x : float) : is_nan x = true -> x = nan.
Proof.
  intros H. apply is_nan_spec in H. apply Prim2SF_inj. now rewrite H.
Qed.

Lemma compare_ordF (x y : float) :
  is_nan x = false -> is_nan y = false ->
  SFcompare (Prim2SF x) (Prim2SF y) = Some (ordF x ?= ordF y).
Proof.
  intros Hx Hy. apply SFcompare_ordZ;
    auto using Prim2SF_valid; now apply is_nan_false.
Qed.

Lemma ltb_ordF (x y : float) :
  is_nan x = false -> is_nan y = false -> (x <? y)%float = (ordF x <? ordF y).
Proof.
  intros Hx Hy. rewrite FloatAxioms.ltb_spec. unfold SFltb. now rewrite compare_ordF.
Qed.

Lemma leb_ordF (x y : float) :
  is_nan x = false -> is_nan y = false -> (x <=? y)%float = (ordF x <=? ordF y).
Proof.
  intros Hx Hy. rewrite FloatAxioms.leb_spec. unfold SFleb, Z.leb. rewrite compare_ordF by assumption.
  destruct (ordF x ?= ordF y); reflexivity.
Qed.

Lemma eqb_ordF (x y : float) :
  is_nan x = false -> is_nan y = false -> (x =? y)%float = (ordF x =? ordF y).
Proof.
  intros Hx Hy. rewrite FloatAxioms.eqb_spec. unfold SFeqb.
  rewrite compare_ordF by assumption.
  destruct (Z.compare_spec (ordF x) (ordF y)) as [E|L|G]; symmetry.
  - now apply Z.eqb_eq.
  - apply Z.eqb_neq. lia.
  - apply Z.eqb_neq. lia.
Qed.

Lemma sub_gt0 (a b : float) :
  is_nan a = false -> is_nan b = false ->
  (0 <? a - b)%float = (ordF b <? ordF a).
Proof.
  intros Ha Hb. rewrite FloatAxioms.ltb_spec, FloatAxioms.sub_spec.
  change (Prim2SF 0) with (S754_zero false).
  apply SFsub_sign; auto using Prim2SF_valid; now apply is_nan_false.
Qed.

Lemma ordF_eq_nonzero (x y : float) :
  is_nan x = false -> is_nan y = false ->
  ordF x = ordF y -> ordF x <> 0 -> x = y.
Proof.
  intros Hx Hy E Nz. apply Prim2SF_inj.
  apply is_nan_false in Hx, Hy.
  pose proof (Prim2SF_valid x) as Vx. pose proof (Prim2SF_valid y) as Vy.
  unfold ordF in *.
  pose proof (SFcompare_ordZ _ _ Vx Vy Hx Hy) as C.
  rewrite E, Z.compare_refl in C.
  pose proof beyondFinite_pos as Hinf.
  destruct (Prim2SF x) as [sx|sx| |sx mx ex]; [simpl in Nz; lia| |congruence|];
  destruct (Prim2SF y) as [sy|sy| |sy my ey]; try congruence.
  all: try (simpl in Vx; pose proof (finite_bounds _ _ Vx) as Bx).
  all: try (simpl in Vy; pose proof (finite_bounds _ _ Vy) as By).
  all: unfold ordZ in E; try (destruct sx); try (destruct sy);
       unfold cond_Zopp in E; try lia; try reflexivity.
  all: simpl in C; destruct (Z.compare_spec ex ey) as [Ee|?|?]; try discriminate;
       subst ey; f_equal;
       assert (Em : Zpos mx = Zpos my) by nia; congruence.
Qed.

(** ** Hexadecimal round trip *)

Lemma byteRange_spec (n : Z) : 0 <= n <= 255 -> In n byteRange.
Proof.
  intros Hn. unfold byteRange.
  apply in_map_iff. exists (Z.to_nat n). split; [lia|].
  apply in_seq. lia.
Qed.

Lemma channelRoundTrips_all : forallb channelRoundTrips byteRange = true.
Proof. vm_compute. reflexivity. Qed.

Lemma channelHex_byte (n : Z) :
  0 <= n <= 255 ->
  exists c1 c2, channelHex (JS.ofZ n) = String c1 (String c2 EmptyString)
                /\ JS.parseInt16 c1 c2 = Some (JS.ofZ n).
Proof.
  intros Hn.
  pose proof channelRoundTrips_all as Hall.
  rewrite forallb_forall in Hall.
  specialize (Hall n (byteRange_spec n Hn)).
  unfold channelRoundTrips in Hall.
  destruct (channelHex (JS.ofZ n)) as [|c1 [|c2 [|c3 rest]]]; try discriminate.
  exists c1, c2. split; [reflexivity|].
  destruct (JS.parseInt16 c1 c2) as [v|]; [|discriminate].
  apply FloatAxioms.Leibniz.eqb_spec in Hall. now subst v.
Qed.

Lemma rgbToHex_unfold (r g b : float) :
  rgbToHex r g b
  = String "#"%char (channelHex r ++ channelHex g ++ channelHex b)%string.
Proof. reflexivity. Qed.

(** C4: for integer channels in [0,255], [hexToRgb (rgbToHex r g b)] succeeds
    and gives back exactly the triple [r], [g], [b]. *)
Theorem hexToRgb_rgbToHex (r g b : Z) :
  0 <= r <= 255 -> 0 <= g <= 255 -> 0 <= b <= 255 ->
  hexToRgb (rgbToHex (JS.ofZ r) (JS.ofZ g) (JS.ofZ b))
  = Some (mkRgb (JS.ofZ r) (JS.ofZ g) (JS.ofZ b)).
Proof.
  intros Hr Hg Hb.
  destruct (channelHex_byte r Hr) as (r1 & r2 & Er & Pr).
  destruct (channelHex_byte g Hg) as (g1 & g2 & Eg & Pg).
  destruct (channelHex_byte b Hb) as (b1 & b2 & Eb & Pb).
  rewrite rgbToHex_unfold, Er, Eg, Eb.
  unfold hexToRgb. cbv beta iota zeta delta [String.append].
  now rewrite Pr, Pg, Pb.
Qed.

Lemma hexToRgb_rgbToHex_witness :
  hexToRgb (rgbToHex (JS.ofZ 170) (JS.ofZ 187) (JS.ofZ 204))
  = Some (mkRgb (JS.ofZ 170) (JS.ofZ 187) (JS.ofZ 204)).
Proof. apply (hexToRgb_rgbToHex 170 187 204); lia. Defined.

(** ** Export as text *)

Lemma exportColors_run (st : state) :
  palette st <> [] ->
  exportColors st = (Normal tt, add_clipboard (JS.join ", " (palette st)) st).
Proof.
  intros Hne. unfold exportColors, bind, get, modify, ret.
  destruct (palette st) as [|c pal] eqn:E; [congruence|]. reflexivity.
Qed.

(** C8, as the script has it: for every non-empty palette, export-as-text
    hands to the clipboard the palette's hex strings as they are stored
    (lower case, as [rgbToHex] made them), joined by a comma and a space,
    and changes nothing else; the palette [#aabbcc, #112233] is exported as
    [#aabbcc, #112233]. *)
Theorem exportColors_joins_stored (st : state) :
  palette st <> [] ->
  exportColors st = (Normal tt, add_clipboard (JS.join ", " (palette st)) st)
  /\ clipboard (snd (exportColors (pageWith examplePalette)))
     = ["#aabbcc, #112233"]%string.
Proof.
  intros Hne. split; [now apply exportColors_run|].
  vm_compute. reflexivity.
Qed.

Lemma exportColors_joins_stored_witness :
  exportColors (pageWith examplePalette)
  = (Normal tt, add_clipboard (JS.join ", " (palette (pageWith examplePalette)))
                              (pageWith examplePalette))
  /\ clipboard (snd (exportColors (pageWith examplePalette)))
     = ["#aabbcc, #112233"]%string.
Proof.
  apply (exportColors_joins_stored (pageWith examplePalette)).
  vm_compute. discriminate.
Defined.

(** The exported text is not the upper-case one. *)
Lemma exportColors_not_uppercase :
  let st := pageWith examplePalette in
  palette st = examplePalette
  /\ clipboard (snd (exportColors st))
     <> [JS.join ", " (List.map JS.toUpperCase (palette st))]
  /\ clipboard (snd (exportColors st)) <> ["#AABBCC, #112233"]%string.
Proof. vm_compute. repeat split; discriminate. Qed.

(** ** Colour variations *)

Lemma Math_min_100 (x : float) : JS.Math_min 100 x = clampAbove100 x.
Proof.
  unfold JS.Math_min, clampAbove100.
  destruct (is_nan x) eqn:Nx.
  - apply is_nan_eq in Nx. subst x. reflexivity.
  - change (is_nan 100) with false. cbn [orb].
    change (get_sign 100) with false. cbv iota.
    rewrite !ltb_ordF, leb_ordF by (assumption || reflexivity).
    destruct (Z.ltb_spec (ordF 100) (ordF x)) as [L|G].
    + destruct (Z.leb_spec (ordF 100) (ordF x)); [reflexivity|lia].
    + destruct (Z.ltb_spec (ordF x) (ordF 100)) as [L'|G'].
      * destruct (Z.leb_spec (ordF 100) (ordF x)); [lia|reflexivity].
      * destruct (Z.leb_spec (ordF 100) (ordF x)); [|lia].
        apply ordF_eq_nonzero; try assumption; try reflexivity; try lia.
        assert (E : ordF x = ordF 100) by lia. rewrite E. vm_compute. discriminate.
Qed.

Lemma Math_max_0 (x : float) : JS.Math_max 0 x = clampBelow0 x.
Proof.
  unfold JS.Math_max, clampBelow0.
  destruct (is_nan x) eqn:Nx.
  - apply is_nan_eq in Nx. subst x. reflexivity.
  - change (is_nan 0) with false. cbn [orb].
    change (get_sign 0) with false. cbv iota.
    rewrite !ltb_ordF, leb_ordF by (assumption || reflexivity).
    change (ordF 0) with 0.
    destruct (Z.ltb_spec 0 (ordF x)), (Z.leb_spec (ordF x) 0); try lia; try reflexivity.
    destruct (Z.ltb_spec (ordF x) 0); reflexivity.
Qed.

Example createColorVariations_red :
  createColorVariations 255 0 0 4
  = ["#ff4d4d"; "#b30000"; "#d92626"; "#ff0000"]%string.
Proof. vm_compute. reflexivity. Qed.

(** ** Reading the heap *)

Lemma arr_insert (st : state) (a x : loc) (v : list string) :
  arr (set_heap (fun h => <[a := v]> h) st) x
  = if decide (x = a) then v else arr st x.
Proof.
  unfold arr. cbn [heap set_heap]. destruct (decide (x = a)) as [->|Hne].
  - now rewrite lookup_insert_eq.
  - now rewrite lookup_insert_ne by congruence.
Qed.

Lemma arr_insert_eq (st : state) (a : loc) (v : list string) :
  arr (set_heap (fun h => <[a := v]> h) st) a = v.
Proof. rewrite arr_insert. now destruct (decide (a = a)). Qed.

Lemma arr_insert_ne (st : state) (a x : loc) (v : list string) :
  x <> a -> arr (set_heap (fun h => <[a := v]> h) st) x = arr st x.
Proof. intros H. rewrite arr_insert. now destruct (decide (x = a)). Qed.

Lemma in_dom_insert (hp : gmap loc (list string)) (a x : loc) (v : list string) :
  x ∈ dom hp -> x ∈ dom (<[a := v]> hp).
Proof. intros H. apply dom_insert, elem_of_union. now right. Qed.

Lemma in_dom_insert_eq (hp : gmap loc (list string)) (a : loc) (v : list string) :
  a ∈ dom (<[a := v]> hp).
Proof. apply dom_insert, elem_of_union. left. now apply elem_of_singleton. Qed.

Lemma fresh_not_in (st : state) : fresh (dom (heap st)) ∉ dom (heap st).
Proof. apply is_fresh. Qed.

Lemma in_dom_not_fresh (st : state) (a : loc) :
  a ∈ dom (heap st) -> a <> fresh (dom (heap st)).
Proof. intros H ->. now apply (fresh_not_in st). Qed.

Lemma map_arr_insert (st : state) (a : loc) (v : list string) (u : list loc) :
  a ∉ u ->
  List.map (arr (set_heap (fun h => <[a := v]> h) st)) u = List.map (arr st) u.
Proof.
  intros H. apply map_ext_in. intros x Hx. apply arr_insert_ne.
  intros ->. apply H. now apply list_elem_of_In.
Qed.

(** ** [saveState] *)

Lemma saveState_run (st : state) : saveState st = (Normal tt, afterSave st).
Proof.
  unfold saveState, afterSave, bind, get, Array_slice, Array_read, Array_new,
    modify, updateUndoButton, ret.
  cbn.
  destruct (Z.of_nat (List.length (undoStack st ++ [fresh (dom (heap st))]))
            >? MAX_UNDO_STACK); reflexivity.
Qed.

Lemma afterSave_undoStack (st : state) :
  undoStack (afterSave st) = pushBounded (fresh (dom (heap st))) (undoStack st).
Proof.
  unfold afterSave, pushBounded. cbn.
  destruct (_ >? _); reflexivity.
Qed.

Lemma map_tail {A B : Type} (f : A -> B) (xs : list A) :
  List.map f (tl xs) = tl (List.map f xs).
Proof. now destruct xs. Qed.

Lemma pushBounded_map {A B : Type} (f : A -> B) (x : A) (stack : list A) :
  List.map f (pushBounded x stack) = pushBounded (f x) (List.map f stack).
Proof.
  unfold pushBounded. rewrite !length_app, length_map. cbn [List.length].
  destruct (_ >? _); [rewrite map_tail|]; now rewrite map_app.
Qed.

Lemma pushBounded_length {A : Type} (x : A) (stack : list A) :
  Z.of_nat (List.length stack) <= MAX_UNDO_STACK ->
  Z.of_nat (List.length (pushBounded x stack))
  = Z.min (Z.of_nat (List.length stack) + 1) MAX_UNDO_STACK.
Proof.
  unfold pushBounded, MAX_UNDO_STACK. intros H.
  destruct (Z.gtb_spec (Z.of_nat (List.length (stack ++ [x]))) 10) as [G|L];
    rewrite length_app in *; cbn [List.length] in *.
  - destruct stack as [|y stack]; cbn [List.length] in *; [lia|].
    cbn [app tl]. rewrite length_app. cbn [List.length]. lia.
  - lia.
Qed.

Lemma pushBounded_elem {A : Type} (x y : A) (stack : list A) :
  y ∈ pushBounded x stack -> y = x \/ y ∈ stack.
Proof.
  unfold pushBounded. intros H.
  assert (H' : y ∈ stack ++ [x]).
  { destruct (_ >? _); [|exact H].
    destruct (stack ++ [x]) as [|z rest]; [exact H|]. cbn [tl] in H.
    now apply list_elem_of_further. }
  apply elem_of_app in H' as [H'|H']; [now right|].
  apply list_elem_of_singleton in H'. now left.
Qed.

Lemma pushBounded_NoDup {A : Type} (x : A) (stack : list A) :
  NoDup stack -> x ∉ stack -> NoDup (pushBounded x stack).
Proof.
  intros Hnd Hx. unfold pushBounded.
  assert (H : NoDup (stack ++ [x])).
  { apply NoDup_app. split; [exact Hnd|]. split.
    - intros y Hy Hy'. apply list_elem_of_singleton in Hy'. now subst.
    - apply NoDup_singleton. }
  destruct (_ >? _); [|exact H].
  destruct (stack ++ [x]) as [|z rest]; [exact H|]. cbn [tl].
  now apply NoDup_cons in H as [_ H].
Qed.

Lemma afterSave_history (st : state) :
  wf st -> history (afterSave st) = pushBounded (palette st) (history st).
Proof.
  intros (Hc & Hu & Hnd).
  unfold history. rewrite afterSave_undoStack, pushBounded_map.
  change (arr (afterSave st))
    with (arr (set_heap (fun h => <[fresh (dom (heap st)) := palette st]> h) st)).
  rewrite arr_insert_eq. f_equal.
  apply map_arr_insert. intros Hin.
  rewrite Forall_forall in Hu. apply (fresh_not_in st), Hu, Hin.
Qed.

Lemma afterSave_palette (st : state) :
  wf st -> palette (afterSave st) = palette st.
Proof.
  intros (Hc & _). unfold palette.
  change (arr (afterSave st) (colors (afterSave st)))
    with (arr (set_heap (fun h => <[fresh (dom (heap st)) := arr st (colors st)]> h) st)
              (colors st)).
  apply arr_insert_ne. now apply in_dom_not_fresh.
Qed.

(** ** Steps that keep the history *)

Lemma paletteStep_refl (st : state) :
  colors st ∈ dom (heap st) -> paletteStep st st.
Proof. intros H. repeat split; auto. Qed.

Lemma paletteStep_trans (st1 st2 st3 : state) :
  paletteStep st1 st2 -> paletteStep st2 st3 -> paletteStep st1 st3.
Proof.
  intros (U1 & H1 & D1 & C1 & I1) (U2 & H2 & D2 & C2 & I2).
  assert (Hne : forall a, a ∈ dom (heap st1) -> a <> colors st1 -> a <> colors st2).
  { intros a Ha Hn. destruct C1 as [->|C1]; [exact Hn|]. intros ->. now apply C1. }
  repeat split.
  - congruence.
  - intros a Ha Hn. rewrite H2; auto.
  - auto.
  - destruct C2 as [->|C2]; [exact C1|]. right. intros Hin. apply C2. auto.
  - exact I2.
Qed.

Lemma paletteStep_history (st st' : state) :
  wf st -> paletteStep st st' -> history st' = history st.
Proof.
  intros (Hc & Hu & Hnd) (U & H & _). unfold history. rewrite U.
  apply map_ext_in. intros a Ha. apply list_elem_of_In in Ha.
  unfold arr. rewrite H; [reflexivity| |].
  - rewrite Forall_forall in Hu. auto.
  - apply NoDup_cons in Hnd as [Hn _]. intros ->. auto.
Qed.

Lemma paletteStep_wf (st st' : state) :
  wf st -> paletteStep st st' -> wf st'.
Proof.
  intros (Hc & Hu & Hnd) (U & H & D & C & I). repeat split.
  - exact I.
  - rewrite U. rewrite Forall_forall in *. auto.
  - rewrite U. apply NoDup_cons in Hnd as [Hn Hnd]. apply NoDup_cons. split; [|exact Hnd].
    destruct C as [->|C]; [exact Hn|]. intros Hin. apply C.
    rewrite Forall_forall in Hu. auto.
Qed.

Lemma paletteStep_inv (st st' : state) :
  inv st -> paletteStep st st' -> inv st'.
Proof.
  intros [W L] S. split; [eauto using paletteStep_wf|].
  destruct S as (-> & _). exact L.
Qed.

(** Editing the palette array in place. *)
Lemma paletteStep_write (st : state) (v : list string) :
  colors st ∈ dom (heap st) ->
  paletteStep st (set_heap (fun h => <[colors st := v]> h) st).
Proof.
  intros Hc. repeat split; cbn; auto.
  - intros a Ha Hn. now rewrite lookup_insert_ne by congruence.
  - intros a Ha. auto using in_dom_insert, in_dom_insert_eq.
  - auto using in_dom_insert, in_dom_insert_eq.
Qed.

(** Pointing [colors] at a new array. *)
Lemma paletteStep_replace (st : state) (v : list string) :
  paletteStep st (set_colors (fresh (dom (heap st)))
                    (set_heap (fun h => <[fresh (dom (heap st)) := v]> h) st)).
Proof.
  repeat split; cbn; auto.
  - intros a Ha Hn. rewrite lookup_insert_ne; [reflexivity|].
    intros <-. now apply (fresh_not_in st).
  - intros a Ha. auto using in_dom_insert, in_dom_insert_eq.
  - right. apply fresh_not_in.
  - auto using in_dom_insert, in_dom_insert_eq.
Qed.

(** A new array that no variable of the script refers to. *)
Lemma paletteStep_alloc (st : state) (v : list string) :
  colors st ∈ dom (heap st) ->
  paletteStep st (set_heap (fun h => <[fresh (dom (heap st)) := v]> h) st).
Proof.
  intros Hc. repeat split; cbn; auto.
  - intros a Ha Hn. rewrite lookup_insert_ne; [reflexivity|].
    intros <-. now apply (fresh_not_in st).
  - intros a Ha. auto using in_dom_insert, in_dom_insert_eq.
  - auto using in_dom_insert, in_dom_insert_eq.
Qed.

(** Fields of the page that are not arrays. *)
Lemma paletteStep_same (st st' : state) :
  heap st' = heap st -> colors st' = colors st -> undoStack st' = undoStack st ->
  colors st ∈ dom (heap st) -> paletteStep st st'.
Proof.
  intros Hh Hc Hu Hin. unfold paletteStep. rewrite Hh, Hc, Hu. repeat split; auto.
Qed.

Lemma paletteStep_heap (st st' : state) :
  colors st' = colors st -> undoStack st' = undoStack st ->
  colors st ∈ dom (heap st) ->
  (forall a, a ∈ dom (heap st) -> heap st' !! a = heap st !! a) ->
  paletteStep st st'.
Proof.
  intros Hc Hu Hin Hh.
  assert (Hd : forall a, a ∈ dom (heap st) -> a ∈ dom (heap st')).
  { intros a Ha. apply elem_of_dom. rewrite Hh by exact Ha. now apply elem_of_dom. }
  unfold paletteStep. rewrite Hc, Hu. repeat split; auto.
Qed.

(** ** [sortByHue] and [renderPalette] *)

Lemma sortByHue_run (a : loc) (st : state) :
  sortByHue a st =
  let copy := fresh (dom (heap st)) in
  let st1 := set_heap (fun h => <[copy := arr st a]> h) st in
  match sortWith hueCompare (arr st a) with
  | Normal sorted => (Normal copy, set_heap (fun h => <[copy := sorted]> h) st1)
  | Throw e => (Throw e, st1)
  end.
Proof.
  unfold sortByHue, Array_slice, Array_sort, Array_read, Array_new, Array_write,
    bind, lift, modify, ret.
  cbv zeta. rewrite arr_insert_eq.
  destruct (sortWith hueCompare (arr st a)); reflexivity.
Qed.

Lemma renderPalette_step (animateNew : bool) (st : state) :
  colors st ∈ dom (heap st) -> paletteStep st (snd (renderPalette animateNew st)).
Proof.
  intros Hc. unfold renderPalette, bind, get. rewrite sortByHue_run. cbv zeta.
  destruct (sortWith hueCompare (arr st (colors st))) as [sorted|e].
  - unfold Array_read, modify, updateUndoButton, ret. cbn.
    destruct (_ && _); cbn;
      (apply paletteStep_heap; cbn; auto; intros a Ha;
       rewrite !lookup_insert_ne by (apply not_eq_sym, in_dom_not_fresh, Ha);
       reflexivity).
  - cbn. apply paletteStep_heap; cbn; auto. intros a Ha.
    rewrite !lookup_insert_ne by (apply not_eq_sym, in_dom_not_fresh, Ha).
    reflexivity.
Qed.

(** [renderPalette] reads the palette and leaves it as it is. *)
Lemma renderPalette_palette (animateNew : bool) (st : state) :
  colors st ∈ dom (heap st) ->
  palette (snd (renderPalette animateNew st)) = palette st
  /\ colors (snd (renderPalette animateNew st)) = colors st
  /\ tasks (snd (renderPalette animateNew st)) = tasks st
  /\ notifications (snd (renderPalette animateNew st)) = notifications st.
Proof.
  intros Hc. unfold renderPalette, bind, get. rewrite sortByHue_run. cbv zeta.
  assert (Hne : colors st <> fresh (dom (heap st))) by now apply in_dom_not_fresh.
  destruct (sortWith hueCompare (arr st (colors st))) as [sorted|e].
  - unfold Array_read, modify, updateUndoButton, ret. cbn.
    destruct (_ && _); cbn; repeat split; unfold palette, arr; cbn;
      now rewrite !lookup_insert_ne by congruence.
  - cbn. repeat split. unfold palette, arr; cbn.
    now rewrite !lookup_insert_ne by congruence.
Qed.

(** ** The operations that change the palette *)

Lemma snd_bind_Normal {A B} (m : JSM A) (k : A -> JSM B) (st st1 : state) (a : A) :
  m st = (Normal a, st1) -> bind m k st = k a st1.
Proof. intros E. unfold bind. now rewrite E. Qed.

Lemma pickColorAtPoint_run (e : mouseEvent) (st : state) (img : image) :
  currentImage st = Some img ->
  (Z.of_nat (List.length (palette st)) >=? MAX_COLORS) = false ->
  outsideImage img (imagePoint st e) = false ->
  pickColorAtPoint e st
  = renderPalette true
      (set_heap (fun h => <[colors st := palette (afterSave st) ++ [pickedHex st e img]]> h)
                (afterSave st)).
Proof.
  intros Himg Hcap Hin. unfold pickColorAtPoint, bind at 1, get. cbn beta iota.
  rewrite Himg, Hcap.
  unfold pickedHex. unfold outsideImage, imagePoint in *.
  destruct (getCanvasCoords st e) as [canvasX canvasY].
  destruct (canvasToImageCoords st canvasX canvasY) as [imageX imageY].
  cbn [fst snd] in *. rewrite Hin.
  rewrite (snd_bind_Normal _ _ _ _ _ (saveState_run st)).
  reflexivity.
Qed.

Lemma pickColorAtPoint_step (e : mouseEvent) (st : state) :
  colors st ∈ dom (heap st) ->
  mutates (OpPick e) st = true ->
  paletteStep (afterSave st) (snd (pickColorAtPoint e st)).
Proof.
  intros Hc Hm. cbn [mutates] in Hm.
  destruct (currentImage st) as [img|] eqn:Himg; [|discriminate].
  apply andb_prop in Hm as [Hcap Hin]. apply negb_true_iff in Hcap, Hin.
  rewrite (pickColorAtPoint_run e st img Himg Hcap Hin).
  assert (Hc' : colors (afterSave st) ∈ dom (heap (afterSave st))).
  { cbn. auto using in_dom_insert, in_dom_insert_eq. }
  eapply paletteStep_trans.
  - apply (paletteStep_write (afterSave st)); exact Hc'.
  - apply renderPalette_step. cbn. auto using in_dom_insert, in_dom_insert_eq.
Qed.

Lemma removeColor_step (hex : string) (index : nat) (st : state) :
  colors st ∈ dom (heap st) ->
  mutates (OpRemove hex index) st = true ->
  paletteStep (afterSave st) (snd (removeColor hex index st)).
Proof.
  intros Hc Hm. cbn [mutates] in Hm.
  assert (Hc' : colors (afterSave st) ∈ dom (heap (afterSave st))).
  { cbn. auto using in_dom_insert, in_dom_insert_eq. }
  unfold removeColor, bind at 1, get. cbn beta iota.
  destruct (indexOf hex (palette st)) as [actualIndex|]; [|discriminate].
  rewrite (snd_bind_Normal _ _ _ _ _ (saveState_run st)).
  destruct (nth_error (blocks st) index) as [blockToRemove|].
  - cbn. now apply paletteStep_same.
  - unfold Array_splice1, Array_read, Array_write, bind, modify. cbn beta iota.
    eapply paletteStep_trans.
    + apply (paletteStep_write (afterSave st)); exact Hc'.
    + apply renderPalette_step. cbn. auto using in_dom_insert, in_dom_insert_eq.
Qed.

Lemma clearAll_step (st : state) :
  colors st ∈ dom (heap st) ->
  mutates OpClear st = true ->
  paletteStep (afterSave st) (snd (clearAll st)).
Proof.
  intros Hc Hm. cbn [mutates] in Hm.
  unfold clearAll, bind at 1, get. cbn beta iota.
  destruct (Nat.eqb (List.length (palette st)) 0); [discriminate|].
  rewrite (snd_bind_Normal _ _ _ _ _ (saveState_run st)).
  cbn. apply paletteStep_same; auto. cbn. auto using in_dom_insert, in_dom_insert_eq.
Qed.

Section Prefill.
Variable getPalette : image -> Z -> completion (list (float * float * float)).

Lemma Array_push_run (a : loc) (xs : list string) (st : state) :
  Array_push a xs st
  = (Normal tt, set_heap (fun h => <[a := arr st a ++ xs]> h) st).
Proof. reflexivity. Qed.

Lemma alert_step (st st' : state) (m : string) :
  paletteStep st st' -> paletteStep st (snd (alert m st')).
Proof. intros H. exact H. Qed.

Lemma prefillPaletteFromImage_step (img : image) (st : state) :
  colors st ∈ dom (heap st) ->
  paletteStep (afterSave st) (snd (prefillPaletteFromImage getPalette (Some img) st)).
Proof.
  intros Hc.
  assert (Hc' : colors (afterSave st) ∈ dom (heap (afterSave st))).
  { cbn. auto using in_dom_insert, in_dom_insert_eq. }
  unfold prefillPaletteFromImage, try_catch.
  rewrite (snd_bind_Normal _ _ _ _ _ (saveState_run st)).
  unfold bind at 1, lift.
  destruct (getPalette img 20) as [pal|err].
  - unfold Array_new, bind at 1. unfold modify, bind at 1.
    set (st2 := set_colors _ _).
    assert (S2 : paletteStep (afterSave st) st2) by apply paletteStep_replace.
    assert (S3 : paletteStep st2 (snd (renderPalette true st2))).
    { apply renderPalette_step. subst st2. cbn. auto using in_dom_insert_eq. }
    destruct (renderPalette true st2) as [[u|err] st3]; cbn [snd] in *;
      eauto using paletteStep_trans, alert_step.
  - apply alert_step. now apply paletteStep_refl.
Qed.

Lemma pushMainColors_run (mainPalette : list (float * float * float))
    (index : nat) (st : state) :
  colors st ∈ dom (heap st) ->
  exists st',
    pushMainColors mainPalette index st = (Normal tt, st')
    /\ paletteStep st st'
    /\ colors st' = colors st
    /\ palette st' = palette st ++ advancedColors mainPalette index.
Proof.
  revert index st. induction mainPalette as [|[[r g] b] rest IH]; intros index st Hc.
  - exists st. cbn. rewrite app_nil_r. auto using paletteStep_refl.
  - cbn [pushMainColors]. unfold bind at 1, get. cbn beta iota zeta.
    rewrite (snd_bind_Normal _ _ _ _ _ (Array_push_run _ _ _)).
    set (st1 := set_heap _ st).
    assert (Eif : (if Nat.eqb index 0
                   then Array_push (colors st) (createColorVariations r g b 4)
                   else Array_push (colors st) (createColorVariations r g b 3))
                  = Array_push (colors st)
                      (createColorVariations r g b (if Nat.eqb index 0 then 4 else 3)))
      by (destruct (Nat.eqb index 0); reflexivity).
    rewrite Eif. clear Eif.
    rewrite (snd_bind_Normal _ _ _ _ _ (Array_push_run _ _ _)).
    set (st2 := set_heap _ st1).
    assert (Hc1 : colors st1 ∈ dom (heap st1)).
    { subst st1. cbn. auto using in_dom_insert_eq. }
    assert (Hc2 : colors st2 ∈ dom (heap st2)).
    { subst st2. cbn. auto using in_dom_insert_eq. }
    destruct (IH (S index) st2 Hc2) as (st' & E & S & C & P).
    exists st'. rewrite E. split; [reflexivity|]. split; [|split].
    + eapply paletteStep_trans; [|exact S].
      eapply paletteStep_trans; [apply (paletteStep_write st), Hc|].
      apply (paletteStep_write st1), Hc1.
    + rewrite C. reflexivity.
    + rewrite P. cbn [advancedColors slotColors].
      unfold palette. subst st2. cbn [colors set_heap].
      change (colors st1) with (colors st).
      rewrite arr_insert_eq. subst st1. rewrite arr_insert_eq.
      rewrite <- !app_assoc. reflexivity.
Qed.

Lemma prefillAdvancedPaletteFromImage_step (img : image) (st : state) :
  colors st ∈ dom (heap st) ->
  paletteStep (afterSave st)
    (snd (prefillAdvancedPaletteFromImage getPalette (Some img) st)).
Proof.
  intros Hc.
  assert (Hc' : colors (afterSave st) ∈ dom (heap (afterSave st))).
  { cbn. auto using in_dom_insert, in_dom_insert_eq. }
  unfold prefillAdvancedPaletteFromImage, try_catch.
  rewrite (snd_bind_Normal _ _ _ _ _ (saveState_run st)).
  unfold bind at 1, lift.
  destruct (getPalette img 5) as [mainPalette|err].
  - unfold Array_new, bind at 1. unfold modify, bind at 1.
    set (st2 := set_colors _ _).
    assert (S2 : paletteStep (afterSave st) st2) by apply paletteStep_replace.
    assert (Hc2 : colors st2 ∈ dom (heap st2)).
    { subst st2. cbn. auto using in_dom_insert_eq. }
    destruct (pushMainColors_run mainPalette 0 st2 Hc2) as (st3 & E & S3 & C3 & _).
    rewrite (snd_bind_Normal _ _ _ _ _ E).
    assert (S4 : paletteStep st3 (snd (renderPalette true st3))).
    { apply renderPalette_step. now destruct S3 as (_ & _ & _ & _ & I). }
    destruct (renderPalette true st3) as [[u|err] st4]; cbn [snd] in *;
      eauto using paletteStep_trans, alert_step.
  - apply alert_step. now apply paletteStep_refl.
Qed.
End Prefill.

Section Runs.
Variable getPalette : image -> Z -> completion (list (float * float * float)).

Lemma fire_run (n : nat) (st : state) (t : task) :
  nth_error (tasks st) n = Some t ->
  fire getPalette n st
  = runTask getPalette t
      (set_tasks (firstn n (tasks st) ++ skipn (S n) (tasks st)) st).
Proof.
  intros E. unfold fire, bind at 1, get. cbn beta iota. now rewrite E.
Qed.

Lemma runTask_quiet_step (t : task) (st : state) :
  colors st ∈ dom (heap st) ->
  match t with CropLoadTask _ => False | _ => True end ->
  paletteStep st (snd (runTask getPalette t st)).
Proof.
  intros Hc Ht. destruct t as [actualIndex| |croppedImg]; [| |contradiction].
  - unfold runTask, bind at 1, get. cbn beta iota.
    unfold Array_splice1, Array_read, Array_write, bind, modify. cbn beta iota.
    eapply paletteStep_trans; [apply (paletteStep_write st), Hc|].
    apply renderPalette_step. cbn. auto using in_dom_insert_eq.
  - unfold runTask, Array_new, bind at 1. unfold modify, bind at 1.
    eapply paletteStep_trans; [apply paletteStep_replace|].
    apply renderPalette_step. cbn. auto using in_dom_insert_eq.
Qed.

Lemma mutating_step (op : operation) (st : state) :
  colors st ∈ dom (heap st) ->
  mutates op st = true ->
  paletteStep (afterSave st) (snd (perform getPalette op st)).
Proof.
  intros Hc Hm. destruct op as [e| | |hex index| |n|]; cbn [perform].
  - now apply pickColorAtPoint_step.
  - cbn [mutates] in Hm. unfold prefillPalette, bind, get. cbn beta iota.
    destruct (currentImage st) as [img|]; [|discriminate].
    now apply prefillPaletteFromImage_step.
  - cbn [mutates] in Hm. unfold prefillAdvancedPalette, bind, get. cbn beta iota.
    destruct (currentImage st) as [img|]; [|discriminate].
    now apply prefillAdvancedPaletteFromImage_step.
  - now apply removeColor_step.
  - now apply clearAll_step.
  - cbn [mutates] in Hm.
    destruct (nth_error (tasks st) n) as [t|] eqn:E; [|discriminate].
    rewrite (fire_run n st t E).
    destruct t as [actualIndex| |croppedImg]; try discriminate.
    set (st1 := set_tasks _ st).
    unfold runTask, bind at 1, get. cbn beta iota.
    destruct (cropPrefillMode st1) as [[|]|].
    + apply (prefillPaletteFromImage_step getPalette croppedImg st1), Hc.
    + apply (prefillAdvancedPaletteFromImage_step getPalette croppedImg st1), Hc.
    + apply (prefillAdvancedPaletteFromImage_step getPalette croppedImg st1), Hc.
  - discriminate.
Qed.

Lemma nonmutating_step (op : operation) (st : state) :
  colors st ∈ dom (heap st) ->
  isUndo op = false ->
  mutates op st = false ->
  paletteStep st (snd (perform getPalette op st)).
Proof.
  intros Hc Hu Hm. destruct op as [e| | |hex index| |n|]; cbn [perform];
    cbn [mutates] in Hm; try discriminate.
  - unfold pickColorAtPoint, bind at 1, get. cbn beta iota.
    destruct (currentImage st) as [img|]; [|now apply paletteStep_refl].
    destruct (Z.of_nat (List.length (palette st)) >=? MAX_COLORS);
      [now apply paletteStep_refl|].
    cbn [negb andb] in Hm. apply negb_false_iff in Hm.
    unfold outsideImage, imagePoint in Hm.
    destruct (getCanvasCoords st e) as [canvasX canvasY].
    destruct (canvasToImageCoords st canvasX canvasY) as [imageX imageY].
    cbn [fst snd] in Hm. rewrite Hm. now apply paletteStep_refl.
  - unfold prefillPalette, bind, get. cbn beta iota.
    destruct (currentImage st); [discriminate|]. now apply paletteStep_refl.
  - unfold prefillAdvancedPalette, bind, get. cbn beta iota.
    destruct (currentImage st); [discriminate|]. now apply paletteStep_refl.
  - unfold removeColor, bind at 1, get. cbn beta iota.
    destruct (indexOf hex (palette st)); [discriminate|]. now apply paletteStep_refl.
  - unfold clearAll, bind at 1, get. cbn beta iota.
    destruct (Nat.eqb (List.length (palette st)) 0); [|discriminate].
    now apply paletteStep_refl.
  - destruct (nth_error (tasks st) n) as [t|] eqn:E.
    + rewrite (fire_run n st t E).
      apply (runTask_quiet_step t (set_tasks _ st)); [exact Hc|].
      now destruct t.
    + unfold fire, bind at 1, get. cbn beta iota. rewrite E.
      now apply paletteStep_refl.
Qed.

Lemma afterSave_wf (st : state) : wf st -> wf (afterSave st).
Proof.
  intros (Hc & Hu & Hnd). unfold wf.
  rewrite afterSave_undoStack.
  change (colors (afterSave st)) with (colors st).
  change (heap (afterSave st)) with (<[fresh (dom (heap st)) := palette st]> (heap st)).
  apply NoDup_cons in Hnd as [Hn Hnd]. rewrite Forall_forall in Hu.
  split; [auto using in_dom_insert|]. split.
  - apply Forall_forall. intros a Ha.
    apply pushBounded_elem in Ha as [->|Ha]; auto using in_dom_insert, in_dom_insert_eq.
  - apply NoDup_cons. split.
    + intros Ha. apply pushBounded_elem in Ha as [E|Ha]; [|auto].
      now apply (in_dom_not_fresh st (colors st)).
    + apply pushBounded_NoDup; [exact Hnd|]. intros Ha. now apply (fresh_not_in st), Hu.
Qed.

Lemma afterSave_inv (st : state) : inv st -> inv (afterSave st).
Proof.
  intros [W L]. split; [now apply afterSave_wf|].
  rewrite afterSave_undoStack, pushBounded_length by exact L. lia.
Qed.

Lemma mutating_history (op : operation) (st : state) :
  inv st -> mutates op st = true ->
  history (snd (perform getPalette op st)) = pushBounded (palette st) (history st)
  /\ inv (snd (perform getPalette op st))
  /\ undoStack (snd (perform getPalette op st))
     = pushBounded (fresh (dom (heap st))) (undoStack st).
Proof.
  intros I Hm. pose proof I as [W L].
  pose proof (mutating_step op st (proj1 W) Hm) as S.
  split; [|split].
  - rewrite (paletteStep_history _ _ (afterSave_wf st W) S).
    now apply afterSave_history.
  - eapply paletteStep_inv; [|exact S]. now apply afterSave_inv.
  - destruct S as (-> & _). apply afterSave_undoStack.
Qed.

Lemma nonmutating_history (op : operation) (st : state) :
  inv st -> isUndo op = false -> mutates op st = false ->
  history (snd (perform getPalette op st)) = history st
  /\ inv (snd (perform getPalette op st))
  /\ undoStack (snd (perform getPalette op st)) = undoStack st.
Proof.
  intros I Hu Hm. pose proof I as [W L].
  pose proof (nonmutating_step op st (proj1 W) Hu Hm) as S.
  split; [|split].
  - now apply paletteStep_history.
  - eapply paletteStep_inv; eauto.
  - now destruct S as (-> & _).
Qed.
End Runs.

(** ** Undo *)

Lemma undo_empty (st : state) : undoStack st = [] -> undo st = (Normal tt, st).
Proof. intros E. unfold undo, bind, get. now rewrite E. Qed.

Lemma undo_run (st : state) (below : list loc) (top : loc) :
  undoStack st = below ++ [top] ->
  undo st
  = bind (renderPalette true) (fun _ => showNotification "Undo successful")
      (set_undoDisabled (Nat.eqb (List.length below) 0)
         (set_colors top (set_undoStack below st))).
Proof.
  intros E. unfold undo, bind at 1, get. cbn beta iota.
  rewrite E, rev_app_distr. cbn [rev app]. rewrite rev_involutive. reflexivity.
Qed.

Lemma undo_step (st : state) (below : list loc) (top : loc) :
  wf st -> undoStack st = below ++ [top] ->
  undoStack (snd (undo st)) = below
  /\ wf (snd (undo st))
  /\ palette (snd (undo st)) = arr st top
  /\ history (snd (undo st)) = List.map (arr st) below.
Proof.
  intros (Hc & Hu & Hnd) E. rewrite (undo_run st below top E).
  set (st2 := set_undoDisabled _ _).
  rewrite E in Hu, Hnd. apply Forall_app in Hu as [Hb Ht].
  apply Forall_cons in Ht as [Ht _].
  assert (W2 : wf st2).
  { subst st2. unfold wf. cbn. split; [exact Ht|]. split; [exact Hb|].
    apply NoDup_cons in Hnd as [_ Hnd]. apply NoDup_app in Hnd as (N1 & N2 & _).
    apply NoDup_cons. split; [|exact N1].
    intros Hin. apply (N2 top Hin). apply list_elem_of_singleton. reflexivity. }
  pose proof (renderPalette_step true st2 (proj1 W2)) as S.
  pose proof (renderPalette_palette true st2 (proj1 W2)) as (P & _).
  pose proof (paletteStep_history _ _ W2 S) as Hh.
  pose proof (paletteStep_wf _ _ W2 S) as W3.
  assert (U : undoStack (snd (renderPalette true st2)) = below) by now destruct S as (-> & _).
  unfold bind.
  destruct (renderPalette true st2) as [[u|err] st3]; cbn [snd] in *; auto.
Qed.

Lemma list_last_case {A : Type} (xs : list A) :
  xs = [] \/ exists below top, xs = below ++ [top].
Proof.
  destruct xs as [|x xs] using rev_ind; [now left|right; eauto].
Qed.

Lemma undo_inv (st : state) :
  inv st ->
  inv (snd (undo st))
  /\ List.length (undoStack (snd (undo st))) = Nat.pred (List.length (undoStack st)).
Proof.
  intros [W L]. destruct (list_last_case (undoStack st)) as [E|(below & top & E)].
  - rewrite (undo_empty st E). cbn [snd]. rewrite E. split; [split|]; auto.
  - destruct (undo_step st below top W E) as (U & W' & _).
    rewrite U, E, length_app. cbn [List.length]. split; [split; [exact W'|]|lia].
    rewrite U. rewrite E, length_app in L. lia.
Qed.


Section History.
Variable getPalette : image -> Z -> completion (list (float * float * float)).


Lemma perform_inv (op : operation) (st : state) :
  inv st -> inv (snd (perform getPalette op st)).
Proof.
  intros I. destruct (mutates op st) eqn:Hm.
  - now destruct (mutating_history getPalette op st I Hm) as (_ & I' & _).
  - destruct (isUndo op) eqn:Hu.
    + destruct op; try discriminate. now apply undo_inv.
    + now destruct (nonmutating_history getPalette op st I Hu Hm) as (_ & I' & _).
Qed.

Lemma performAll_inv (ops : list operation) (st : state) :
  inv st -> inv (performAll getPalette ops st).
Proof.
  revert st. induction ops as [|op ops IH]; intros st I; [exact I|].
  cbn [performAll]. apply IH, perform_inv, I.
Qed.

End History.

Lemma pageWith_inv (pal : list string) : inv (pageWith pal).
Proof.
  split; [|cbn; unfold MAX_UNDO_STACK; lia].
  split; [|split].
  - cbn. apply elem_of_dom. exists pal. apply lookup_singleton_eq.
  - constructor.
  - apply NoDup_singleton.
Qed.

(** ** Picking outside the image or into a full palette *)

(** C3: [pickColorAtPoint] changes nothing, and throws nothing, when the
    image-space point of the click is outside the image, and also when the
    palette already has 21 colours, wherever the click is. *)
Theorem pickColorAtPoint_noop (e : mouseEvent) (st : state) :
  (exists img, currentImage st = Some img
               /\ outsideImage img (imagePoint st e) = true)
  \/ MAX_COLORS <= Z.of_nat (List.length (palette st)) ->
  pickColorAtPoint e st = (Normal tt, st).
Proof.
  intros H. unfold pickColorAtPoint, bind, get.
  destruct H as [(img & Himg & Hout)|Hfull].
  - rewrite Himg.
    destruct (Z.of_nat (List.length (palette st)) >=? MAX_COLORS); [reflexivity|].
    unfold outsideImage, imagePoint in Hout.
    destruct (getCanvasCoords st e) as [canvasX canvasY].
    destruct (canvasToImageCoords st canvasX canvasY) as [imageX imageY].
    cbn [fst snd] in Hout. now rewrite Hout.
  - destruct (currentImage st) as [img|]; [|reflexivity].
    destruct (Z.geb_spec (Z.of_nat (List.length (palette st))) MAX_COLORS);
      [reflexivity|lia].
Qed.

Lemma pickColorAtPoint_noop_witness :
  pickColorAtPoint (mkMouse 50 50 0) (pageShowing redImage fullPalette)
  = (Normal tt, pageShowing redImage fullPalette).
Proof.
  apply (pickColorAtPoint_noop (mkMouse 50 50 0) (pageShowing redImage fullPalette)).
  right. vm_compute. discriminate.
Defined.

Example pickColorAtPoint_outside :
  outsideImage redImage (imagePoint (pageShowing redImage examplePalette) (mkMouse 100 50 0)) = true
  /\ pickColorAtPoint (mkMouse 100 50 0) (pageShowing redImage examplePalette)
     = (Normal tt, pageShowing redImage examplePalette).
Proof. split; vm_compute; reflexivity. Qed.

Example pickColorAtPoint_inside :
  palette (snd (pickColorAtPoint (mkMouse 50 50 0) (pageShowing redImage examplePalette)))
  = (examplePalette ++ ["#ff0000"%string]).
Proof. vm_compute. reflexivity. Qed.

(** ** Advanced prefill *)

Lemma createColorVariations_length (r g b : float) (count : Z) :
  count = 3 \/ count = 4 ->
  List.length (createColorVariations r g b count) = Z.to_nat count.
Proof. intros [-> | ->]; reflexivity. Qed.

Lemma withVariations_length (count : Z) (c : float * float * float) :
  count = 3 \/ count = 4 ->
  List.length (withVariations count c) = S (Z.to_nat count).
Proof.
  intros H. destruct c as [[r g] b]. cbn [withVariations List.length].
  now rewrite createColorVariations_length.
Qed.

(** C5: when the extractor answers five main colours, the advanced prefill
    makes [colors] a new array of exactly 21 colours: the first main colour
    and its 4 variations, then each of the other four with its 3 variations,
    in the extractor's order. *)
Theorem prefillAdvanced_21
    (getPalette : image -> Z -> completion (list (float * float * float)))
    (img : image) (st : state) (c0 c1 c2 c3 c4 : float * float * float) :
  getPalette img 5 = Normal [c0; c1; c2; c3; c4] ->
  let st' := snd (prefillAdvancedPaletteFromImage getPalette (Some img) st) in
  palette st'
  = withVariations 4 c0 ++ withVariations 3 c1 ++ withVariations 3 c2
    ++ withVariations 3 c3 ++ withVariations 3 c4
  /\ List.length (palette st') = 21%nat
  /\ colors st' ∉ dom (heap st).
Proof.
  intros Hpal st'.
  assert (P : exists s, st' = s
              /\ palette s
                 = withVariations 4 c0 ++ withVariations 3 c1 ++ withVariations 3 c2
                   ++ withVariations 3 c3 ++ withVariations 3 c4
              /\ colors s = fresh (dom (heap (afterSave st)))).
  { subst st'. unfold prefillAdvancedPaletteFromImage, try_catch.
    rewrite (snd_bind_Normal _ _ _ _ _ (saveState_run st)).
    unfold bind at 1, lift. rewrite Hpal.
    unfold Array_new, bind at 1. unfold modify, bind at 1.
    set (st2 := set_colors _ _).
    assert (Hc2 : colors st2 ∈ dom (heap st2)).
    { subst st2. cbn. auto using in_dom_insert_eq. }
    assert (P2 : palette st2 = []).
    { subst st2. unfold palette. cbn [colors set_colors]. apply arr_insert_eq. }
    assert (C2 : colors st2 = fresh (dom (heap (afterSave st)))) by reflexivity.
    destruct (pushMainColors_run [c0; c1; c2; c3; c4] 0 st2 Hc2)
      as (st3 & E & S3 & C3 & P3).
    rewrite (snd_bind_Normal _ _ _ _ _ E).
    assert (Hc3 : colors st3 ∈ dom (heap st3)) by now destruct S3 as (_ & _ & _ & _ & I).
    destruct (renderPalette_palette true st3 Hc3) as (P4 & C4 & _).
    rewrite P2 in P3. cbn [app advancedColors] in P3. unfold slotColors in P3.
    cbn [Nat.eqb] in P3. rewrite app_nil_r in P3.
    destruct (renderPalette true st3) as [[u|err] st4]; cbn [snd] in *.
    - exists st4. repeat split; congruence.
    - exists (add_alert msgExtractFailed st4). split; [reflexivity|].
      change (palette (add_alert msgExtractFailed st4)) with (palette st4).
      change (colors (add_alert msgExtractFailed st4)) with (colors st4).
      split; congruence. }
  destruct P as (s & -> & P & C).
  split; [exact P|]. split.
  - rewrite P, !length_app, !withVariations_length by auto. reflexivity.
  - rewrite C. intros Hin. apply (fresh_not_in (afterSave st)).
    cbn. now apply in_dom_insert.
Qed.

Lemma prefillAdvanced_21_witness :
  List.length
    (palette (snd (prefillAdvancedPaletteFromImage fixedExtractor (Some redImage)
                     (pageShowing redImage examplePalette))))
  = 21%nat.
Proof.
  destruct (prefillAdvanced_21 fixedExtractor redImage
              (pageShowing redImage examplePalette)
              (255, 0, 0)%float (0, 255, 0)%float (0, 0, 255)%float
              (10, 200, 30)%float (128, 128, 128)%float eq_refl)
    as (_ & H & _).
  exact H.
Defined.

Example prefillAdvanced_fixed :
  palette (snd (prefillAdvancedPaletteFromImage fixedExtractor (Some redImage)
                  (pageShowing redImage examplePalette)))
  = ["#ff0000"; "#ff4d4d"; "#b30000"; "#d92626"; "#ff0000";
     "#00ff00"; "#4dff4d"; "#00b300"; "#26d926";
     "#0000ff"; "#4d4dff"; "#0000b3"; "#2626d9";
     "#0ac81e"; "#2af43f"; "#067f13"; "#29a937";
     "#808080"; "#a6a6a6"; "#5a5a5a"; "#808080"]%string.
Proof. vm_compute. reflexivity. Qed.

(** ** A selection that is too small *)

(** C7: when the selection, taken to image space and clamped, is narrower or
    lower than 10 pixels, [executeCropPrefill] shows the message that the
    selection is too small and does nothing else: no extraction is left to
    run, and the palette and the history are as before; the mouse-up handler
    then leaves crop mode. *)
Theorem executeCropPrefill_too_small (e : mouseEvent) (st : state)
    (img : image) (startX : float) :
  currentImage st = Some img ->
  cropStartX st = Some startX ->
  selectionTooSmall st img startX = true ->
  executeCropPrefill st = (Normal tt, add_notification msgTooSmall st)
  /\ palette (snd (executeCropPrefill st)) = palette st
  /\ history (snd (executeCropPrefill st)) = history st
  /\ tasks (snd (executeCropPrefill st)) = tasks st
  /\ (isCropMode st = true ->
      handleMouseUp e st
      = (Normal tt, set_crop false None (add_notification msgTooSmall st))).
Proof.
  intros Himg Hstart Hsmall.
  assert (E : executeCropPrefill st = (Normal tt, add_notification msgTooSmall st)).
  { unfold executeCropPrefill, bind, get. rewrite Himg, Hstart.
    unfold selectionTooSmall in Hsmall.
    destruct (cropRectangle st img startX) as [[[imgX1 imgY1] cropWidth] cropHeight].
    now rewrite Hsmall. }
  rewrite E. cbn [snd]. repeat split.
  intros Hmode. unfold handleMouseUp, bind at 1, get. cbn beta iota.
  rewrite Hmode, Hstart. unfold bind. now rewrite E.
Qed.

Lemma executeCropPrefill_too_small_witness :
  executeCropPrefill narrowSelection
  = (Normal tt, add_notification msgTooSmall narrowSelection).
Proof.
  destruct (executeCropPrefill_too_small (mkMouse 15 60 0) narrowSelection
              redImage 10%float eq_refl eq_refl) as [H _].
  - vm_compute. reflexivity.
  - exact H.
Defined.

Example narrowSelection_width :
  cropRectangle narrowSelection redImage 10 = (10, 10, 5, 50)%float.
Proof. vm_compute. reflexivity. Qed.

(** ** Sorting: the stable arrangement by a key *)

Section SortSpec.
Context {A : Type} (comparefn : A -> A -> completion float).
Context (key : A -> Z) (good : A -> Prop).

(** On the elements at hand the comparator does not throw and its sign is
    the order of the keys. *)
Hypothesis comparefn_key :
  forall x y, good x -> good y ->
    exists v, comparefn x y = Normal v /\ JS.gt v 0 = (key y <? key x).

Definition keyLe (x y : A) : Prop := key x <= key y.

Definition sameKey (k : Z) (x : A) : bool := key x =? k.

Lemma sortInsert_spec (x : A) (sorted : list A) :
  good x -> Forall good sorted -> StronglySorted keyLe sorted ->
  exists sorted',
    sortInsert comparefn x sorted = Normal sorted'
    /\ Permutation (x :: sorted) sorted'
    /\ StronglySorted keyLe sorted'
    /\ forall k, List.filter (sameKey k) sorted' = List.filter (sameKey k) (x :: sorted).
Proof.
  intros Gx Gs Ss. induction sorted as [|y rest IH].
  - exists [x]. cbn. repeat split; auto. repeat constructor.
  - apply Forall_cons in Gs as [Gy Gr].
    apply StronglySorted_inv in Ss as [Sr Hy].
    destruct (comparefn_key x y Gx Gy) as (v & Ev & Hv).
    cbn [sortInsert]. rewrite Ev. cbn [cbind]. rewrite Hv.
    destruct (Z.ltb_spec (key y) (key x)) as [Hlt|Hge].
    + destruct (IH Gr Sr) as (s' & Es & Ps & Ss' & Fs). rewrite Es. cbn [cbind].
      exists (y :: s'). split; [reflexivity|]. split; [|split].
      * rewrite perm_swap. now apply perm_skip.
      * constructor; [exact Ss'|].
        apply (Permutation_Forall Ps). constructor; [unfold keyLe; lia|exact Hy].
      * intros k. cbn [List.filter]. rewrite Fs. cbn [List.filter]. unfold sameKey.
        destruct (Z.eqb_spec (key y) k), (Z.eqb_spec (key x) k); try reflexivity. lia.
    + exists (x :: y :: rest). split; [reflexivity|]. split; [reflexivity|].
      split; [|reflexivity].
      constructor; [constructor; assumption|].
      constructor; [exact Hge|].
      apply (List.Forall_impl (P := keyLe y)); [|exact Hy].
      intros z Hz. unfold keyLe in *. lia.
Qed.

Lemma sortWith_spec (l : list A) :
  Forall good l ->
  exists l',
    sortWith comparefn l = Normal l'
    /\ Permutation l l'
    /\ StronglySorted keyLe l'
    /\ forall k, List.filter (sameKey k) l' = List.filter (sameKey k) l.
Proof.
  intros Gl. induction l as [|x l IH].
  - exists []. cbn. repeat split; auto. constructor.
  - apply Forall_cons in Gl as [Gx Gl].
    destruct (IH Gl) as (l1 & E1 & P1 & S1 & F1).
    destruct (sortInsert_spec x l1 Gx (Permutation_Forall P1 Gl) S1)
      as (l2 & E2 & P2 & S2 & F2).
    exists l2. cbn [sortWith]. rewrite E1. cbn [cbind]. rewrite E2.
    split; [reflexivity|]. split; [|split].
    + rewrite <- P2. now apply perm_skip.
    + exact S2.
    + intros k. rewrite F2. cbn [List.filter]. now rewrite F1.
Qed.
End SortSpec.

(** ** The hue of a colour *)

Lemma hueDefined_all :
  forallb (fun r => forallb (fun g => forallb (hueDefined r g) byteFloats) byteFloats)
          byteFloats = true.
Proof. vm_compute. reflexivity. Qed.

Lemma byteFloats_eq : byteFloats = List.map JS.ofZ byteRange.
Proof. vm_compute. reflexivity. Qed.

Lemma byteFloats_spec (n : Z) : 0 <= n <= 255 -> In (JS.ofZ n) byteFloats.
Proof. intros Hn. rewrite byteFloats_eq. apply in_map, byteRange_spec, Hn. Qed.

Lemma hue_not_nan (r g b : Z) :
  0 <= r <= 255 -> 0 <= g <= 255 -> 0 <= b <= 255 ->
  is_nan (h (rgbToHsl (JS.ofZ r) (JS.ofZ g) (JS.ofZ b))) = false.
Proof.
  intros Hr Hg Hb. pose proof hueDefined_all as H.
  rewrite forallb_forall in H. specialize (H _ (byteFloats_spec r Hr)).
  rewrite forallb_forall in H. specialize (H _ (byteFloats_spec g Hg)).
  rewrite forallb_forall in H. specialize (H _ (byteFloats_spec b Hb)).
  unfold hueDefined in H. apply negb_true_iff in H. exact H.
Qed.

Lemma hexVal_range (c : ascii) (v : Z) : JS.hexVal c = Some v -> 0 <= v <= 15.
Proof.
  unfold JS.hexVal. set (n := Z.of_N (N_of_ascii c)).
  destruct (Z.leb_spec 48 n), (Z.leb_spec n 57); cbn [andb];
    [intros [= <-]; lia| | |].
  all: destruct (Z.leb_spec 97 n), (Z.leb_spec n 102); cbn [andb];
    try (intros [= <-]; lia).
  all: destruct (Z.leb_spec 65 n), (Z.leb_spec n 70); cbn [andb];
    try (intros [= <-]; lia); discriminate.
Qed.

Lemma parseInt16_byte (c1 c2 : ascii) (v : float) :
  JS.parseInt16 c1 c2 = Some v -> exists n, 0 <= n <= 255 /\ v = JS.ofZ n.
Proof.
  unfold JS.parseInt16.
  destruct (JS.hexVal c1) as [hi|] eqn:E1; [|discriminate].
  destruct (JS.hexVal c2) as [lo|] eqn:E2; [|discriminate].
  intros [= <-]. apply hexVal_range in E1, E2.
  exists (16 * hi + lo). split; [lia|reflexivity].
Qed.

Lemma hexToRgb_bytes (c : string) (v : rgb) :
  hexToRgb c = Some v ->
  exists r g b, 0 <= r <= 255 /\ 0 <= g <= 255 /\ 0 <= b <= 255
                /\ v = mkRgb (JS.ofZ r) (JS.ofZ g) (JS.ofZ b).
Proof.
  unfold hexToRgb. cbv zeta.
  destruct (match c with String "#"%char rest => rest | _ => c end)
    as [|c1 [|c2 [|c3 [|c4 [|c5 [|c6 [|c7 rest]]]]]]]; try discriminate.
  destruct (JS.parseInt16 c1 c2) as [vr|] eqn:Er; [|discriminate].
  destruct (JS.parseInt16 c3 c4) as [vg|] eqn:Eg; [|discriminate].
  destruct (JS.parseInt16 c5 c6) as [vb|] eqn:Eb; [|discriminate].
  intros [= <-].
  apply parseInt16_byte in Er as (r & Hr & ->).
  apply parseInt16_byte in Eg as (g & Hg & ->).
  apply parseInt16_byte in Eb as (b & Hb & ->).
  exists r, g, b. auto.
Qed.

Lemma isColor_hexToRgb (c : string) :
  isColor c = true -> exists v, hexToRgb c = Some v.
Proof.
  unfold isColor.
  destruct c as [|hash rest]; [discriminate|].
  destruct (Ascii.eqb_spec hash "#"%char) as [->|Hne].
  - intros H. apply andb_prop in H as [Hlen Hhex].
    destruct rest as [|c1 [|c2 [|c3 [|c4 [|c5 [|c6 [|c7 rest]]]]]]]; try discriminate.
    cbn [list_ascii_of_string forallb] in Hhex.
    unfold hexToRgb, JS.parseInt16. cbv zeta.
    destruct (JS.hexVal c1), (JS.hexVal c2), (JS.hexVal c3), (JS.hexVal c4),
      (JS.hexVal c5), (JS.hexVal c6); try discriminate.
    eauto.
  - intros H. exfalso.
    destruct hash as [[] [] [] [] [] [] [] []]; try discriminate. now apply Hne.
Qed.

Lemma hueOf_not_nan (c : string) : isColor c = true -> is_nan (hueOf c) = false.
Proof.
  intros H. destruct (isColor_hexToRgb c H) as [v E].
  destruct (hexToRgb_bytes c v E) as (r & g & b & Hr & Hg & Hb & ->).
  unfold hueOf. rewrite E. now apply hue_not_nan.
Qed.

Lemma hueCompare_key (x y : string) :
  isColor x = true -> isColor y = true ->
  exists v, hueCompare x y = Normal v /\ JS.gt v 0 = (hueKey y <? hueKey x).
Proof.
  intros Hx Hy.
  pose proof (hueOf_not_nan x Hx) as Nx. pose proof (hueOf_not_nan y Hy) as Ny.
  destruct (isColor_hexToRgb x Hx) as [[rx gx bx] Ex].
  destruct (isColor_hexToRgb y Hy) as [[ry gy by_] Ey].
  unfold hueOf in Nx, Ny. unfold hueKey, hueOf, hueCompare.
  rewrite Ex, Ey in *. eexists. split; [reflexivity|].
  unfold JS.gt. now apply sub_gt0.
Qed.

Lemma StronglySorted_weaken {A : Type} (R1 R2 : A -> A -> Prop) (good : A -> Prop)
    (xs : list A) :
  (forall x y, good x -> good y -> R1 x y -> R2 x y) ->
  Forall good xs -> StronglySorted R1 xs -> StronglySorted R2 xs.
Proof.
  intros Himp Hg Hs. induction Hs as [|x xs Hs IH Hx]; [constructor|].
  apply Forall_cons in Hg as [Gx Gs]. constructor; [auto|].
  rewrite List.Forall_forall in *. intros y Hy. apply Himp; auto.
  all: apply Gs || apply Hx; assumption.
Qed.

Lemma hueLe_key (x y : string) :
  isColor x = true -> isColor y = true -> keyLe hueKey x y -> hueLe x y.
Proof.
  intros Hx Hy Hle. unfold hueLe, keyLe, hueKey in *.
  rewrite leb_ordF by now apply hueOf_not_nan. now apply Z.leb_le.
Qed.

Lemma sameHue_key (c x : string) :
  is_nan (hueOf c) = false -> isColor x = true ->
  sameHue c x = sameKey hueKey (hueKey c) x.
Proof.
  intros Hc Hx. unfold sameHue, sameKey, hueKey.
  apply eqb_ordF; [now apply hueOf_not_nan|exact Hc].
Qed.

Lemma sameHue_nan (c x : string) : is_nan (hueOf c) = true -> sameHue c x = false.
Proof.
  intros Hc. unfold sameHue. rewrite FloatAxioms.eqb_spec.
  apply is_nan_spec in Hc. rewrite Hc. unfold SFeqb, SFcompare.
  now destruct (Prim2SF (hueOf x)).
Qed.

(** ** The display order *)

(** C1: for a palette of colours, [sortByHue] returns a new array that is
    sorted by non-decreasing hue, is a permutation of the palette, keeps
    colours of equal hue in their manual order, and leaves the palette array
    (and every other array) as it was. *)
Theorem sortByHue_sorted_stable (st : state) (a : loc) :
  a ∈ dom (heap st) ->
  Forall (fun c => isColor c = true) (arr st a) ->
  exists a',
    fst (sortByHue a st) = Normal a'
    /\ a' <> a
    /\ StronglySorted hueLe (arr (snd (sortByHue a st)) a')
    /\ Permutation (arr st a) (arr (snd (sortByHue a st)) a')
    /\ (forall c, List.filter (sameHue c) (arr (snd (sortByHue a st)) a')
                  = List.filter (sameHue c) (arr st a))
    /\ arr (snd (sortByHue a st)) a = arr st a
    /\ (forall x, x ∈ dom (heap st) -> heap (snd (sortByHue a st)) !! x = heap st !! x).
Proof.
  intros Ha Hgood.
  destruct (sortWith_spec hueCompare hueKey (fun c => isColor c = true)
              hueCompare_key (arr st a) Hgood) as (sorted & E & P & S & F).
  rewrite sortByHue_run. cbv zeta. rewrite E. cbn [fst snd].
  exists (fresh (dom (heap st))).
  assert (Hne : a <> fresh (dom (heap st))) by now apply in_dom_not_fresh.
  assert (Gs : Forall (fun c => isColor c = true) sorted)
    by exact (Permutation_Forall P Hgood).
  rewrite arr_insert_eq.
  split; [reflexivity|]. split; [congruence|]. split; [|split; [exact P|split; [|split]]].
  - now apply (StronglySorted_weaken _ _ _ _ hueLe_key Gs).
  - intros c. destruct (is_nan (hueOf c)) eqn:Nc.
    + rewrite (List.filter_ext_in (sameHue c) (fun _ => false) sorted),
        (List.filter_ext_in (sameHue c) (fun _ => false) (arr st a))
        by (intros; now apply sameHue_nan).
      clear. induction sorted as [|x xs IH]; induction (arr st a) as [|y ys IHy];
        cbn in *; auto.
    + rewrite (List.filter_ext_in (sameHue c) (sameKey hueKey (hueKey c)) sorted),
        (List.filter_ext_in (sameHue c) (sameKey hueKey (hueKey c)) (arr st a)).
      * apply F.
      * intros x Hx. apply sameHue_key; [exact Nc|].
        rewrite List.Forall_forall in Hgood. auto.
      * intros x Hx. apply sameHue_key; [exact Nc|].
        rewrite List.Forall_forall in Gs. auto.
  - rewrite !arr_insert_ne by exact Hne. reflexivity.
  - intros x Hx. cbn. rewrite !lookup_insert_ne; [reflexivity| |];
      apply not_eq_sym, in_dom_not_fresh, Hx.
Qed.

(** ** Integers as Numbers, [Math.floor] *)

Lemma digits2_pos_iter_xO (p k : positive) :
  Zpos (digits2_pos (Pos.iter xO p k)) = Zpos (digits2_pos p) + Zpos k.
Proof.
  induction k as [|k IH] using Pos.peano_ind.
  - cbn. lia.
  - rewrite Pos.iter_succ. cbn [digits2_pos]. lia.
Qed.

Lemma binary_round_exact (p : positive) :
  Zpos p < 2 ^ 53 ->
  exists m e, binary_round prec emax false p 0 = S754_finite false m e
              /\ -1074 <= e /\ Zpos m * 2 ^ (e + 1074) = Zpos p * 2 ^ 1074.
Proof.
  intros Hp.
  pose proof (digits2_pos_bounds p) as [Hlo _].
  assert (Hd : Zpos (digits2_pos p) <= 53).
  { destruct (Z.le_gt_cases (Zpos (digits2_pos p)) 53) as [H|H]; [exact H|exfalso].
    assert (2 ^ 53 <= 2 ^ (Zpos (digits2_pos p) - 1)) by (apply Z.pow_le_mono_r; lia).
    lia. }
  unfold binary_round. rewrite fexp_eq.
  set (d := Zpos (digits2_pos p)) in *.
  replace (Z.max (d + 0 - 53) (-1074)) with (d - 53) by lia.
  assert (Hal : exists mz, shl_align p 0 (d - 53) = (mz, d - 53)
                           /\ Zpos (digits2_pos mz) = 53
                           /\ Zpos mz = Zpos p * 2 ^ (53 - d)).
  { unfold shl_align. destruct (d - 53 - 0) as [|k|k] eqn:Ek; try lia.
    - exists p. replace (d - 53) with 0 by lia. replace (53 - d) with 0 by lia.
      split; [reflexivity|]. split; [fold d; lia|lia].
    - exists (Pos.iter xO p k). split; [reflexivity|]. split.
      + rewrite digits2_pos_iter_xO. fold d. lia.
      + rewrite Pos_iter_xO. f_equal. f_equal. lia. }
  destruct Hal as (mz & -> & Hdz & Hmz).
  unfold binary_round_aux, shr_fexp. cbn [Zdigits2 shr_record_of_loc].
  rewrite Hdz, fexp_eq.
  replace (Z.max (53 + (d - 53) - 53) (-1074) - (d - 53)) with 0 by lia.
  cbn [shr shr_m loc_of_shr_record round_nearest_even Zdigits2 shr_record_of_loc].
  rewrite Hdz, fexp_eq.
  replace (Z.max (53 + (d - 53) - 53) (-1074) - (d - 53)) with 0 by lia.
  cbn [shr shr_m].
  replace (d - 53 <=? emax - prec) with true
    by (symmetry; apply Z.leb_le; unfold emax, prec; lia).
  exists mz, (d - 53). split; [reflexivity|]. split; [lia|].
  rewrite Hmz, <- Z.mul_assoc, <- Z.pow_add_r by lia. f_equal. f_equal. lia.
Qed.

Lemma ofZ_exact (n : Z) :
  0 < n < 2 ^ 53 -> is_nan (JS.ofZ n) = false /\ ordF (JS.ofZ n) = n * 2 ^ 1074.
Proof.
  intros Hn. unfold JS.ofZ. destruct (Z.leb_spec 0 n) as [_|]; [|lia].
  assert (E : Prim2SF (of_uint63 (Uint63.of_Z n))
              = binary_normalize prec emax n 0 false).
  { rewrite of_uint63_spec, Uint63.of_Z_spec, Z.mod_small; [reflexivity|].
    split; [lia|]. apply Z.lt_trans with (2 ^ 53); [lia|reflexivity]. }
  destruct n as [|p|p]; try lia. cbn [binary_normalize] in E.
  destruct (binary_round_exact p (proj2 Hn)) as (m & e & Er & He & Hv).
  rewrite Er in E. split.
  - apply is_nan_false. rewrite E. discriminate.
  - unfold ordF. rewrite E. exact Hv.
Qed.

Lemma binary_normalize_not_nan (n : Z) :
  binary_normalize prec emax n 0 false <> S754_nan.
Proof.
  destruct n as [|p|p]; cbn [binary_normalize]; [discriminate| |].
  - destruct (binary_round_sign false p 0) as [(m & e & ->)| ->]; [lia| |]; discriminate.
  - destruct (binary_round_sign true p 0) as [(m & e & ->)| ->]; [lia| |]; discriminate.
Qed.

Lemma ofZ_not_nan (n : Z) : is_nan (JS.ofZ n) = false.
Proof.
  apply is_nan_false. unfold JS.ofZ. destruct (0 <=? n).
  - rewrite of_uint63_spec. apply binary_normalize_not_nan.
  - rewrite FloatAxioms.opp_spec, of_uint63_spec.
    pose proof (binary_normalize_not_nan (Uint63.to_Z (Uint63.of_Z (- n)))) as H.
    destruct (binary_normalize prec emax _ 0 false); try discriminate. congruence.
Qed.

Lemma Math_floor_ord (x : float) :
  is_nan x = false -> 0 <= ordF x ->
  is_nan (JS.Math_floor x) = false
  /\ 0 <= ordF (JS.Math_floor x) <= ordF x.
Proof.
  intros Nx Hx. unfold JS.Math_floor.
  pose proof (Prim2SF_valid x) as V. unfold ordF in Hx.
  destruct (Prim2SF x) as [s|s| |s m e] eqn:E;
    try (split; [exact Nx|unfold ordF; rewrite E; lia]).
  destruct (Z.leb_spec 0 e) as [He|He];
    [split; [exact Nx|unfold ordF; rewrite E; lia]|].
  cbn [valid_binary] in V. pose proof (finite_bounds m e V) as Bm.
  pose proof (bounded_spec m e V) as (Hev & Hd & _).
  pose proof (digits2_pos_bounds m) as [_ Hm].
  destruct s; [cbn [ordZ cond_Zopp] in Hx; lia|]. cbn [cond_Zopp ordZ] in *.
  replace (ordF x) with (Zpos m * 2 ^ (e + 1074)) by (unfold ordF; now rewrite E).
  rewrite Z.shiftr_div_pow2 by lia.
  assert (Hp : 0 < 2 ^ (- e)) by (apply Z.pow_pos_nonneg; lia).
  assert (Hq : 0 <= Zpos m / 2 ^ (- e)) by (apply Z.div_pos; lia).
  assert (Hmul : 2 ^ (- e) * (Zpos m / 2 ^ (- e)) <= Zpos m)
    by (apply Z.mul_div_le; lia).
  assert (H53 : Zpos m < 2 ^ 53).
  { apply Z.lt_le_trans with (2 ^ Zpos (digits2_pos m)); [lia|].
    apply Z.pow_le_mono_r; lia. }
  destruct (Z.eqb_spec (Zpos m / 2 ^ (- e)) 0) as [E0|E0].
  - split; [reflexivity|]. change (ordF zero) with 0. lia.
  - assert (Hn : 0 < Zpos m / 2 ^ (- e) < 2 ^ 53) by nia.
    destruct (ofZ_exact _ Hn) as [Nn On]. split; [exact Nn|].
    rewrite On.
    assert (E2 : 2 ^ 1074 = 2 ^ (- e) * 2 ^ (e + 1074)).
    { rewrite <- Z.pow_add_r by lia. f_equal. lia. }
    rewrite E2.
    assert (0 < 2 ^ (e + 1074)) by (apply Z.pow_pos_nonneg; lia).
    split; [nia|]. rewrite Z.mul_assoc.
    apply Z.mul_le_mono_nonneg_r; [lia|]. lia.
Qed.

Lemma Math_floor_bounds (x w : float) :
  is_nan x = false -> is_nan w = false ->
  JS.lt x 0 = false -> JS.ge x w = false ->
  JS.ge (JS.Math_floor x) 0 = true /\ JS.lt (JS.Math_floor x) w = true.
Proof.
  unfold JS.lt, JS.ge. intros Nx Nw H0 Hw.
  rewrite ltb_ordF in H0 by (assumption || reflexivity).
  rewrite leb_ordF in Hw by assumption.
  change (ordF 0) with 0 in H0.
  apply Z.ltb_ge in H0. apply Z.leb_gt in Hw.
  destruct (Math_floor_ord x Nx H0) as [Nf [Hf0 Hfx]].
  rewrite leb_ordF, ltb_ordF by (assumption || reflexivity).
  change (ordF 0) with 0. split; [apply Z.leb_le|apply Z.ltb_lt]; lia.
Qed.

Lemma add_zero_tests (x w : float) :
  JS.ge (x + 0)%float 0 = JS.ge x 0 /\ JS.lt (x + 0)%float w = JS.lt x w.
Proof.
  unfold JS.ge, JS.lt.
  rewrite !FloatAxioms.leb_spec, !FloatAxioms.ltb_spec, FloatAxioms.add_spec.
  change (Prim2SF 0) with (S754_zero false).
  destruct (Prim2SF x) as [[]|[]| |[] m e], (Prim2SF w) as [[]|[]| |[] mw ew];
    split; reflexivity.
Qed.

(** ** Operations that do not make a NaN *)

Lemma shr_fexp_nonneg (m e : Z) (l : location) :
  0 <= m -> 0 <= shr_m (fst (shr_fexp prec emax m e l)).
Proof.
  intros Hm. unfold shr_fexp, shr.
  destruct (fexp prec emax (Zdigits2 m + e) - e) as [|p|p]; cbn [fst];
    rewrite ?shr_record_of_loc_m; try lia.
  rewrite iter_shr_1 by (rewrite shr_record_of_loc_m; lia).
  rewrite shr_record_of_loc_m. apply Z.div_pos; [lia|]. apply Z.pow_pos_nonneg; lia.
Qed.

Lemma round_nearest_even_nonneg (m : Z) (l : location) :
  0 <= m -> 0 <= round_nearest_even m l.
Proof.
  intros Hm. destruct l as [|[]]; simpl; try lia. destruct (Z.even m); lia.
Qed.

Lemma binary_round_aux_not_nan (s : bool) (m e : Z) (l : location) :
  0 <= m -> binary_round_aux prec emax s m e l <> S754_nan.
Proof.
  intros Hm. unfold binary_round_aux.
  pose proof (shr_fexp_nonneg m e l Hm) as H1.
  destruct (shr_fexp prec emax m e l) as [mrs' e']. cbn [fst] in H1.
  pose proof (shr_fexp_nonneg _ e' loc_Exact
                (round_nearest_even_nonneg _ (loc_of_shr_record mrs') H1)) as H2.
  destruct (shr_fexp prec emax _ e' loc_Exact) as [mrs'' e'']. cbn [fst] in H2.
  destruct (shr_m mrs'') as [|p|p]; try lia; [discriminate|].
  destruct (e'' <=? emax - prec); discriminate.
Qed.

Lemma binary_normalize_any_not_nan (m e : Z) (sz : bool) :
  binary_normalize prec emax m e sz <> S754_nan.
Proof.
  destruct m as [|p|p]; cbn [binary_normalize]; [discriminate| |];
    unfold binary_round; destruct (shl_align p e _) as [mz ez];
    apply binary_round_aux_not_nan; lia.
Qed.

Lemma SFsub_not_nan (x y : spec_float) :
  isFiniteSF x -> y <> S754_nan -> SF64sub x y <> S754_nan.
Proof.
  intros Fx Ny. unfold SF64sub, SFsub.
  destruct x as [sx|sx| |sx mx ex]; try contradiction;
  destruct y as [sy|sy| |sy my ey]; try congruence; try discriminate.
  - destruct sx, sy; discriminate.
  - apply binary_normalize_any_not_nan.
Qed.

Lemma SFmul_not_nan (x y : spec_float) :
  x <> S754_nan -> isNonzeroSF y -> SF64mul x y <> S754_nan.
Proof.
  intros Nx Fy. unfold SF64mul, SFmul.
  destruct y as [sy|sy| |sy my ey]; try contradiction.
  destruct x as [sx|sx| |sx mx ex]; try congruence; try discriminate.
  apply binary_round_aux_not_nan. lia.
Qed.

Lemma SFdiv_not_nan (x y : spec_float) :
  x <> S754_nan -> isNonzeroSF y -> SF64div x y <> S754_nan.
Proof.
  intros Nx Fy. unfold SF64div, SFdiv.
  destruct y as [sy|sy| |sy my ey]; try contradiction.
  destruct x as [sx|sx| |sx mx ex]; try congruence; try discriminate.
  unfold SFdiv_core_binary.
  set (m' := match _ with Z0 => Zpos mx | Zpos _ => _ | Zneg _ => 0 end).
  assert (Hm' : 0 <= m').
  { subst m'. destruct (_ - _ - _) as [|p|p]; try lia.
    apply Z.shiftl_nonneg. lia. }
  pose proof (Z.div_pos m' (Zpos my) Hm' ltac:(lia)) as Hq.
  unfold Z.div in Hq. destruct (Z.div_eucl m' (Zpos my)) as [q r]. cbn [fst] in Hq.
  now apply binary_round_aux_not_nan.
Qed.

Lemma scaled_not_nan (c p z : float) :
  isFiniteNumber c = true -> is_nan p = false -> isNonzeroNumber z = true ->
  is_nan ((c - p * z) / z)%float = false.
Proof.
  unfold isFiniteNumber, isNonzeroNumber. intros Fc Np Fz.
  apply is_nan_false in Np. apply is_nan_false.
  rewrite FloatAxioms.div_spec, FloatAxioms.sub_spec, FloatAxioms.mul_spec.
  assert (Fz' : isNonzeroSF (Prim2SF z)) by now destruct (Prim2SF z).
  assert (Fc' : isFiniteSF (Prim2SF c)) by now destruct (Prim2SF c).
  apply SFdiv_not_nan; [|exact Fz'].
  apply SFsub_not_nan; [exact Fc'|].
  now apply SFmul_not_nan.
Qed.

Lemma imagePoint_defined (st : state) (e : mouseEvent) :
  viewportDefined st e = true ->
  is_nan (fst (imagePoint st e)) = false /\ is_nan (snd (imagePoint st e)) = false.
Proof.
  unfold viewportDefined, imagePoint. intros H.
  destruct (getCanvasCoords st e) as [canvasX canvasY]. cbn [fst snd] in *.
  apply andb_prop in H as [H Fy]. apply andb_prop in H as [H Fx].
  apply andb_prop in H as [H Ny]. apply andb_prop in H as [Fz Nx].
  apply negb_true_iff in Nx, Ny.
  unfold canvasToImageCoords. cbn [fst snd].
  split; now apply scaled_not_nan.
Qed.

(** ** Sampling a neighbourhood *)

Lemma zRange_spec (n k : Z) : 0 <= k < n -> In k (zRange n).
Proof.
  intros Hk. unfold zRange. apply in_map_iff. exists (Z.to_nat k).
  split; [lia|]. apply in_seq. lia.
Qed.

Lemma byteRange_range (n : Z) : In n byteRange -> 0 <= n <= 255.
Proof.
  unfold byteRange. intros H. apply in_map_iff in H as (k & <- & Hk).
  apply in_seq in Hk. lia.
Qed.

Lemma meanIsByte_all : forallb meanIsByte [1; 2; 3; 4; 5; 6; 7; 8; 9] = true.
Proof. vm_compute. reflexivity. Qed.

Lemma roundedMean_byte (sum count : Z) :
  1 <= count <= 9 -> 0 <= sum <= 255 * count ->
  isByteNumber (roundedMean sum count).
Proof.
  intros Hc Hs. pose proof meanIsByte_all as H.
  rewrite forallb_forall in H.
  assert (Hin : In count [1; 2; 3; 4; 5; 6; 7; 8; 9]) by (cbn; lia).
  specialize (H count Hin). unfold meanIsByte in H.
  rewrite forallb_forall in H.
  assert (Hs' : In sum (zRange (255 * count + 1))) by (apply zRange_spec; lia).
  specialize (H sum Hs').
  apply existsb_exists in H as (v & Hv & E).
  apply FloatAxioms.Leibniz.eqb_spec in E.
  rewrite byteFloats_eq in Hv. apply in_map_iff in Hv as (n & <- & Hn).
  exists n. split; [now apply byteRange_range|exact E].
Qed.

Lemma byteZ_range (x : Byte.byte) : 0 <= byteZ x <= 255.
Proof. unfold byteZ. pose proof (Byte.to_N_bounded x). lia. Qed.

Lemma sampleStep_cases (img : image) (x y : float) (acc : Z * Z * Z * Z)
    (d : float * float) :
  sumsOk acc ->
  sumsOk (sampleStep img x y acc d)
  /\ countOf acc <= countOf (sampleStep img x y acc d) <= countOf acc + 1.
Proof.
  destruct acc as [[[r g] b] count]. unfold sumsOk, sampleStep, countOf, sumR, sumG, sumB.
  cbn [fst snd]. intros H.
  destruct (_ && _); [|cbn [fst snd]; lia].
  destruct (pixel img _ _) as [[pr pg] pb]. cbn [fst snd].
  pose proof (byteZ_range pr). pose proof (byteZ_range pg). pose proof (byteZ_range pb).
  lia.
Qed.

Lemma sampleFold (img : image) (x y : float) (ds : list (float * float))
    (acc : Z * Z * Z * Z) :
  sumsOk acc ->
  sumsOk (fold_left (sampleStep img x y) ds acc)
  /\ countOf acc <= countOf (fold_left (sampleStep img x y) ds acc)
     <= countOf acc + Z.of_nat (List.length ds).
Proof.
  revert acc. induction ds as [|d ds IH]; intros acc H; cbn [fold_left List.length].
  - split; [exact H|lia].
  - destruct (sampleStep_cases img x y acc d H) as [H1 C1].
    destruct (IH _ H1) as [H2 C2]. split; [exact H2|lia].
Qed.

Lemma sampleStep_centre (img : image) (x y : float) (acc : Z * Z * Z * Z) :
  inBounds img x y = true ->
  countOf (sampleStep img x y acc (0, 0)%float) = countOf acc + 1.
Proof.
  intros Hin. destruct acc as [[[r g] b] count]. unfold sampleStep. cbn [fst snd].
  destruct (add_zero_tests x (JS.ofZ (width img))) as [-> ->].
  destruct (add_zero_tests y (JS.ofZ (height img))) as [-> ->].
  unfold inBounds in Hin. rewrite Hin.
  now destruct (pixel img _ _) as [[pr pg] pb].
Qed.

Lemma neighbourhood_centre :
  neighbourhood
  = [(-1, -1); (0, -1); (1, -1); (-1, 0)]%float
    ++ (0, 0)%float :: [(1, 0); (-1, 1); (0, 1); (1, 1)]%float.
Proof. reflexivity. Qed.

Lemma sampleSums_count (img : image) (x y : float) :
  inBounds img x y = true ->
  sumsOk (sampleSums img x y) /\ 1 <= countOf (sampleSums img x y) <= 9.
Proof.
  intros Hin. unfold sampleSums. rewrite neighbourhood_centre.
  assert (E : forall (l1 l2 : list (float * float)) c init,
            fold_left (sampleStep img x y) (l1 ++ c :: l2) init
            = fold_left (sampleStep img x y) l2
                (sampleStep img x y (fold_left (sampleStep img x y) l1 init) c))
    by (intros; now rewrite fold_left_app).
  rewrite E. clear E.
  assert (H0 : sumsOk (0, 0, 0, 0)) by (unfold sumsOk; cbn; lia).
  destruct (sampleFold img x y [(-1, -1); (0, -1); (1, -1); (-1, 0)]%float _ H0)
    as [H1 C1].
  remember (fold_left (sampleStep img x y)
              [(-1, -1); (0, -1); (1, -1); (-1, 0)]%float (0, 0, 0, 0)) as acc1.
  destruct (sampleStep_cases img x y acc1 (0, 0)%float H1) as [H2 _].
  pose proof (sampleStep_centre img x y acc1 Hin) as C2.
  remember (sampleStep img x y acc1 (0, 0)%float) as acc2.
  destruct (sampleFold img x y [(1, 0); (-1, 1); (0, 1); (1, 1)]%float _ H2)
    as [H3 C3].
  split; [exact H3|].
  change (countOf (0, 0, 0, 0)) with 0 in C1.
  change (Z.of_nat (List.length _)) with 4 in C1.
  change (Z.of_nat (List.length _)) with 4 in C3. lia.
Qed.

Lemma sampleArea_means (img : image) (x y : float) :
  sampleArea img x y
  = mkRgb (roundedMean (sumR (sampleSums img x y)) (countOf (sampleSums img x y)))
          (roundedMean (sumG (sampleSums img x y)) (countOf (sampleSums img x y)))
          (roundedMean (sumB (sampleSums img x y)) (countOf (sampleSums img x y))).
Proof.
  unfold sampleArea. now destruct (sampleSums img x y) as [[[r g] b] count].
Qed.


Lemma pick_floor_inBounds (st : state) (e : mouseEvent) (img : image) :
  currentImage st = Some img ->
  mutates (OpPick e) st = true ->
  viewportDefined st e = true ->
  inBounds img (JS.Math_floor (fst (imagePoint st e)))
               (JS.Math_floor (snd (imagePoint st e))) = true.
Proof.
  intros Himg Hm Hv. destruct (imagePoint_defined st e Hv) as [Nx Ny].
  cbn [mutates] in Hm. rewrite Himg in Hm.
  apply andb_prop in Hm as [_ Hout]. apply negb_true_iff in Hout.
  unfold outsideImage in Hout.
  apply orb_false_elim in Hout as [Hout Hh].
  apply orb_false_elim in Hout as [Hout Hw].
  apply orb_false_elim in Hout as [Hx Hy].
  destruct (Math_floor_bounds _ _ Nx (ofZ_not_nan (width img)) Hx Hw) as [X0 Xw].
  destruct (Math_floor_bounds _ _ Ny (ofZ_not_nan (height img)) Hy Hh) as [Y0 Yh].
  unfold inBounds. now rewrite X0, Y0, Xw, Yh.
Qed.

Example sampleArea_red_centre :
  sampleArea redImage 50 50 = mkRgb 255 0 0
  /\ countOf (sampleSums redImage 50 50) = 9
  /\ countOf (sampleSums redImage 0 0) = 4
  /\ countOf (sampleSums redImage (-1) (-1)) = 1.
Proof. vm_compute. repeat split; reflexivity. Qed.

Lemma sortByHue_sorted_stable_witness :
  exists a',
    fst (sortByHue 0%nat (pageWith tiedPalette)) = Normal a'
    /\ a' <> 0%nat
    /\ StronglySorted hueLe (arr (snd (sortByHue 0%nat (pageWith tiedPalette))) a').
Proof.
  destruct (sortByHue_sorted_stable (pageWith tiedPalette) 0%nat)
    as (a' & E & N & S & _).
  - apply (proj1 (proj1 (pageWith_inv tiedPalette))).
  - repeat constructor.
  - exists a'. auto.
Defined.

Example sortByHue_tied :
  arr (snd (sortByHue 0%nat (pageWith tiedPalette))) 1%nat
  = ["#ff0000"; "#800000"; "#ffff00"; "#00ff00"; "#0000ff"]%string
  /\ arr (snd (sortByHue 0%nat (pageWith tiedPalette))) 0%nat = tiedPalette.
Proof. vm_compute. split; reflexivity. Qed.

(** ** The text of an integer channel *)

Lemma ofZ_Prim2SF (n : Z) :
  0 < n < 2 ^ 53 ->
  exists m e, Prim2SF (JS.ofZ n) = S754_finite false m e
              /\ -1074 <= e /\ Zpos m * 2 ^ (e + 1074) = n * 2 ^ 1074.
Proof.
  intros Hn. unfold JS.ofZ. destruct (Z.leb_spec 0 n) as [_|]; [|lia].
  assert (E : Prim2SF (of_uint63 (Uint63.of_Z n))
              = binary_normalize prec emax n 0 false).
  { rewrite of_uint63_spec, Uint63.of_Z_spec, Z.mod_small; [reflexivity|].
    split; [lia|]. apply Z.lt_trans with (2 ^ 53); [lia|reflexivity]. }
  destruct n as [|p|p]; try lia. cbn [binary_normalize] in E.
  destruct (binary_round_exact p (proj2 Hn)) as (m & e & Er & He & Hv).
  exists m, e. rewrite E. auto.
Qed.

Lemma append_empty_r (s : string) : (s ++ "")%string = s.
Proof.
  induction s as [|c s IH]; [reflexivity|].
  change (String c s ++ "")%string with (String c (s ++ "")%string). now rewrite IH.
Qed.

Lemma finite_integer_digits (s : bool) (m : positive) (e n : Z) :
  0 < n -> -1074 <= e -> Zpos m * 2 ^ (e + 1074) = n * 2 ^ 1074 ->
  (if 0 <=? e then Zpos m * 2 ^ e else Z.shiftr (Zpos m) (- e)) = n
  /\ (if 0 <=? e then 0 else Z.land (Zpos m) ((if 0 <=? e then 1 else 2 ^ (- e)) - 1)) = 0.
Proof.
  intros Hn He Hv.
  assert (P1074 : 0 < 2 ^ 1074) by (apply Z.pow_pos_nonneg; lia).
  destruct (Z.leb_spec 0 e) as [H0|H0].
  - split; [|reflexivity].
    rewrite Z.pow_add_r, Z.mul_assoc in Hv by lia.
    now apply Z.mul_reg_r in Hv; [|lia].
  - assert (E2 : 2 ^ 1074 = 2 ^ (- e) * 2 ^ (e + 1074)).
    { rewrite <- Z.pow_add_r by lia. f_equal. lia. }
    assert (Pe : 0 < 2 ^ (e + 1074)) by (apply Z.pow_pos_nonneg; lia).
    assert (Pn : 0 < 2 ^ (- e)) by (apply Z.pow_pos_nonneg; lia).
    rewrite E2, Z.mul_assoc in Hv. apply Z.mul_reg_r in Hv; [|lia].
    rewrite Hv. split.
    + rewrite Z.shiftr_div_pow2 by lia. apply Z.div_mul. lia.
    + change (2 ^ (- e) - 1) with (Z.pred (2 ^ (- e))).
      rewrite <- Z.ones_equiv, Z.land_ones by lia. apply Z.mod_mul. lia.
Qed.

Lemma toString16_ofZ (n : Z) :
  - 2 ^ 53 < n < 2 ^ 53 -> JS.Number_toString16 (JS.ofZ n) = signedDigits16 n.
Proof.
  intros Hn. unfold signedDigits16.
  destruct (Z.ltb_spec n 0) as [Hneg|Hpos].
  - assert (Hn' : 0 < - n < 2 ^ 53) by lia.
    destruct (ofZ_Prim2SF (- n) Hn') as (m & e & E & He & Hv).
    assert (E' : Prim2SF (JS.ofZ n) = S754_finite true m e).
    { unfold JS.ofZ in *. destruct (Z.leb_spec 0 n); [lia|].
      destruct (Z.leb_spec 0 (- n)); [|lia].
      rewrite FloatAxioms.opp_spec, E. reflexivity. }
    unfold JS.Number_toString16. rewrite E'. cbv zeta.
    destruct (finite_integer_digits true m e (- n) (proj1 Hn') He Hv) as [-> ->].
    rewrite Z.abs_neq by lia. cbn [Z.eqb]. now rewrite append_empty_r.
  - destruct (Z.eq_dec n 0) as [->|Hnz]; [reflexivity|].
    assert (Hn' : 0 < n < 2 ^ 53) by lia.
    destruct (ofZ_Prim2SF n Hn') as (m & e & E & He & Hv).
    unfold JS.Number_toString16. rewrite E. cbv zeta.
    destruct (finite_integer_digits false m e n (proj1 Hn') He Hv) as [-> ->].
    rewrite Z.abs_eq by lia. cbn [Z.eqb]. now rewrite append_empty_r.
Qed.

Lemma length_append (s1 s2 : string) :
  String.length (s1 ++ s2)%string = (String.length s1 + String.length s2)%nat.
Proof.
  induction s1 as [|c s1 IH]; [reflexivity|].
  change (String c s1 ++ s2)%string with (String c (s1 ++ s2)%string).
  cbn [String.length]. now rewrite IH.
Qed.

Lemma chars_append (s1 s2 : string) :
  list_ascii_of_string (s1 ++ s2)%string
  = list_ascii_of_string s1 ++ list_ascii_of_string s2.
Proof.
  induction s1 as [|c s1 IH]; [reflexivity|].
  change (String c s1 ++ s2)%string with (String c (s1 ++ s2)%string).
  cbn [list_ascii_of_string]. now rewrite IH.
Qed.

Lemma isColor_channels (cr cg cb : string) :
  (2 <= String.length cr)%nat -> (2 <= String.length cg)%nat ->
  (2 <= String.length cb)%nat ->
  isColor (String "#"%char (cr ++ cg ++ cb)%string)
  = twoHexDigits cr && twoHexDigits cg && twoHexDigits cb.
Proof.
  intros Hr Hg Hb. unfold isColor, twoHexDigits.
  rewrite !length_append, !chars_append, !forallb_app.
  fold isHexChar.
  destruct (Nat.eqb_spec (String.length cr) 2) as [Er|Er],
           (Nat.eqb_spec (String.length cg) 2) as [Eg|Eg],
           (Nat.eqb_spec (String.length cb) 2) as [Eb|Eb];
    destruct (Nat.eqb_spec (String.length cr + (String.length cg + String.length cb)) 6);
    try lia; cbn [andb]; try reflexivity;
    repeat (destruct (forallb isHexChar _); cbn [andb]; try reflexivity).
Qed.

Lemma intDigits16_length (fuel : nat) (n : Z) (acc : string) :
  (String.length acc <= String.length (JS.intDigits16 fuel n acc))%nat.
Proof.
  revert n acc. induction fuel as [|fuel IH]; intros n acc; cbn [JS.intDigits16]; [lia|].
  destruct (n / 16 =? 0); [cbn [String.length]; lia|].
  etransitivity; [|apply IH]. cbn [String.length]. lia.
Qed.

Lemma intToString16_nonempty (n : Z) :
  (1 <= String.length (JS.intToString16 n))%nat.
Proof.
  unfold JS.intToString16. cbn [JS.intDigits16].
  destruct (n / 16 =? 0); [cbn [String.length]; lia|].
  etransitivity; [|apply intDigits16_length]. cbn [String.length]. lia.
Qed.

Lemma intToString16_long (n : Z) :
  256 <= n -> (3 <= String.length (JS.intToString16 n))%nat.
Proof.
  intros Hn. unfold JS.intToString16.
  assert (Hl : 8 <= Z.log2 n) by (change 8 with (Z.log2 256); now apply Z.log2_le_mono).
  assert (Hq : 2 <= Z.log2 n / 4) by (apply Z.div_le_lower_bound; lia).
  destruct (Z.to_nat (Z.log2 n / 4)) as [|[|k]] eqn:Ek; try lia.
  assert (H16 : 16 <= n / 16) by (apply Z.div_le_lower_bound; lia).
  assert (H1 : 1 <= n / 16 / 16) by (apply Z.div_le_lower_bound; lia).
  cbn [JS.intDigits16].
  destruct (Z.eqb_spec (n / 16) 0); [lia|].
  destruct (Z.eqb_spec (n / 16 / 16) 0); [lia|].
  destruct (n / 16 / 16 / 16 =? 0); [cbn [String.length]; lia|].
  etransitivity; [|apply intDigits16_length]. cbn [String.length]. lia.
Qed.

Lemma channelHex_length (n : Z) :
  - 2 ^ 53 < n < 2 ^ 53 -> (2 <= String.length (channelHex (JS.ofZ n)))%nat.
Proof.
  intros Hn. unfold channelHex. rewrite toString16_ofZ by exact Hn. cbv zeta.
  destruct (Nat.eqb_spec (String.length (signedDigits16 n)) 1) as [E|E].
  - change ("0" ++ signedDigits16 n)%string with (String "0"%char (signedDigits16 n)).
    cbn [String.length]. lia.
  - unfold signedDigits16 in *. rewrite length_append in *.
    pose proof (intToString16_nonempty (Z.abs n)). lia.
Qed.

Lemma channelHex_twoHex_byte :
  forallb (fun n => twoHexDigits (channelHex (JS.ofZ n))) byteRange = true.
Proof. vm_compute. reflexivity. Qed.

Lemma channelHex_twoHex (n : Z) :
  - 2 ^ 53 < n < 2 ^ 53 ->
  twoHexDigits (channelHex (JS.ofZ n)) = (0 <=? n) && (n <=? 255).
Proof.
  intros Hn. destruct (Z.leb_spec 0 n) as [H0|H0]; cbn [andb].
  - destruct (Z.leb_spec n 255) as [H1|H1].
    + pose proof channelHex_twoHex_byte as H. rewrite forallb_forall in H.
      apply H, byteRange_spec. lia.
    + unfold channelHex. rewrite toString16_ofZ by exact Hn. cbv zeta.
      unfold signedDigits16. destruct (Z.ltb_spec n 0); [lia|].
      change ("" ++ JS.intToString16 (Z.abs n))%string with (JS.intToString16 (Z.abs n)).
      rewrite Z.abs_eq by lia.
      pose proof (intToString16_long n ltac:(lia)) as Hl.
      destruct (Nat.eqb_spec (String.length (JS.intToString16 n)) 1); [lia|].
      unfold twoHexDigits.
      destruct (Nat.eqb_spec (String.length (JS.intToString16 n)) 2); [lia|reflexivity].
  - unfold channelHex. rewrite toString16_ofZ by exact Hn. cbv zeta.
    unfold signedDigits16. destruct (Z.ltb_spec n 0); [|lia].
    change ("-" ++ JS.intToString16 (Z.abs n))%string
      with (String "-"%char (JS.intToString16 (Z.abs n))).
    pose proof (intToString16_nonempty (Z.abs n)) as Hl.
    cbn [String.length].
    destruct (Nat.eqb_spec (S (String.length (JS.intToString16 (Z.abs n)))) 1); [lia|].
    unfold twoHexDigits. cbn [list_ascii_of_string forallb].
    change (isHexChar "-"%char) with false. cbn [andb]. apply andb_false_r.
Qed.

(** ** An image loaded into an empty pane

    When the pane has no size as the image arrives, [initializeCanvas] makes
    the zoom 0 and the pan NaN.  The comparisons of the bounds test are then
    all false, so a click is sampled at a NaN centre: nothing is counted and
    the colour stored is not a Color. *)
Example pick_in_emptyPane :
  zoom emptyPane = 0%float
  /\ is_nan (panX emptyPane) = true
  /\ viewportDefined emptyPane (mkMouse 5 5 0) = false
  /\ mutates (OpPick (mkMouse 5 5 0)) emptyPane = true
  /\ palette (snd (pickColorAtPoint (mkMouse 5 5 0) emptyPane))
     = (examplePalette ++ ["#NaNNaNNaN"%string])
  /\ fst (pickColorAtPoint (mkMouse 5 5 0) emptyPane) = Throw TypeError.
Proof. vm_compute. repeat split; reflexivity. Qed.

(** The same image in a pane of 800 by 600: a click, then an undo. *)
Example pick_then_undo :
  viewportDefined filledPane (mkMouse 5 5 0) = true
  /\ mutates (OpPick (mkMouse 5 5 0)) filledPane = true
  /\ palette (snd (pickColorAtPoint (mkMouse 5 5 0) filledPane))
     = (examplePalette ++ ["#ff0000"%string])
  /\ history (snd (pickColorAtPoint (mkMouse 5 5 0) filledPane)) = [examplePalette]
  /\ palette (snd (undo (snd (pickColorAtPoint (mkMouse 5 5 0) filledPane))))
     = examplePalette.
Proof. vm_compute. repeat split; reflexivity. Qed.

(** * Further properties of the script *)

(** ** Reading and printing hex texts *)

(** Scenario pages are well formed. *)
Lemma pageShowing_inv (img : image) (pal : list string) : inv (pageShowing img pal).
Proof. exact (pageWith_inv pal). Qed.
Lemma shownPage_inv (pal : list string) : inv (shownPage pal).
Proof.
  apply (paletteStep_inv (pageWith pal)); [apply pageWith_inv|].
  apply renderPalette_step. apply (proj1 (proj1 (pageWith_inv pal))).
Qed.
Lemma examplePalette_colors : Forall (fun c => isColor c = true) examplePalette.
Proof. repeat constructor. Qed.
Lemma noExtractor_bytes : byteExtractor noExtractor.
Proof. intros img n pal H. discriminate H. Qed.

Lemma hexToRgb_body (hex : string) :
  hexToRgb hex
  = match hexBody hex with
    | String c1 (String c2 (String c3 (String c4 (String c5 (String c6 EmptyString))))) =>
        match JS.parseInt16 c1 c2, JS.parseInt16 c3 c4, JS.parseInt16 c5 c6 with
        | Some r, Some g, Some b => Some (mkRgb r g b)
        | _, _, _ => None
        end
    | _ => None
    end.
Proof. reflexivity. Qed.

Lemma parseInt16_hex (c1 c2 : ascii) :
  isHexChar c1 && isHexChar c2 = true <-> JS.parseInt16 c1 c2 <> None.
Proof.
  unfold isHexChar, JS.parseInt16.
  destruct (JS.hexVal c1), (JS.hexVal c2); cbn; split; congruence.
Qed.

(** X1: [hexToRgb] answers a colour exactly when its argument, without the
    one [#] it may start with, is six hexadecimal digits; each channel of
    the answer is then an integer from 0 to 255. *)
Theorem hexToRgb_accepts (hex : string) :
  (exists v, hexToRgb hex = Some v) <-> sixHexDigits (hexBody hex) = true.
Proof.
  rewrite hexToRgb_body. unfold sixHexDigits.
  destruct (hexBody hex) as [|c1 [|c2 [|c3 [|c4 [|c5 [|c6 [|c7 rest]]]]]]];
    cbn [String.length Nat.eqb andb list_ascii_of_string forallb];
    try (split; [intros [v H]; discriminate H|discriminate]).
  unfold JS.parseInt16, isHexChar.
  destruct (JS.hexVal c1), (JS.hexVal c2), (JS.hexVal c3), (JS.hexVal c4),
    (JS.hexVal c5), (JS.hexVal c6); cbn;
    split; try discriminate; try (intros [v H]; discriminate H); eauto.
Qed.

Lemma hexVal_upperChar (c : ascii) : JS.hexVal (JS.upperChar c) = JS.hexVal c.
Proof. destruct c as [[] [] [] [] [] [] [] []]; reflexivity. Qed.

Lemma upperChar_hash (c : ascii) :
  (JS.upperChar c = "#"%char) <-> c = "#"%char.
Proof. destruct c as [[] [] [] [] [] [] [] []]; split; intros H; try discriminate H; reflexivity. Qed.

Lemma hexBody_toUpperCase (hex : string) :
  hexBody (JS.toUpperCase hex) = JS.toUpperCase (hexBody hex).
Proof.
  destruct hex as [|c rest]; [reflexivity|].
  destruct (ascii_dec c "#"%char) as [->|Hne]; [reflexivity|].
  assert (Hu : JS.upperChar c <> "#"%char) by (intros H; apply (proj1 (upperChar_hash c)) in H; congruence).
  cbn [JS.toUpperCase].
  assert (E1 : forall a s, a <> "#"%char -> hexBody (String a s) = String a s).
  { intros a s Ha. destruct a as [[] [] [] [] [] [] [] []]; try reflexivity.
    exfalso. now apply Ha. }
  now rewrite !E1.
Qed.

Lemma parseInt16_upperChar (c1 c2 : ascii) :
  JS.parseInt16 (JS.upperChar c1) (JS.upperChar c2) = JS.parseInt16 c1 c2.
Proof. unfold JS.parseInt16. now rewrite !hexVal_upperChar. Qed.

(** X2: on a string of ASCII characters [hexToRgb] does not depend on the
    case of the letters: the upper-case text is read as the string itself. *)
Theorem hexToRgb_toUpperCase (hex : string) :
  isAscii hex = true ->
  hexToRgb (JS.toUpperCase hex) = hexToRgb hex.
Proof.
  intros _.
  rewrite !hexToRgb_body, hexBody_toUpperCase.
  destruct (hexBody hex) as [|c1 [|c2 [|c3 [|c4 [|c5 [|c6 [|c7 rest]]]]]]];
    try reflexivity.
  cbn [JS.toUpperCase]. now rewrite !parseInt16_upperChar.
Qed.

Lemma hexToRgb_toUpperCase_witness :
  hexToRgb "#AABBCC" = hexToRgb "#aabbcc".
Proof.
  exact (hexToRgb_toUpperCase "#aabbcc" eq_refl).
Defined.

Lemma channelHex_digits_all : forallb hexPairRoundTrips byteRange = true.
Proof. vm_compute. reflexivity. Qed.

Lemma channelHex_digits (n : Z) :
  0 <= n <= 255 ->
  channelHex (JS.ofZ n)
  = String (JS.hexDigit (n / 16)) (String (JS.hexDigit (n mod 16)) EmptyString).
Proof.
  intros Hn. pose proof channelHex_digits_all as H.
  rewrite forallb_forall in H. specialize (H n (byteRange_spec n Hn)).
  now apply String.eqb_eq in H.
Qed.

Lemma upperChar_hexDigit (c : ascii) (v : Z) :
  JS.hexVal c = Some v -> JS.upperChar (JS.hexDigit v) = JS.upperChar c.
Proof.
  destruct c as [[] [] [] [] [] [] [] []]; cbn; intros H; inversion H; reflexivity.
Qed.

Lemma channelHex_parseInt16 (c1 c2 : ascii) (v : float) :
  JS.parseInt16 c1 c2 = Some v ->
  JS.toUpperCase (channelHex v)
  = String (JS.upperChar c1) (String (JS.upperChar c2) EmptyString).
Proof.
  unfold JS.parseInt16.
  destruct (JS.hexVal c1) as [h1|] eqn:E1; [|discriminate].
  destruct (JS.hexVal c2) as [l1|] eqn:E2; [|discriminate].
  intros H. inversion H. subst v. clear H.
  pose proof (hexVal_range _ _ E1). pose proof (hexVal_range _ _ E2).
  rewrite channelHex_digits by lia.
  replace ((16 * h1 + l1) / 16) with h1 by (apply Z.div_unique with l1; lia).
  replace ((16 * h1 + l1) mod 16) with l1 by (apply Z.mod_unique with h1; lia).
  cbn [JS.toUpperCase]. now rewrite (upperChar_hexDigit _ _ E1), (upperChar_hexDigit _ _ E2).
Qed.

Lemma toUpperCase_append (s t : string) :
  JS.toUpperCase (s ++ t) = (JS.toUpperCase s ++ JS.toUpperCase t)%string.
Proof.
  induction s as [|c s IH]; [reflexivity|].
  change (String c s ++ t)%string with (String c (s ++ t)).
  cbn [JS.toUpperCase]. rewrite IH. reflexivity.
Qed.

(** X3: printing what [hexToRgb] read gives the text back: up to the case of
    the digits, [rgbToHex] of the channels is [#] and the six digits that
    were read. *)
Theorem rgbToHex_hexToRgb (c : string) (v : rgb) :
  hexToRgb c = Some v ->
  JS.toUpperCase (rgbToHex (r v) (g v) (b v))
  = String "#"%char (JS.toUpperCase (hexBody c)).
Proof.
  rewrite hexToRgb_body.
  destruct (hexBody c) as [|c1 [|c2 [|c3 [|c4 [|c5 [|c6 [|c7 rest]]]]]]];
    try discriminate.
  destruct (JS.parseInt16 c1 c2) as [vr|] eqn:Er; [|discriminate].
  destruct (JS.parseInt16 c3 c4) as [vg|] eqn:Eg; [|discriminate].
  destruct (JS.parseInt16 c5 c6) as [vb|] eqn:Eb; [|discriminate].
  intros H. inversion H. subst v. clear H. cbn [r g b].
  rewrite rgbToHex_unfold. cbn [JS.toUpperCase].
  rewrite !toUpperCase_append.
  rewrite (channelHex_parseInt16 _ _ _ Er), (channelHex_parseInt16 _ _ _ Eg),
    (channelHex_parseInt16 _ _ _ Eb).
  reflexivity.
Qed.

Lemma rgbToHex_hexToRgb_witness :
  JS.toUpperCase (rgbToHex 170 187 204) = "#AABBCC"%string.
Proof.
  exact (rgbToHex_hexToRgb "AaBbCc" (mkRgb 170 187 204) eq_refl).
Defined.

(** ** Sorting what is sorted *)

Section SortFixed.
Context {A : Type} (comparefn : A -> A -> completion float).
Context (key : A -> Z) (good : A -> Prop).
Hypothesis comparefn_key :
  forall x y, good x -> good y ->
    exists v, comparefn x y = Normal v /\ JS.gt v 0 = (key y <? key x).

Lemma sortInsert_least (x : A) (sorted : list A) :
  good x -> Forall good sorted -> Forall (keyLe key x) sorted ->
  sortInsert comparefn x sorted = Normal (x :: sorted).
Proof.
  intros Gx Gs Hx. destruct sorted as [|y rest]; [reflexivity|].
  apply Forall_cons in Gs as [Gy _]. apply Forall_cons in Hx as [Hxy _].
  destruct (comparefn_key x y Gx Gy) as (v & Ev & Hv).
  cbn [sortInsert]. rewrite Ev. cbn [cbind]. rewrite Hv.
  unfold keyLe in Hxy. destruct (Z.ltb_spec (key y) (key x)); [lia|reflexivity].
Qed.

Lemma sortWith_sorted (l : list A) :
  Forall good l -> StronglySorted (keyLe key) l -> sortWith comparefn l = Normal l.
Proof.
  intros Gl Sl. induction l as [|x l IH]; [reflexivity|].
  apply Forall_cons in Gl as [Gx Gl]. apply StronglySorted_inv in Sl as [Sl Hx].
  cbn [sortWith]. rewrite (IH Gl Sl). cbn [cbind].
  now apply sortInsert_least.
Qed.
End SortFixed.

(** X4: sorting the display order again changes nothing: on a palette of
    colours, [sortByHue] of the array [sortByHue] made holds the same
    colours in the same order, and the arrays sorted are left as they
    were. *)
Theorem sortByHue_idempotent (st : state) (a : loc) :
  a ∈ dom (heap st) ->
  Forall (fun c => isColor c = true) (arr st a) ->
  exists a1 a2 st1 st2,
    sortByHue a st = (Normal a1, st1)
    /\ sortByHue a1 st1 = (Normal a2, st2)
    /\ a2 <> a1
    /\ arr st2 a2 = arr st1 a1
    /\ arr st2 a1 = arr st1 a1
    /\ arr st2 a = arr st a.
Proof.
  intros Ha Hgood.
  destruct (sortWith_spec hueCompare hueKey (fun c => isColor c = true)
              hueCompare_key (arr st a) Hgood) as (sorted & E & P & S & _).
  assert (Gs : Forall (fun c => isColor c = true) sorted)
    by exact (Permutation_Forall P Hgood).
  pose proof (sortWith_sorted hueCompare hueKey (fun c => isColor c = true)
                hueCompare_key sorted Gs S) as E2.
  assert (Hne : a <> fresh (dom (heap st))) by now apply in_dom_not_fresh.
  rewrite sortByHue_run. cbv zeta. rewrite E.
  set (a1 := fresh (dom (heap st))).
  change (a <> a1) in Hne.
  set (st1 := set_heap _ (set_heap _ st)).
  assert (A1 : arr st1 a1 = sorted) by (subst st1; apply arr_insert_eq).
  assert (A0 : arr st1 a = arr st a)
    by (subst st1; now rewrite !arr_insert_ne by congruence).
  assert (D1 : a1 ∈ dom (heap st1)) by (subst st1; cbn; apply in_dom_insert_eq).
  assert (D0 : a ∈ dom (heap st1)) by (subst st1; cbn; auto using in_dom_insert).
  clearbody st1.
  assert (N1 : a1 <> fresh (dom (heap st1))) by now apply in_dom_not_fresh.
  assert (N0 : a <> fresh (dom (heap st1))) by now apply in_dom_not_fresh.
  exists a1, (fresh (dom (heap st1))). do 2 eexists.
  split; [reflexivity|].
  rewrite sortByHue_run. cbv zeta. rewrite A1, E2.
  split; [reflexivity|]. split; [congruence|].
  rewrite arr_insert_eq, !arr_insert_ne by congruence.
  rewrite A1. auto.
Qed.

Lemma sortByHue_idempotent_witness :
  exists a1 a2 st1 st2,
    sortByHue 0%nat (pageWith tiedPalette) = (Normal a1, st1)
    /\ sortByHue a1 st1 = (Normal a2, st2)
    /\ arr st2 a2 = arr st1 a1.
Proof.
  destruct (sortByHue_idempotent (pageWith tiedPalette) 0%nat)
    as (a1 & a2 & st1 & st2 & E1 & E2 & _ & A & _).
  - apply (proj1 (proj1 (pageWith_inv tiedPalette))).
  - repeat constructor.
  - exists a1, a2, st1, st2. auto.
Defined.

(** ** Rendering and picking *)

Lemma rgbToHex_bytes_isColor (vr vg vb : float) :
  isByteNumber vr -> isByteNumber vg -> isByteNumber vb ->
  isColor (rgbToHex vr vg vb) = true.
Proof.
  intros (nr & Hr & ->) (ng & Hg & ->) (nb & Hb & ->).
  rewrite rgbToHex_unfold, isColor_channels by (apply channelHex_length; lia).
  rewrite !channelHex_twoHex by lia.
  repeat (apply andb_true_intro; split); apply Z.leb_le; lia.
Qed.

Lemma sampleArea_bytes (img : image) (x y : float) :
  inBounds img x y = true ->
  isByteNumber (r (sampleArea img x y))
  /\ isByteNumber (g (sampleArea img x y))
  /\ isByteNumber (b (sampleArea img x y)).
Proof.
  intros Hin.
  destruct (sampleSums_count img x y Hin) as [(Hc & Hr & Hg & Hb) Hcount].
  rewrite sampleArea_means. cbn [r g b].
  repeat split; now apply roundedMean_byte.
Qed.

Lemma pickedHex_isColor (st : state) (e : mouseEvent) (img : image) :
  currentImage st = Some img ->
  mutates (OpPick e) st = true ->
  viewportDefined st e = true ->
  isColor (pickedHex st e img) = true.
Proof.
  intros Himg Hm Hv. unfold pickedHex, rgbHex.
  destruct (sampleArea_bytes _ _ _ (pick_floor_inBounds st e img Himg Hm Hv))
    as (Hr & Hg & Hb).
  now apply rgbToHex_bytes_isColor.
Qed.

(** [renderPalette] on a palette of colours: the blocks are the palette in hue order. *)
Lemma renderPalette_run (animateNew : bool) (st : state) :
  colors st ∈ dom (heap st) ->
  Forall (fun c => isColor c = true) (palette st) ->
  exists st',
    renderPalette animateNew st = (Normal tt, st')
    /\ Permutation (palette st) (blocks st')
    /\ StronglySorted hueLe (blocks st')
    /\ (forall c, List.filter (sameHue c) (blocks st') = List.filter (sameHue c) (palette st)).
Proof.
  intros Hc Hgood.
  destruct (sortWith_spec hueCompare hueKey (fun c => isColor c = true)
              hueCompare_key (palette st) Hgood) as (sorted & E & P & S & F).
  assert (Gs : Forall (fun c => isColor c = true) sorted)
    by exact (Permutation_Forall P Hgood).
  unfold renderPalette, bind at 1, get. cbn beta iota.
  unfold bind at 1. rewrite sortByHue_run. cbv zeta.
  fold (palette st). rewrite E.
  unfold bind at 1, Array_read. rewrite arr_insert_eq.
  unfold bind at 1, modify. unfold bind at 1, get.
  set (st1 := set_blocks sorted _).
  assert (B : forall st2, blocks st2 = sorted ->
            Permutation (palette st) (blocks st2)
            /\ StronglySorted hueLe (blocks st2)
            /\ (forall c, List.filter (sameHue c) (blocks st2)
                          = List.filter (sameHue c) (palette st))).
  { intros st2 ->. split; [exact P|]. split.
    - now apply (StronglySorted_weaken _ _ _ _ hueLe_key Gs).
    - intros c. destruct (is_nan (hueOf c)) eqn:Nc.
      + rewrite (List.filter_ext_in (sameHue c) (fun _ => false) sorted),
          (List.filter_ext_in (sameHue c) (fun _ => false) (palette st))
          by (intros; now apply sameHue_nan).
        clear. induction sorted as [|x xs IH]; induction (palette st) as [|y ys IHy];
          cbn in *; auto.
      + rewrite (List.filter_ext_in (sameHue c) (sameKey hueKey (hueKey c)) sorted),
          (List.filter_ext_in (sameHue c) (sameKey hueKey (hueKey c)) (palette st)).
        * apply F.
        * intros x Hx. apply sameHue_key; [exact Nc|].
          rewrite List.Forall_forall in Hgood. auto.
        * intros x Hx. apply sameHue_key; [exact Nc|].
          rewrite List.Forall_forall in Gs. auto. }
  destruct (negb (Nat.eqb (List.length (palette st1)) 0) && negb (hasEverHadColors st1));
    eexists; (split; [reflexivity|]); apply B; reflexivity.
Qed.

Lemma pick_appends (e : mouseEvent) (st : state) (img : image) :
  wf st ->
  Forall (fun c => isColor c = true) (palette st) ->
  currentImage st = Some img ->
  mutates (OpPick e) st = true ->
  viewportDefined st e = true ->
  exists st',
    pickColorAtPoint e st = (Normal tt, st')
    /\ palette st' = palette st ++ [pickedHex st e img]
    /\ isColor (pickedHex st e img) = true
    /\ Z.of_nat (List.length (palette st')) <= MAX_COLORS
    /\ Permutation (palette st') (blocks st')
    /\ StronglySorted hueLe (blocks st').
Proof.
  intros W Hgood Himg Hm Hv.
  pose proof (pickedHex_isColor st e img Himg Hm Hv) as Hhex.
  pose proof Hm as Hm'. cbn [mutates] in Hm'. rewrite Himg in Hm'.
  apply andb_prop in Hm' as [Hcap Hin]. apply negb_true_iff in Hcap, Hin.
  rewrite (pickColorAtPoint_run e st img Himg Hcap Hin).
  rewrite (afterSave_palette st W).
  set (st2 := set_heap _ (afterSave st)).
  assert (Hc2 : colors st2 ∈ dom (heap st2)).
  { subst st2. cbn. apply in_dom_insert_eq. }
  assert (P2 : palette st2 = palette st ++ [pickedHex st e img]).
  { subst st2. unfold palette at 1. cbn [colors set_heap].
    change (colors (afterSave st)) with (colors st). apply arr_insert_eq. }
  assert (G2 : Forall (fun c => isColor c = true) (palette st2)).
  { rewrite P2. apply Forall_app. split; [exact Hgood|]. now constructor. }
  destruct (renderPalette_run true st2 Hc2 G2) as (st' & E & P & S & _).
  pose proof (renderPalette_palette true st2 Hc2) as (P' & _).
  rewrite E in P'. cbn [snd] in P'.
  exists st'. split; [exact E|]. rewrite P', P2.
  split; [reflexivity|]. split; [exact Hhex|]. split.
  - rewrite length_app. cbn [List.length].
    rewrite Z.geb_leb in Hcap. apply Z.leb_gt in Hcap. unfold MAX_COLORS in *. lia.
  - rewrite <- P2. split; [rewrite <- P'; rewrite P'; exact P|exact S].
Qed.

(** ** Undo after a change *)

Lemma pushBounded_snoc {A : Type} (x : A) (stack : list A) :
  pushBounded x stack = keptBelow stack ++ [x].
Proof.
  unfold pushBounded, keptBelow, MAX_UNDO_STACK. rewrite length_app. cbn [List.length].
  destruct (Z.gtb_spec (Z.of_nat (List.length stack + 1)) 10),
    (Z.ltb_spec (Z.of_nat (List.length stack)) 10); try lia; [|reflexivity].
  destruct stack; [cbn in *; lia|reflexivity].
Qed.

Section UndoRestores.
Variable getPalette : image -> Z -> completion (list (float * float * float)).


Lemma undo_top (st : state) (below : list (list string)) (top : list string) :
  wf st -> history st = below ++ [top] ->
  palette (snd (undo st)) = top /\ history (snd (undo st)) = below.
Proof.
  intros W Hh.
  destruct (list_last_case (undoStack st)) as [E|(ub & ut & E)].
  - unfold history in Hh. rewrite E in Hh. now destruct below.
  - destruct (undo_step st ub ut W E) as (_ & _ & P & H).
    unfold history in Hh. rewrite E, map_app in Hh. cbn [List.map] in Hh.
    apply app_inj_tail in Hh as [Hb Ht]. split; congruence.
Qed.

End UndoRestores.


(** ** Removing a colour *)

Lemma indexOf_In (x : string) (l : list string) :
  In x l -> exists i, indexOf x l = Some i.
Proof.
  induction l as [|y l IH]; cbn; [tauto|].
  intros Hin. destruct (String.eqb_spec y x) as [->|Hne]; [eauto|].
  destruct Hin as [E|Hin]; [congruence|].
  destruct (IH Hin) as [i ->]. cbn. eauto.
Qed.

Lemma indexOf_absent (x : string) (l : list string) :
  ~ In x l -> indexOf x l = None.
Proof.
  induction l as [|y l IH]; cbn; [reflexivity|].
  intros Hn. destruct (String.eqb_spec y x) as [->|Hne]; [tauto|].
  rewrite IH by tauto. reflexivity.
Qed.

Lemma indexOf_first (x : string) (l : list string) (i : nat) :
  indexOf x l = Some i ->
  nth_error l i = Some x
  /\ ~ In x (firstn i l)
  /\ firstn i l ++ skipn (S i) l = removeFirst x l.
Proof.
  revert i. induction l as [|y l IH]; intros i; cbn [indexOf]; [discriminate|].
  cbn [removeFirst].
  destruct (String.eqb_spec y x) as [->|Hne].
  - intros [= <-]. cbn. tauto.
  - destruct (indexOf x l) as [j|]; [|discriminate].
    cbn [option_map]. intros [= <-].
    destruct (IH j eq_refl) as (N & F & R).
    cbn [nth_error firstn skipn app]. split; [exact N|]. split.
    + intros [E|Hin]; [congruence|tauto].
    + rewrite <- R. reflexivity.
Qed.

Lemma splice_render_palette (st : state) (i : nat) :
  colors st ∈ dom (heap st) ->
  palette (snd (bind (Array_splice1 (colors st) i) (fun _ => renderPalette false) st))
  = firstn i (palette st) ++ skipn (S i) (palette st).
Proof.
  intros Hc. unfold Array_splice1, Array_read, Array_write, bind, modify.
  cbn beta iota.
  set (st1 := set_heap _ st).
  assert (Hc1 : colors st1 ∈ dom (heap st1)) by (subst st1; cbn; apply in_dom_insert_eq).
  destruct (renderPalette_palette false st1 Hc1) as (P & _).
  rewrite P. subst st1. unfold palette. cbn [colors set_heap]. apply arr_insert_eq.
Qed.

Section Removal.
Variable getPalette : image -> Z -> completion (list (float * float * float)).

Lemma nth_error_last {A : Type} (l : list A) (x : A) :
  nth_error (l ++ [x]) (List.length l) = Some x.
Proof. induction l; cbn; auto. Qed.

(** X6: [removeColor] of a colour that is not in the palette does nothing;
    of one that is, it removes its first occurrence in manual order, at once
    or when the timer of the animation fires, and the history gains the
    palette as it was. *)
Theorem removeColor_first (hex : string) (index : nat) (st : state) :
  inv st ->
  (~ In hex (palette st) -> removeColor hex index st = (Normal tt, st))
  /\ (In hex (palette st) ->
      palette (afterRemoval getPalette hex index st) = removeFirst hex (palette st)
      /\ history (afterRemoval getPalette hex index st)
         = pushBounded (palette st) (history st)).
Proof.
  intros I. split.
  - intros Hn. unfold removeColor, bind, get. now rewrite (indexOf_absent _ _ Hn).
  - intros Hin. destruct (indexOf_In _ _ Hin) as [i Hi].
    destruct (indexOf_first _ _ _ Hi) as (_ & _ & <-).
    assert (Hm : mutates (OpRemove hex index) st = true)
      by (cbn [mutates]; now rewrite Hi).
    destruct (mutating_history getPalette _ _ I Hm) as (Hh & I1 & _).
    cbn [perform] in Hh, I1.
    pose proof I as [W _].
    assert (Hc' : colors (afterSave st) ∈ dom (heap (afterSave st))).
    { cbn. apply in_dom_insert, W. }
    assert (E : removeColor hex index st
                = match nth_error (blocks st) index with
                  | Some _ => (Normal tt, add_task (SpliceTask i) (afterSave st))
                  | None => bind (Array_splice1 (colors st) i)
                                 (fun _ => renderPalette false) (afterSave st)
                  end).
    { unfold removeColor, bind at 1, get. cbn beta iota. rewrite Hi.
      rewrite (snd_bind_Normal _ _ _ _ _ (saveState_run st)).
      destruct (nth_error (blocks st) index); reflexivity. }
    unfold afterRemoval. rewrite E in *.
    destruct (nth_error (blocks st) index) as [blockToRemove|]; cbn [snd] in *.
    + set (st1 := add_task (SpliceTask i) (afterSave st)) in *.
      assert (T : nth_error (tasks st1) (List.length (tasks st)) = Some (SpliceTask i))
        by apply nth_error_last.
      assert (Hq : mutates (OpTimer (List.length (tasks st))) st1 = false)
        by (cbn [mutates]; now rewrite T).
      destruct (nonmutating_history getPalette (OpTimer (List.length (tasks st))) st1 I1
                  eq_refl Hq) as (Hh2 & _).
      cbn [perform] in Hh2. split; [|congruence].
      rewrite (fire_run getPalette _ _ _ T). cbn [runTask].
      unfold bind at 1, get. cbn beta iota.
      set (st2 := set_tasks _ st1).
      rewrite (splice_render_palette st2 i Hc').
      change (palette st2) with (palette (afterSave st)).
      now rewrite afterSave_palette.
    + split; [|exact Hh].
      change (colors st) with (colors (afterSave st)).
      rewrite (splice_render_palette (afterSave st) i Hc').
      now rewrite afterSave_palette.
Qed.
End Removal.

Lemma removeColor_first_witness :
  palette (afterRemoval noExtractor "#aabbcc" 0 (pageWith examplePalette))
  = removeFirst "#aabbcc" examplePalette.
Proof.
  destruct (removeColor_first noExtractor "#aabbcc" 0 (pageWith examplePalette)
              (pageWith_inv examplePalette)) as [_ H].
  destruct H as [P _]; [left; reflexivity|exact P].
Defined.

Section RemovalTimers.
Variable getPalette : image -> Z -> completion (list (float * float * float)).

Lemma removeColor_deferred (hex : string) (index i : nat) (st : state) (blk : string) :
  indexOf hex (palette st) = Some i ->
  nth_error (blocks st) index = Some blk ->
  removeColor hex index st = (Normal tt, add_task (SpliceTask i) (afterSave st)).
Proof.
  intros Hi Hb. unfold removeColor, bind at 1, get. cbn beta iota. rewrite Hi.
  rewrite (snd_bind_Normal _ _ _ _ _ (saveState_run st)). now rewrite Hb.
Qed.

Lemma fire_splice (n i : nat) (st : state) :
  colors st ∈ dom (heap st) ->
  nth_error (tasks st) n = Some (SpliceTask i) ->
  let st' := snd (fire getPalette n st) in
  palette st' = firstn i (palette st) ++ skipn (S i) (palette st)
  /\ tasks st' = firstn n (tasks st) ++ skipn (S n) (tasks st)
  /\ colors st' ∈ dom (heap st').
Proof.
  intros Hc T st'. subst st'. rewrite (fire_run getPalette _ _ _ T). cbn [runTask].
  unfold bind at 1 2 3, get. cbn beta iota.
  set (st1 := set_tasks _ st).
  pose proof (splice_render_palette st1 i Hc) as P.
  unfold bind at 1 in P. split; [exact P|].
  unfold Array_splice1, Array_read, Array_write, bind, modify. cbn beta iota.
  set (st2 := set_heap _ st1).
  assert (Hc2 : colors st2 ∈ dom (heap st2)) by (subst st2; cbn; apply in_dom_insert_eq).
  destruct (renderPalette_palette false st2 Hc2) as (_ & _ & T2 & _).
  destruct (renderPalette_step false st2 Hc2) as (_ & _ & _ & _ & D).
  split; [exact T2|exact D].
Qed.
End RemovalTimers.

Lemma indexOf_app (x : string) (l1 l2 : list string) :
  ~ In x l1 -> indexOf x (l1 ++ x :: l2) = Some (List.length l1).
Proof.
  induction l1 as [|y l1 IH]; cbn; intros Hn.
  - now rewrite String.eqb_refl.
  - destruct (String.eqb_spec y x) as [->|Hne]; [tauto|].
    rewrite IH by tauto. reflexivity.
Qed.

Lemma firstn_length_app {A : Type} (l1 l2 : list A) :
  firstn (List.length l1) (l1 ++ l2) = l1.
Proof. induction l1 as [|x l1 IH]; [reflexivity|]. cbn [List.length app firstn]. now rewrite IH. Qed.

Lemma skipn_length_app {A : Type} (l1 l2 : list A) :
  skipn (List.length l1) (l1 ++ l2) = l2.
Proof. induction l1 as [|x l1 IH]; [reflexivity|exact IH]. Qed.

Lemma splice_at {A : Type} (l1 l2 : list A) (x : A) :
  firstn (List.length l1) (l1 ++ x :: l2) ++ skipn (S (List.length l1)) (l1 ++ x :: l2)
  = l1 ++ l2.
Proof.
  rewrite firstn_length_app. f_equal.
  change (S (List.length l1)) with (1 + List.length l1)%nat.
  now rewrite <- skipn_skipn, skipn_length_app.
Qed.

Section StaleIndex.
Variable getPalette : image -> Z -> completion (list (float * float * float)).

(** X7: the timer of a removal splices at the index found when the block
    was clicked.  When two colours are removed before the first timer
    fires, and the second stood after the first, the second timer finds
    the palette shifted: the colour after the second one is removed and the
    second stays. *)
Theorem removeColor_twice_stale (st : state) (a b blkA blkB : string)
    (indexA indexB : nat) (l1 l2 l3 : list string) :
  wf st ->
  palette st = l1 ++ a :: l2 ++ b :: l3 ->
  ~ In a l1 -> ~ In b (l1 ++ a :: l2) ->
  nth_error (blocks st) indexA = Some blkA ->
  nth_error (blocks st) indexB = Some blkB ->
  let n := List.length (tasks st) in
  palette (performAll getPalette
             [OpRemove a indexA; OpRemove b indexB; OpTimer n; OpTimer n] st)
  = l1 ++ l2 ++ b :: tl l3.
Proof.
  intros W P Ha Hb BA BB n.
  assert (IA : indexOf a (palette st) = Some (List.length l1))
    by (rewrite P; now apply indexOf_app).
  assert (IB : indexOf b (palette st) = Some (List.length (l1 ++ a :: l2))).
  { rewrite P. change (l1 ++ a :: l2 ++ b :: l3) with (l1 ++ (a :: l2) ++ b :: l3).
    rewrite app_assoc. now apply indexOf_app. }
  cbn [performAll perform].
  rewrite (removeColor_deferred a indexA _ st blkA IA BA). cbn [snd].
  set (st1 := add_task _ (afterSave st)).
  assert (W1 : wf st1) by (apply (afterSave_wf st W)).
  assert (P1 : palette st1 = palette st) by (apply (afterSave_palette st W)).
  rewrite (removeColor_deferred b indexB (List.length (l1 ++ a :: l2)) st1 blkB);
    [|now rewrite P1|exact BB].
  cbn [snd]. set (st2 := add_task _ (afterSave st1)).
  assert (W2 : wf st2) by (apply (afterSave_wf st1 W1)).
  assert (P2 : palette st2 = palette st).
  { rewrite <- P1. apply (afterSave_palette st1 W1). }
  assert (T2 : tasks st2 = tasks st ++ [SpliceTask (List.length l1);
                                        SpliceTask (List.length (l1 ++ a :: l2))]).
  { subst st2 st1. cbn. now rewrite <- app_assoc. }
  assert (N2 : nth_error (tasks st2) n = Some (SpliceTask (List.length l1))).
  { rewrite T2. subst n. rewrite nth_error_app2, Nat.sub_diag by lia. reflexivity. }
  destruct (fire_splice getPalette n _ st2 (proj1 W2) N2) as (P3 & T3 & C3).
  set (st3 := snd (fire getPalette n st2)) in *.
  rewrite P2, P, splice_at in P3.
  assert (N3 : nth_error (tasks st3) n = Some (SpliceTask (List.length (l1 ++ a :: l2)))).
  { rewrite T3, T2. subst n. rewrite splice_at.
    rewrite nth_error_app2, Nat.sub_diag by lia. reflexivity. }
  destruct (fire_splice getPalette n _ st3 C3 N3) as (P4 & _).
  rewrite P4, P3.
  replace (List.length (l1 ++ a :: l2)) with (List.length (l1 ++ l2 ++ [b]))
    by (repeat (rewrite length_app; cbn [List.length]); lia).
  assert (E : l1 ++ l2 ++ b :: l3 = (l1 ++ l2 ++ [b]) ++ l3)
    by (now rewrite <- !app_assoc).
  rewrite E at 1 2. rewrite firstn_length_app.
  change (S (List.length (l1 ++ l2 ++ [b]))) with (1 + List.length (l1 ++ l2 ++ [b]))%nat.
  rewrite <- skipn_skipn, skipn_length_app.
  rewrite <- !app_assoc. cbn [app]. now destruct l3.
Qed.
End StaleIndex.

Lemma removeColor_twice_stale_witness :
  palette (performAll noExtractor
             [OpRemove "#ff0000" 0; OpRemove "#00ff00" 1; OpTimer 0; OpTimer 0]
             (shownPage threeColors))
  = ["#00ff00"]%string.
Proof.
  apply (removeColor_twice_stale noExtractor (shownPage threeColors)
           "#ff0000" "#00ff00" "#ff0000" "#00ff00" 0 1 [] [] ["#0000ff"%string]).
  - apply shownPage_inv.
  - vm_compute. reflexivity.
  - intros [].
  - intros [H|[]]. discriminate H.
  - vm_compute. reflexivity.
  - vm_compute. reflexivity.
Defined.

Lemma undo_tasks (st : state) :
  wf st -> tasks (snd (undo st)) = tasks st.
Proof.
  intros W. destruct (list_last_case (undoStack st)) as [E|(below & top & E)].
  - now rewrite (undo_empty st E).
  - rewrite (undo_run st below top E).
    set (st2 := set_undoDisabled _ _).
    assert (Hc2 : colors st2 ∈ dom (heap st2)).
    { subst st2. cbn. destruct W as (_ & Hu & _). rewrite E in Hu.
      apply Forall_app in Hu as [_ Ht]. now apply Forall_cons in Ht as [Ht _]. }
    destruct (renderPalette_palette true st2 Hc2) as (_ & _ & T & _).
    unfold bind. destruct (renderPalette true st2) as [[u|err] st3]; exact T.
Qed.

Section UndoBeforeTimer.
Variable getPalette : image -> Z -> completion (list (float * float * float)).

(** X8: an [undo] between the click on a block and its timer does not keep
    the colour: the timer then splices the restored palette, and the
    snapshot has been used up. *)
Theorem removeColor_undo_timer (st : state) (hex blk : string) (index : nat) :
  inv st ->
  In hex (palette st) ->
  nth_error (blocks st) index = Some blk ->
  let st' := performAll getPalette
               [OpRemove hex index; OpUndo; OpTimer (List.length (tasks st))] st in
  palette st' = removeFirst hex (palette st)
  /\ history st' = keptBelow (history st).
Proof.
  intros I Hin Hb st'. subst st'.
  destruct (indexOf_In _ _ Hin) as [i Hi].
  destruct (indexOf_first _ _ _ Hi) as (_ & _ & <-).
  assert (Hm : mutates (OpRemove hex index) st = true)
    by (cbn [mutates]; now rewrite Hi).
  destruct (mutating_history getPalette _ _ I Hm) as (Hh & I1 & _).
  cbn [performAll perform] in *.
  rewrite (removeColor_deferred hex index i st blk Hi Hb) in *. cbn [snd] in *.
  set (st1 := add_task _ (afterSave st)) in *.
  rewrite pushBounded_snoc in Hh.
  destruct (undo_top st1 _ _ (proj1 I1) Hh) as [P2 H2].
  destruct (undo_inv st1 I1) as [I2 _].
  pose proof (undo_tasks st1 (proj1 I1)) as T2.
  set (st2 := snd (undo st1)) in *.
  assert (N2 : nth_error (tasks st2) (List.length (tasks st)) = Some (SpliceTask i)).
  { rewrite T2. apply nth_error_last. }
  assert (Hq : mutates (OpTimer (List.length (tasks st))) st2 = false)
    by (cbn [mutates]; now rewrite N2).
  destruct (nonmutating_history getPalette (OpTimer (List.length (tasks st))) st2 I2
              eq_refl Hq) as (Hh3 & _).
  cbn [perform] in Hh3.
  destruct (fire_splice getPalette _ _ st2 (proj1 (proj1 I2)) N2) as (P3 & _).
  split; congruence.
Qed.
End UndoBeforeTimer.

Lemma removeColor_undo_timer_witness :
  palette (performAll noExtractor [OpRemove "#ff0000" 0; OpUndo; OpTimer 0]
             (shownPage threeColors))
  = removeFirst "#ff0000" (palette (shownPage threeColors)).
Proof.
  destruct (removeColor_undo_timer noExtractor (shownPage threeColors)
              "#ff0000" "#ff0000" 0 (shownPage_inv threeColors)) as [P _].
  - vm_compute. left. reflexivity.
  - vm_compute. reflexivity.
  - exact P.
Defined.

(** ** The basic prefill, and an extractor that fails *)

Lemma renderPalette_alerts (animateNew : bool) (st : state) :
  alerts (snd (renderPalette animateNew st)) = alerts st.
Proof.
  unfold renderPalette, bind, get. rewrite sortByHue_run. cbv zeta.
  destruct (sortWith hueCompare (arr st (colors st))) as [sorted|e]; [|reflexivity].
  unfold Array_read, modify, updateUndoButton, ret. cbn.
  destruct (_ && _); reflexivity.
Qed.

Section PrefillResults.
Variable getPalette : image -> Z -> completion (list (float * float * float)).

Lemma map_hexOfTriple (pal : list (float * float * float)) :
  List.map (fun '(r, g, b) => rgbToHex r g b) pal = List.map hexOfTriple pal.
Proof. apply map_ext. now intros [[r g] b]. Qed.

Lemma prefill_basic_failure_run (img : image) (st : state) (err : string) :
  getPalette img 20 = Throw err ->
  prefillPaletteFromImage getPalette (Some img) st
  = (Normal tt, add_alert msgExtractFailed (afterSave st)).
Proof.
  intros Hp. unfold prefillPaletteFromImage, try_catch.
  rewrite (snd_bind_Normal _ _ _ _ _ (saveState_run st)).
  unfold bind at 1, lift. now rewrite Hp.
Qed.

Lemma prefill_advanced_failure_run (img : image) (st : state) (err : string) :
  getPalette img 5 = Throw err ->
  prefillAdvancedPaletteFromImage getPalette (Some img) st
  = (Normal tt, add_alert msgExtractFailed (afterSave st)).
Proof.
  intros Hp. unfold prefillAdvancedPaletteFromImage, try_catch.
  rewrite (snd_bind_Normal _ _ _ _ _ (saveState_run st)).
  unfold bind at 1, lift. now rewrite Hp.
Qed.

(** X9: when the extractor fails, the basic and the advanced prefill end
    normally with the alert, the palette is as it was, and the history has
    none the less gained a snapshot of it. *)
Theorem prefill_failure_snapshot (img : image) (st : state) (err : string) :
  wf st ->
  (getPalette img 20 = Throw err ->
   let st' := snd (prefillPaletteFromImage getPalette (Some img) st) in
   fst (prefillPaletteFromImage getPalette (Some img) st) = Normal tt
   /\ alerts st' = alerts st ++ [msgExtractFailed]
   /\ palette st' = palette st
   /\ history st' = pushBounded (palette st) (history st))
  /\ (getPalette img 5 = Throw err ->
      let st' := snd (prefillAdvancedPaletteFromImage getPalette (Some img) st) in
      fst (prefillAdvancedPaletteFromImage getPalette (Some img) st) = Normal tt
      /\ alerts st' = alerts st ++ [msgExtractFailed]
      /\ palette st' = palette st
      /\ history st' = pushBounded (palette st) (history st)).
Proof.
  intros W. split; intros Hp st'; subst st'.
  - rewrite (prefill_basic_failure_run img st err Hp). cbn [fst snd].
    split; [reflexivity|]. split; [reflexivity|]. split.
    + apply (afterSave_palette st W).
    + apply (afterSave_history st W).
  - rewrite (prefill_advanced_failure_run img st err Hp). cbn [fst snd].
    split; [reflexivity|]. split; [reflexivity|]. split.
    + apply (afterSave_palette st W).
    + apply (afterSave_history st W).
Qed.

Lemma hexOfTriple_isColor (pal : list (float * float * float)) :
  Forall byteTriple pal ->
  Forall (fun c => isColor c = true) (List.map hexOfTriple pal).
Proof.
  intros H. apply Forall_map. apply (List.Forall_impl (P := byteTriple)); [|exact H].
  intros [[vr vg] vb] (Hr & Hg & Hb). now apply rgbToHex_bytes_isColor.
Qed.

Lemma prefill_basic_state (img : image) (st : state)
    (pal : list (float * float * float)) :
  getPalette img 20 = Normal pal ->
  exists st2,
    colors st2 ∈ dom (heap st2)
    /\ palette st2 = List.map hexOfTriple pal
    /\ alerts st2 = alerts st
    /\ prefillPaletteFromImage getPalette (Some img) st
       = try_catch (renderPalette true) (alert msgExtractFailed) st2.
Proof.
  intros Hp. eexists. split; [|split; [|split]]; cycle 3.
  - unfold prefillPaletteFromImage, try_catch at 1.
    rewrite (snd_bind_Normal _ _ _ _ _ (saveState_run st)).
    unfold bind at 1, lift. rewrite Hp.
    unfold Array_new, bind at 1. unfold modify, bind at 1.
    unfold try_catch. reflexivity.
  - cbn. apply in_dom_insert_eq.
  - unfold palette. cbn [colors set_colors].
    etransitivity; [apply arr_insert_eq|apply map_hexOfTriple].
  - reflexivity.
Qed.

(** X10: the basic prefill ends normally and replaces the palette by the
    hex texts of the colours the extractor answered for 20, in its order
    and however many they are, the history gaining the palette as it was;
    when the colours are channel triples of the data model no alert is shown
    and the sidebar shows the new palette in hue order. *)
Theorem prefillPaletteFromImage_replaces (img : image) (st : state)
    (pal : list (float * float * float)) :
  inv st ->
  getPalette img 20 = Normal pal ->
  let st' := snd (prefillPaletteFromImage getPalette (Some img) st) in
  fst (prefillPaletteFromImage getPalette (Some img) st) = Normal tt
  /\ palette st' = List.map hexOfTriple pal
  /\ history st' = pushBounded (palette st) (history st)
  /\ (Forall byteTriple pal ->
      alerts st' = alerts st
      /\ Permutation (palette st') (blocks st')
      /\ StronglySorted hueLe (blocks st')).
Proof.
  intros I Hp st'. pose proof I as [W _].
  assert (Hh : history st' = pushBounded (palette st) (history st)).
  { subst st'.
    pose proof (prefillPaletteFromImage_step getPalette img st (proj1 W)) as S.
    rewrite (paletteStep_history _ _ (afterSave_wf st W) S).
    now apply afterSave_history. }
  destruct (prefill_basic_state img st pal Hp) as (st2 & Hc2 & P2 & A2 & E).
  subst st'. rewrite E. unfold try_catch.
  destruct (renderPalette_palette true st2 Hc2) as (P3 & _).
  split; [destruct (renderPalette true st2) as [[[]|err] st3]; reflexivity|].
  split; [|split].
  - destruct (renderPalette true st2) as [[u|err] st3]; cbn [snd] in *; [congruence|].
    change (palette (snd (alert msgExtractFailed st3))) with (palette st3). congruence.
  - rewrite E in Hh. exact Hh.
  - intros Hb.
    assert (G2 : Forall (fun c => isColor c = true) (palette st2))
      by (rewrite P2; now apply hexOfTriple_isColor).
    destruct (renderPalette_run true st2 Hc2 G2) as (st3 & E3 & Pm & Ss & _).
    pose proof (renderPalette_alerts true st2) as A3.
    rewrite E3 in *. cbn [snd] in *. rewrite P3. split; [congruence|]. split; assumption.
Qed.
End PrefillResults.

Lemma prefill_failure_snapshot_witness :
  history (snd (prefillPaletteFromImage noExtractor (Some redImage)
                  (pageShowing redImage examplePalette)))
  = pushBounded examplePalette [].
Proof.
  destruct (prefill_failure_snapshot noExtractor redImage
              (pageShowing redImage examplePalette) "no palette"
              (proj1 (pageShowing_inv redImage examplePalette))) as [H _].
  destruct (H eq_refl) as (_ & _ & _ & Hh). exact Hh.
Defined.

Lemma prefillPaletteFromImage_replaces_witness :
  palette (snd (prefillPaletteFromImage fixedExtractor (Some redImage)
                  (pageShowing redImage examplePalette)))
  = List.map hexOfTriple fiveColors.
Proof.
  destruct (prefillPaletteFromImage_replaces fixedExtractor redImage
              (pageShowing redImage examplePalette) fiveColors
              (pageShowing_inv redImage examplePalette) eq_refl) as (_ & P & _).
  exact P.
Defined.

(** ** The wheel *)

Lemma Math_min_ord (a b : float) :
  is_nan a = false -> is_nan b = false ->
  is_nan (JS.Math_min a b) = false
  /\ ordF (JS.Math_min a b) = Z.min (ordF a) (ordF b).
Proof.
  intros Na Nb. unfold JS.Math_min. rewrite Na, Nb. cbn [orb].
  rewrite !ltb_ordF by assumption.
  destruct (Z.ltb_spec (ordF a) (ordF b)); [split; [assumption|lia]|].
  destruct (Z.ltb_spec (ordF b) (ordF a)); [split; [assumption|lia]|].
  destruct (get_sign a); split; try assumption; lia.
Qed.

Lemma Math_max_ord (a b : float) :
  is_nan a = false -> is_nan b = false ->
  is_nan (JS.Math_max a b) = false
  /\ ordF (JS.Math_max a b) = Z.max (ordF a) (ordF b).
Proof.
  intros Na Nb. unfold JS.Math_max. rewrite Na, Nb. cbn [orb].
  rewrite !ltb_ordF by assumption.
  destruct (Z.ltb_spec (ordF a) (ordF b)); [split; [assumption|lia]|].
  destruct (Z.ltb_spec (ordF b) (ordF a)); [split; [assumption|lia]|].
  destruct (get_sign a); split; try assumption; lia.
Qed.

Lemma mul_not_nan (x y : float) :
  is_nan x = false -> isNonzeroNumber y = true -> is_nan (x * y)%float = false.
Proof.
  intros Nx Hy. apply is_nan_false. rewrite FloatAxioms.mul_spec.
  apply SFmul_not_nan; [now apply is_nan_false|].
  unfold isNonzeroNumber in Hy. unfold isNonzeroSF.
  destruct (Prim2SF y); try discriminate; exact I.
Qed.

(** X11: with an image loaded and a zoom that is a number, [handleWheel]
    leaves the zoom between [ZOOM_MIN] and [ZOOM_MAX], keeps a defined view
    defined, and changes neither the pan, the palette nor the history. *)
Theorem handleWheel_clamps (e : wheelEvent) (st : state) (img : image) :
  currentImage st = Some img ->
  is_nan (zoom st) = false ->
  let st' := snd (handleWheel e st) in
  JS.le ZOOM_MIN (zoom st') = true
  /\ JS.le (zoom st') ZOOM_MAX = true
  /\ (forall e0, viewportDefined st e0 = true -> viewportDefined st' e0 = true)
  /\ palette st' = palette st /\ history st' = history st
  /\ panX st' = panX st /\ panY st' = panY st.
Proof.
  intros Himg Nz st'. subst st'.
  unfold handleWheel, bind, get, modify. cbn beta iota. rewrite Himg. cbn [snd].
  set (delta := if JS.gt (deltaY e) 0 then _ else _).
  assert (Hd : isNonzeroNumber delta = true)
    by (subst delta; destruct (JS.gt (deltaY e) 0); vm_compute; reflexivity).
  cbn [zoom set_zoom].
  pose proof (mul_not_nan _ _ Nz Hd) as Nm.
  assert (Nmin : is_nan ZOOM_MIN = false) by reflexivity.
  assert (Nmax : is_nan ZOOM_MAX = false) by reflexivity.
  destruct (Math_min_ord _ _ Nm Nmax) as [N1 O1].
  destruct (Math_max_ord _ _ Nmin N1) as [N2 O2].
  assert (Lmm : ordF ZOOM_MIN <= ordF ZOOM_MAX).
  { apply Z.leb_le. rewrite <- leb_ordF by assumption. reflexivity. }
  assert (Pmin : 0 < ordF ZOOM_MIN).
  { pose proof (ltb_ordF 0 ZOOM_MIN eq_refl eq_refl) as H.
    change (ordF 0) with 0 in H. apply Z.ltb_lt. now rewrite <- H. }
  unfold JS.le. rewrite !leb_ordF by assumption. rewrite O2, O1.
  split; [apply Z.leb_le; lia|]. split; [apply Z.leb_le; lia|].
  split; [|repeat split].
  set (z := JS.Math_max _ _) in *.
  assert (Fz : isNonzeroNumber z = true).
  { unfold isNonzeroNumber.
    assert (Oz : ordF ZOOM_MIN <= ordF z <= ordF ZOOM_MAX) by lia.
    assert (Fmax : ordF ZOOM_MAX < beyondFinite).
    { unfold ordF.
      change (Prim2SF ZOOM_MAX) with (S754_finite false 5629499534213120 (-49)).
      apply (finite_bounds 5629499534213120 (-49)). reflexivity. }
    apply is_nan_false in N2. unfold ordF at 2 3 in Oz.
    destruct (Prim2SF z) as [sz|[|]| |sz m ez]; cbn [ordZ cond_Zopp] in Oz;
      try reflexivity; try lia. }
  intros e0. unfold viewportDefined. cbn [zoom panX panY set_zoom].
  change (getCanvasCoords (set_zoom z (set_zoom (zoom st * delta) st)) e0)
    with (getCanvasCoords st e0).
  rewrite Fz. intros H. apply andb_prop in H as [H H5]. apply andb_prop in H as [H H4].
  apply andb_prop in H as [H H3]. apply andb_prop in H as [_ H2].
  now rewrite H2, H3, H4, H5.
Qed.

Lemma handleWheel_clamps_witness :
  JS.le ZOOM_MIN (zoom (snd (handleWheel (mkWheel 120)
                               (pageShowing redImage examplePalette)))) = true.
Proof.
  destruct (handleWheel_clamps (mkWheel 120) (pageShowing redImage examplePalette)
              redImage eq_refl eq_refl) as [H _].
  exact H.
Defined.

(** ** Press, move and release *)

Lemma handleMouseDown_press (e : mouseEvent) (st : state) (img : image) :
  currentImage st = Some img -> isCropMode st = false -> button e = 0 ->
  handleMouseDown e st
  = (Normal tt, set_drag (panX st) (panY st) (clientX e) (clientY e)
                  (set_pan true false st)).
Proof.
  intros Himg Hc Hb. unfold handleMouseDown, bind, get, modify. cbn beta iota.
  rewrite Himg, Hb, Hc. cbn [Z.eqb negb]. now destruct (getCanvasCoords st e).
Qed.

Lemma handleMouseUp_released (e0 e : mouseEvent) (st : state) :
  isCropMode st = false ->
  handleMouseUp e (set_drag (panX st) (panY st) (clientX e0) (clientY e0)
                     (set_pan true false st))
  = let r := pickColorAtPoint e (released e0 st) in
    match fst r with
    | Normal _ => (Normal tt, set_pan (isPanning (snd r)) false (snd r))
    | Throw err => (Throw err, snd r)
    end.
Proof.
  intros Hc. unfold handleMouseUp, bind at 1, get. cbn beta iota.
  cbn [isCropMode set_drag set_pan cropStartX isPanning hasDragged negb].
  rewrite Hc. unfold bind, modify. cbv zeta.
  match goal with
  | |- context [pickColorAtPoint e ?x] => change x with (released e0 st)
  end.
  destruct (pickColorAtPoint e (released e0 st)) as [[u|err] st']; reflexivity.
Qed.

(** X12: a press, a move of more than [DRAG_THRESHOLD] pixels on one axis and
    a release pick no colour: the page ends with the pan moved by the
    distance over the zoom, and everything else as before the press. *)
Theorem drag_pans (e0 e1 e2 : mouseEvent) (st : state) (img : image) :
  currentImage st = Some img -> isCropMode st = false -> button e0 = 0 ->
  JS.gt (abs (clientX e1 - clientX e0)) DRAG_THRESHOLD
  || JS.gt (abs (clientY e1 - clientY e0)) DRAG_THRESHOLD = true ->
  drag e0 e1 e2 st
  = (Normal tt,
     set_pan false false
       (set_drag (panX st + (clientX e1 - clientX e0) / zoom st)%float
                 (panY st + (clientY e1 - clientY e0) / zoom st)%float
                 (clientX e1) (clientY e1) st)).
Proof.
  intros Himg Hc Hb Hd. unfold drag.
  rewrite (snd_bind_Normal _ _ _ _ _ (handleMouseDown_press e0 st img Himg Hc Hb)).
  unfold bind at 1, handleMouseMove, bind at 1, get. cbn beta iota.
  cbn [currentImage set_drag set_pan isCropMode cropStartX isPanning lastMouseX
       lastMouseY hasDragged panX panY zoom].
  rewrite Himg, Hc.
  destruct (getCanvasCoords _ e1) as [canvasX canvasY].
  assert (E : forall (o : option float) (k1 k2 : JSM unit),
            match false, o with true, Some _ => k1 | _, _ => k2 end = k2)
    by (now intros [x|]).
  unfold modify. rewrite Hd. cbn [orb].
  unfold handleMouseUp, bind, get, modify. cbn.
  rewrite Hc. reflexivity.
Qed.

Lemma drag_pans_witness :
  palette (snd (drag (mkMouse 50 50 0) (mkMouse 60 50 0) (mkMouse 60 50 0)
                  (pageShowing redImage examplePalette)))
  = examplePalette.
Proof.
  rewrite (drag_pans (mkMouse 50 50 0) (mkMouse 60 50 0) (mkMouse 60 50 0)
             (pageShowing redImage examplePalette) redImage);
    [|reflexivity|reflexivity|reflexivity|vm_compute; reflexivity].
  vm_compute. reflexivity.
Defined.

Lemma renderPalette_eq (animateNew : bool) (st : state) :
  renderPalette animateNew st
  = let copy := fresh (dom (heap st)) in
    match sortWith hueCompare (palette st) with
    | Normal sorted =>
        let st1 :=
          set_blocks sorted
            (set_heap (fun h => <[copy := sorted]> h)
               (set_heap (fun h => <[copy := palette st]> h) st)) in
        let st2 :=
          if negb (Nat.eqb (List.length (palette st1)) 0) && negb (hasEverHadColors st1)
          then set_hasEverHadColors true st1 else st1 in
        (Normal tt, set_undoDisabled (Nat.eqb (List.length (undoStack st2)) 0) st2)
    | Throw err => (Throw err, set_heap (fun h => <[copy := palette st]> h) st)
    end.
Proof.
  unfold renderPalette, bind, get. rewrite sortByHue_run. cbv zeta.
  fold (palette st).
  destruct (sortWith hueCompare (palette st)) as [sorted|err]; [|reflexivity].
  unfold Array_read, modify, updateUndoButton, ret.
  rewrite arr_insert_eq.
  destruct (_ && _); reflexivity.
Qed.

(** X13: a press and a release at a point of the image, in a view that is
    defined and with a palette of fewer than 21 colours, append the colour
    sampled there, which is a Color; the palette has at most 21 colours, the
    history gains the palette as it was, the sidebar shows the new palette
    in hue order, and nothing is thrown. *)
Theorem click_picks (e : mouseEvent) (st : state) (img : image) :
  inv st ->
  Forall (fun c => isColor c = true) (palette st) ->
  currentImage st = Some img -> isCropMode st = false -> button e = 0 ->
  mutates (OpPick e) st = true ->
  viewportDefined st e = true ->
  exists st',
    click e st = (Normal tt, st')
    /\ palette st' = palette st ++ [pickedHex st e img]
    /\ isColor (pickedHex st e img) = true
    /\ Z.of_nat (List.length (palette st')) <= MAX_COLORS
    /\ history st' = pushBounded (palette st) (history st)
    /\ Permutation (palette st') (blocks st')
    /\ StronglySorted hueLe (blocks st')
    /\ isPanning st' = false /\ hasDragged st' = false.
Proof.
  intros I Hgood Himg Hc Hb Hm Hv. pose proof I as [W _].
  assert (I' : inv (released e st)) by exact I.
  destruct (pick_appends e (released e st) img W Hgood Himg Hm Hv)
    as (st1 & E & P & Hhex & L & Pm & Ss).
  destruct (mutating_history noExtractor (OpPick e) (released e st) I' Hm)
    as (Hh & _). cbn [perform] in Hh. rewrite E in Hh. cbn [snd] in Hh.
  assert (Hp : isPanning st1 = false).
  { pose proof (f_equal snd E) as E'. cbn [snd] in E'. rewrite <- E'. clear.
    unfold pickColorAtPoint, bind at 1, get. cbn beta iota.
    destruct (currentImage (released e st)); [|reflexivity].
    destruct (_ >=? _); [reflexivity|].
    destruct (getCanvasCoords _ _). destruct (canvasToImageCoords _ _ _).
    destruct (_ || _); [reflexivity|].
    rewrite (snd_bind_Normal _ _ _ _ _ (saveState_run _)).
    rewrite (snd_bind_Normal _ _ _ _ _ (Array_push_run _ _ _)).
    rewrite renderPalette_eq. cbv zeta.
    destruct (sortWith hueCompare _); [|reflexivity]. cbn [snd].
    match goal with |- context [if ?c then _ else _] => destruct c end; reflexivity. }
  exists (set_pan (isPanning st1) false st1). unfold click.
  rewrite (snd_bind_Normal _ _ _ _ _ (handleMouseDown_press e st img Himg Hc Hb)).
  rewrite (handleMouseUp_released e e st Hc). cbv zeta. rewrite E. cbn [fst snd].
  split; [reflexivity|].
  change (palette (set_pan (isPanning st1) false st1)) with (palette st1).
  change (history (set_pan (isPanning st1) false st1)) with (history st1).
  change (blocks (set_pan (isPanning st1) false st1)) with (blocks st1).
  repeat split; auto.
Qed.

Lemma click_picks_witness :
  exists st',
    click (mkMouse 50 50 0) (pageShowing redImage examplePalette) = (Normal tt, st')
    /\ palette st' = examplePalette ++ ["#ff0000"%string].
Proof.
  destruct (click_picks (mkMouse 50 50 0) (pageShowing redImage examplePalette) redImage)
    as (st' & E & P & _).
  - apply pageShowing_inv.
  - apply examplePalette_colors.
  - reflexivity.
  - reflexivity.
  - reflexivity.
  - vm_compute. reflexivity.
  - vm_compute. reflexivity.
  - exists st'. split; [exact E|]. rewrite P. vm_compute. reflexivity.
Defined.

(** ** The selection lies in the image *)

Lemma Math_floor_not_nan (x : float) :
  is_nan x = false -> is_nan (JS.Math_floor x) = false.
Proof.
  intros Nx. unfold JS.Math_floor.
  destruct (Prim2SF x) as [sx|sx| |sx m e] eqn:E; try exact Nx.
  destruct (0 <=? e); [exact Nx|].
  destruct (_ =? 0); [reflexivity|apply ofZ_not_nan].
Qed.

Lemma Math_min_finite (a b : float) :
  isFiniteNumber a = true -> isFiniteNumber b = true ->
  isFiniteNumber (JS.Math_min a b) = true.
Proof.
  intros Fa Fb.
  assert (Na : is_nan a = false).
  { apply is_nan_false. unfold isFiniteNumber in Fa. now destruct (Prim2SF a). }
  assert (Nb : is_nan b = false).
  { apply is_nan_false. unfold isFiniteNumber in Fb. now destruct (Prim2SF b). }
  unfold JS.Math_min. rewrite Na, Nb. cbn [orb].
  destruct (a <? b)%float; [exact Fa|]. destruct (b <? a)%float; [exact Fb|].
  now destruct (get_sign a).
Qed.

Lemma Math_max_finite (a b : float) :
  isFiniteNumber a = true -> isFiniteNumber b = true ->
  isFiniteNumber (JS.Math_max a b) = true.
Proof.
  intros Fa Fb.
  assert (Na : is_nan a = false).
  { apply is_nan_false. unfold isFiniteNumber in Fa. now destruct (Prim2SF a). }
  assert (Nb : is_nan b = false).
  { apply is_nan_false. unfold isFiniteNumber in Fb. now destruct (Prim2SF b). }
  unfold JS.Math_max. rewrite Na, Nb. cbn [orb].
  destruct (a <? b)%float; [exact Fb|]. destruct (b <? a)%float; [exact Fa|].
  now destruct (get_sign a).
Qed.

Lemma sub_not_nan_bounded (a b : float) :
  is_nan a = false -> is_nan b = false ->
  ordF a < beyondFinite -> 0 <= ordF b ->
  is_nan (a - b)%float = false.
Proof.
  intros Na Nb Ha Hb. apply is_nan_false in Na, Nb. apply is_nan_false.
  rewrite FloatAxioms.sub_spec. unfold ordF in *. pose proof beyondFinite_pos.
  unfold SF64sub, SFsub.
  destruct (Prim2SF a) as [sa|[|]| |sa ma ea]; try congruence;
  destruct (Prim2SF b) as [sb|[|]| |sb mb eb]; try congruence;
    cbn [ordZ cond_Zopp] in *; try discriminate; try lia.
  - destruct sa, sb; discriminate.
  - apply binary_normalize_any_not_nan.
Qed.

Lemma finite_not_nan (x : float) : isFiniteNumber x = true -> is_nan x = false.
Proof.
  intros F. apply is_nan_false. unfold isFiniteNumber in F. now destruct (Prim2SF x).
Qed.

Lemma ofZ_below_infinity (n : Z) :
  0 < n < 2 ^ 53 -> ordF (JS.ofZ n) < beyondFinite.
Proof.
  intros Hn. destruct (ofZ_Prim2SF n Hn) as (m & e & E & _).
  pose proof (Prim2SF_valid (JS.ofZ n)) as V. unfold ordF. rewrite E in *.
  cbn [ordZ cond_Zopp]. apply (finite_bounds m e). exact V.
Qed.

(** One axis of the rectangle: the near edge from [c1], the far edge from
    [c2], the extent [len] of the image. *)
Lemma crop_axis (c1 c2 : float) (len : Z) :
  is_nan c1 = false -> is_nan c2 = false -> 0 < len < 2 ^ 53 ->
  let near := JS.Math_max 0 (JS.Math_floor c1) in
  let far := JS.Math_min (JS.ofZ len) (JS.Math_floor c2) in
  JS.lt (far - near) (JS.ofZ MIN_CROP_SIZE) = false ->
  JS.ge near 0 = true /\ JS.lt near far = true /\ JS.le far (JS.ofZ len) = true
  /\ JS.ge (far - near) (JS.ofZ MIN_CROP_SIZE) = true.
Proof.
  intros N1 N2 Hlen near far Hbig.
  assert (N0 : is_nan 0 = false) by reflexivity.
  assert (Nl : is_nan (JS.ofZ len) = false) by apply ofZ_not_nan.
  destruct (Math_max_ord 0 _ N0 (Math_floor_not_nan _ N1)) as [Nn On].
  destruct (Math_min_ord (JS.ofZ len) _ Nl (Math_floor_not_nan _ N2)) as [Nf Of].
  fold near in Nn, On. fold far in Nf, Of. change (ordF 0) with 0 in On.
  pose proof (ofZ_below_infinity len Hlen) as Bl.
  assert (Nd : is_nan (far - near) = false)
    by (apply sub_not_nan_bounded; auto; lia).
  assert (Nm : is_nan (JS.ofZ MIN_CROP_SIZE) = false) by apply ofZ_not_nan.
  assert (Pm : 0 < ordF (JS.ofZ MIN_CROP_SIZE)).
  { pose proof (ltb_ordF 0 (JS.ofZ MIN_CROP_SIZE) eq_refl eq_refl) as H.
    change (ordF 0) with 0 in H. apply Z.ltb_lt. now rewrite <- H. }
  unfold JS.lt, JS.ge, JS.le in *.
  rewrite ltb_ordF in Hbig by assumption. apply Z.ltb_ge in Hbig.
  assert (Hpos : (0 <? far - near)%float = true).
  { rewrite ltb_ordF by assumption. change (ordF 0) with 0. apply Z.ltb_lt. lia. }
  rewrite sub_gt0 in Hpos by assumption. apply Z.ltb_lt in Hpos.
  rewrite !leb_ordF, ltb_ordF by assumption. change (ordF 0) with 0.
  repeat split; first [apply Z.leb_le; lia | apply Z.ltb_lt; lia].
Qed.

(** X14: a selection that [executeCropPrefill] does not find too small, in a
    view and with corners that are numbers, lies in the image: its near
    corner is not negative, its far corner is not beyond the width and the
    height, and both extents are at least [MIN_CROP_SIZE]. *)
Theorem cropRectangle_inside (st : state) (img : image) (startX : float) :
  selectionDefined st startX = true ->
  0 < width img < 2 ^ 53 -> 0 < height img < 2 ^ 53 ->
  selectionTooSmall st img startX = false ->
  let '(imgX1, imgY1, cropWidth, cropHeight) := cropRectangle st img startX in
  let '(imgX2, imgY2) := cropFarCorner st img startX in
  cropWidth = (imgX2 - imgX1)%float /\ cropHeight = (imgY2 - imgY1)%float
  /\ JS.ge imgX1 0 = true /\ JS.lt imgX1 imgX2 = true
  /\ JS.le imgX2 (JS.ofZ (width img)) = true
  /\ JS.ge imgY1 0 = true /\ JS.lt imgY1 imgY2 = true
  /\ JS.le imgY2 (JS.ofZ (height img)) = true
  /\ JS.ge cropWidth (JS.ofZ MIN_CROP_SIZE) = true
  /\ JS.ge cropHeight (JS.ofZ MIN_CROP_SIZE) = true.
Proof.
  unfold selectionDefined, selectionTooSmall, cropRectangle, cropFarCorner,
    canvasToImageCoords.
  cbn [fst snd]. intros Hd Hw Hh Hbig.
  repeat (apply andb_prop in Hd as [Hd ?]).
  repeat match goal with H : negb _ = true |- _ => apply negb_true_iff in H end.
  apply orb_false_elim in Hbig as [Bw Bh].
  match type of Bw with
  | JS.lt (JS.Math_min _ (JS.Math_floor ?c2) - JS.Math_max _ (JS.Math_floor ?c1)) _ = _ =>
      assert (X1 : is_nan c1 = false)
        by (apply scaled_not_nan; auto using Math_min_finite);
      assert (X2 : is_nan c2 = false)
        by (apply scaled_not_nan; auto using Math_max_finite);
      destruct (crop_axis c1 c2 (width img) X1 X2 Hw Bw) as (A1 & A2 & A3 & A4)
  end.
  match type of Bh with
  | JS.lt (JS.Math_min _ (JS.Math_floor ?c2) - JS.Math_max _ (JS.Math_floor ?c1)) _ = _ =>
      assert (Y1 : is_nan c1 = false)
        by (apply scaled_not_nan; auto using Math_min_finite);
      assert (Y2 : is_nan c2 = false)
        by (apply scaled_not_nan; auto using Math_max_finite);
      destruct (crop_axis c1 c2 (height img) Y1 Y2 Hh Bh) as (B1 & B2 & B3 & B4)
  end.
  repeat split; assumption.
Qed.

Lemma cropRectangle_inside_witness :
  let '(imgX1, imgY1, cropWidth, cropHeight) := cropRectangle wideSelection redImage 10 in
  let '(imgX2, imgY2) := cropFarCorner wideSelection redImage 10 in
  cropWidth = (imgX2 - imgX1)%float /\ cropHeight = (imgY2 - imgY1)%float
  /\ JS.ge imgX1 0 = true /\ JS.lt imgX1 imgX2 = true
  /\ JS.le imgX2 (JS.ofZ (width redImage)) = true
  /\ JS.ge imgY1 0 = true /\ JS.lt imgY1 imgY2 = true
  /\ JS.le imgY2 (JS.ofZ (height redImage)) = true
  /\ JS.ge cropWidth (JS.ofZ MIN_CROP_SIZE) = true
  /\ JS.ge cropHeight (JS.ofZ MIN_CROP_SIZE) = true.
Proof.
  apply (cropRectangle_inside wideSelection redImage 10%float).
  - vm_compute. reflexivity.
  - split; reflexivity.
  - split; reflexivity.
  - vm_compute. reflexivity.
Defined.

(** ** The palette as an image *)

Lemma originAgrees_all : forallb originAgrees (List.seq 0 21) = true.
Proof. vm_compute. reflexivity. Qed.

Lemma heightAgrees_all : forallb heightAgrees (List.seq 1 21) = true.
Proof. vm_compute. reflexivity. Qed.

Lemma getContrastColor_color (c : string) :
  isColor c = true ->
  getContrastColor c = Normal (textColor c)
  /\ (textColor c = "#000000"%string \/ textColor c = "#ffffff"%string).
Proof.
  intros Hc. destruct (isColor_hexToRgb c Hc) as [v Hv].
  unfold textColor, getContrastColor. rewrite Hv. split; [reflexivity|].
  destruct (JS.gt _ _); auto.
Qed.

Lemma drawSquare_at (c : string) (i : nat) :
  isColor c = true -> (i < 21)%nat ->
  drawSquare c i = Normal (squareAt c i).
Proof.
  intros Hc Hi. pose proof originAgrees_all as H.
  rewrite forallb_forall in H. specialize (H i). 
  assert (Hin : In i (List.seq 0 21)) by (apply in_seq; lia).
  specialize (H Hin). unfold originAgrees in H. unfold drawSquare, squareAt.
  destruct (squareOrigin i) as [ox oy].
  repeat (apply andb_prop in H as [H ?]).
  repeat match goal with
         | E : PrimFloat.Leibniz.eqb _ _ = true |- _ =>
             apply FloatAxioms.Leibniz.eqb_spec in E; rewrite E; clear E
         end.
  destruct (getContrastColor_color c Hc) as [-> _]. reflexivity.
Qed.

Lemma drawSquares_at (cs : list string) (index : nat) :
  Forall (fun c => isColor c = true) cs ->
  (index + List.length cs <= 21)%nat ->
  drawSquares cs index = Normal (paletteSquares cs index).
Proof.
  revert index. induction cs as [|c cs IH]; intros index Hc Hn; [reflexivity|].
  apply Forall_cons in Hc as [Hc Hcs]. cbn [List.length] in Hn.
  cbn [drawSquares paletteSquares].
  rewrite drawSquare_at by (auto; lia). cbn [cbind].
  rewrite IH by (auto; lia). reflexivity.
Qed.

(** X15: for a palette of 1 to 21 colours [exportPaletteImage] draws, on a
    canvas 700 wide and 100 high per started row of seven, a white
    background and then, for each colour in manual order, its square with
    its border and its upper-case label; the squares lie in the canvas and
    no two have the same origin. *)
Theorem exportPaletteImage_layout (st : state) :
  Forall (fun c => isColor c = true) (palette st) ->
  (1 <= List.length (palette st) <= 21)%nat ->
  exportPaletteImage st
  = (Normal (Some (mkCanvas 700 (JS.ofZ (100 * canvasRows (List.length (palette st))))
                     (FillRect "#ffffff" 0 0 700
                               (JS.ofZ (100 * canvasRows (List.length (palette st))))
                      :: paletteSquares (palette st) 0))), st)
  /\ 1 <= canvasRows (List.length (palette st)) <= 3
  /\ (forall i, (i < List.length (palette st))%nat ->
        0 <= fst (squareOrigin i) /\ fst (squareOrigin i) + 100 <= 700
        /\ 0 <= snd (squareOrigin i)
        /\ snd (squareOrigin i) + 100 <= 100 * canvasRows (List.length (palette st)))
  /\ (forall i j, squareOrigin i = squareOrigin j -> i = j).
Proof.
  intros Hc Hn. split; [|split; [|split]].
  - unfold exportPaletteImage, bind, get, lift, ret. cbn beta iota.
    destruct (Nat.eqb_spec (List.length (palette st)) 0) as [E|_]; [lia|].
    rewrite drawSquares_at by (auto; cbn; lia).
    pose proof heightAgrees_all as H. rewrite forallb_forall in H.
    specialize (H (List.length (palette st))).
    assert (Hin : In (List.length (palette st)) (List.seq 1 21)) by (apply in_seq; lia).
    apply H in Hin. unfold heightAgrees in Hin.
    apply FloatAxioms.Leibniz.eqb_spec in Hin. rewrite Hin. reflexivity.
  - unfold canvasRows. split.
    + apply Z.div_le_lower_bound; lia.
    + apply Z.lt_succ_r. apply Z.div_lt_upper_bound; lia.
  - intros i Hi. unfold squareOrigin, canvasRows. cbn [fst snd].
    pose proof (Z.mod_pos_bound (Z.of_nat i) 7 ltac:(lia)).
    pose proof (Z.div_pos (Z.of_nat i) 7 ltac:(lia) ltac:(lia)).
    assert (Z.of_nat i / 7 + 1 <= (Z.of_nat (List.length (palette st)) + 6) / 7).
    { replace (Z.of_nat i / 7 + 1) with ((Z.of_nat i + 1 * 7) / 7)
        by (rewrite Z.div_add by lia; reflexivity).
      apply Z.div_le_mono; lia. }
    lia.
  - intros i j E. unfold squareOrigin in E. inversion E as [[E1 E2]].
    pose proof (Z.div_mod (Z.of_nat i) 7 ltac:(lia)).
    pose proof (Z.div_mod (Z.of_nat j) 7 ltac:(lia)). lia.
Qed.

Lemma exportPaletteImage_layout_witness :
  fst (exportPaletteImage (pageWith examplePalette))
  = Normal (Some (mkCanvas 700 100
                    [FillRect "#ffffff" 0 0 700 100;
                     FillRect "#aabbcc" 0 0 100 100;
                     StrokeRect "#333333" 2 0 0 100 100;
                     FillText "#000000" "#AABBCC" 50 50;
                     FillRect "#112233" 100 0 100 100;
                     StrokeRect "#333333" 2 100 0 100 100;
                     FillText "#ffffff" "#112233" 150 50])).
Proof.
  destruct (exportPaletteImage_layout (pageWith examplePalette)) as [E _].
  - apply examplePalette_colors.
  - vm_compute. lia.
  - rewrite E. vm_compute. reflexivity.
Defined.

Lemma greyContrast_all : forallb greyContrast byteRange = true.
Proof. vm_compute. reflexivity. Qed.

(** X16: [getContrastColor] throws on a text [hexToRgb] refuses, answers
    black or white on a Color, and on the greys answers black from level
    128 on and white below. *)
Theorem getContrastColor_cases (c : string) :
  (hexToRgb c = None -> getContrastColor c = Throw TypeError)
  /\ (isColor c = true ->
      getContrastColor c = Normal "#000000"%string
      \/ getContrastColor c = Normal "#ffffff"%string)
  /\ (forall v, 0 <= v <= 255 ->
        getContrastColor (rgbToHex (JS.ofZ v) (JS.ofZ v) (JS.ofZ v))
        = Normal (if (128 <=? v)%Z then "#000000" else "#ffffff")%string).
Proof.
  split; [|split].
  - intros H. unfold getContrastColor. now rewrite H.
  - intros Hc. destruct (getContrastColor_color c Hc) as [-> [-> | ->]]; auto.
  - intros v Hv. pose proof greyContrast_all as H.
    rewrite forallb_forall in H. specialize (H v (byteRange_spec v Hv)).
    unfold greyContrast in H.
    destruct (getContrastColor _) as [t|err]; [|discriminate].
    apply String.eqb_eq in H. now subst t.
Qed.

(** ** The undo button *)

Lemma renderPalette_buttonOk (animateNew : bool) (st : state) :
  buttonOk st -> buttonOk (snd (renderPalette animateNew st)).
Proof.
  intros B. rewrite renderPalette_eq. cbv zeta.
  destruct (sortWith hueCompare (palette st)) as [sorted|err]; [|exact B].
  cbn [snd]. reflexivity.
Qed.

Lemma afterSave_buttonOk (st : state) : buttonOk (afterSave st).
Proof. reflexivity. Qed.

Section Button.
Variable getPalette : image -> Z -> completion (list (float * float * float)).

Lemma prefillPaletteFromImage_buttonOk (image : option image) (st : state) :
  buttonOk st -> buttonOk (snd (prefillPaletteFromImage getPalette image st)).
Proof.
  intros B. destruct image as [img|]; [|exact B].
  unfold prefillPaletteFromImage, try_catch.
  rewrite (snd_bind_Normal _ _ _ _ _ (saveState_run st)).
  unfold bind at 1, lift.
  destruct (getPalette img 20) as [pal|err]; [|reflexivity].
  unfold Array_new, bind at 1. unfold modify, bind at 1.
  set (st2 := set_colors _ _).
  assert (B2 : buttonOk st2) by reflexivity.
  pose proof (renderPalette_buttonOk true st2 B2) as B3.
  destruct (renderPalette true st2) as [[u|err] st3]; exact B3.
Qed.

Lemma pushMainColors_buttonOk (mainPalette : list (float * float * float))
    (index : nat) (st : state) :
  buttonOk st -> buttonOk (snd (pushMainColors mainPalette index st)).
Proof.
  revert index st. induction mainPalette as [|[[r g] b] rest IH]; intros index st B.
  - exact B.
  - cbn [pushMainColors]. unfold bind at 1, get. cbn beta iota zeta.
    rewrite (snd_bind_Normal _ _ _ _ _ (Array_push_run _ _ _)).
    destruct (Nat.eqb index 0);
      rewrite (snd_bind_Normal _ _ _ _ _ (Array_push_run _ _ _)); apply IH; exact B.
Qed.

Lemma prefillAdvancedPaletteFromImage_buttonOk (image : option image) (st : state) :
  buttonOk st -> buttonOk (snd (prefillAdvancedPaletteFromImage getPalette image st)).
Proof.
  intros B. destruct image as [img|]; [|exact B].
  unfold prefillAdvancedPaletteFromImage, try_catch.
  rewrite (snd_bind_Normal _ _ _ _ _ (saveState_run st)).
  unfold bind at 1, lift.
  destruct (getPalette img 5) as [pal|err]; [|reflexivity].
  unfold Array_new, bind at 1. unfold modify, bind at 1.
  set (st2 := set_colors _ _).
  assert (B2 : buttonOk st2) by reflexivity.
  pose proof (pushMainColors_buttonOk pal 0 st2 B2) as B3.
  assert (Hc2 : colors st2 ∈ dom (heap st2)) by (subst st2; cbn; apply in_dom_insert_eq).
  destruct (pushMainColors_run pal 0 st2 Hc2) as (st3 & E & _).
  rewrite E in B3. cbn [snd] in B3. rewrite (snd_bind_Normal _ _ _ _ _ E).
  pose proof (renderPalette_buttonOk true st3 B3) as B4.
  destruct (renderPalette true st3) as [[u|err] st4]; exact B4.
Qed.

Lemma splice_render_buttonOk (st : state) (a : loc) (i : nat) (animateNew : bool) :
  buttonOk st ->
  buttonOk (snd (bind (Array_splice1 a i) (fun _ => renderPalette animateNew) st)).
Proof.
  intros B. unfold Array_splice1, Array_read, Array_write, bind, modify. cbn beta iota.
  now apply renderPalette_buttonOk.
Qed.

Lemma perform_buttonOk (op : operation) (st : state) :
  buttonOk st -> buttonOk (snd (perform getPalette op st)).
Proof.
  intros B. destruct op as [e| | |hex index| |n|]; cbn [perform].
  - unfold pickColorAtPoint, bind at 1, get. cbn beta iota.
    destruct (currentImage st) as [img|]; [|exact B].
    destruct (_ >=? _); [exact B|].
    destruct (getCanvasCoords st e) as [canvasX canvasY].
    destruct (canvasToImageCoords st canvasX canvasY) as [imageX imageY].
    destruct (_ || _); [exact B|].
    rewrite (snd_bind_Normal _ _ _ _ _ (saveState_run st)).
    rewrite (snd_bind_Normal _ _ _ _ _ (Array_push_run _ _ _)).
    apply renderPalette_buttonOk. reflexivity.
  - unfold prefillPalette, bind, get. cbn beta iota.
    now apply prefillPaletteFromImage_buttonOk.
  - unfold prefillAdvancedPalette, bind, get. cbn beta iota.
    now apply prefillAdvancedPaletteFromImage_buttonOk.
  - unfold removeColor, bind at 1, get. cbn beta iota.
    destruct (indexOf hex (palette st)) as [i|]; [|exact B].
    rewrite (snd_bind_Normal _ _ _ _ _ (saveState_run st)).
    destruct (nth_error (blocks st) index); [reflexivity|].
    apply splice_render_buttonOk. reflexivity.
  - unfold clearAll, bind at 1, get. cbn beta iota.
    destruct (Nat.eqb _ 0); [exact B|].
    rewrite (snd_bind_Normal _ _ _ _ _ (saveState_run st)). reflexivity.
  - destruct (nth_error (tasks st) n) as [t|] eqn:E.
    + rewrite (fire_run getPalette n st t E).
      set (st1 := set_tasks _ st). assert (B1 : buttonOk st1) by exact B.
      destruct t as [i| |croppedImg]; cbn [runTask].
      * unfold bind at 1, get. cbn beta iota. now apply splice_render_buttonOk.
      * unfold Array_new, bind at 1. unfold modify, bind at 1.
        apply renderPalette_buttonOk. exact B1.
      * unfold bind at 1, get. cbn beta iota.
        destruct (cropPrefillMode st1) as [[|]|];
          auto using prefillPaletteFromImage_buttonOk,
                     prefillAdvancedPaletteFromImage_buttonOk.
    + unfold fire, bind at 1, get. cbn beta iota. now rewrite E.
  - destruct (list_last_case (undoStack st)) as [E|(below & top & E)].
    + now rewrite (undo_empty st E).
    + rewrite (undo_run st below top E).
      set (st2 := set_undoDisabled _ _).
      assert (B2 : buttonOk st2) by reflexivity.
      pose proof (renderPalette_buttonOk true st2 B2) as B3.
      unfold bind. destruct (renderPalette true st2) as [[u|err] st3]; exact B3.
Qed.

End Button.

Section ButtonRuns.
Variable getPalette : image -> Z -> completion (list (float * float * float)).

Lemma handle_buttonOk (ev : event) (st : state) :
  buttonOk st -> buttonOk (snd (handle getPalette ev st)).
Proof.
  intros B. destruct ev as [img paneWidth paneHeight|op]; cbn [handle].
  - exact B.
  - now apply perform_buttonOk.
Qed.

(** X17: the undo button is disabled exactly when the history is empty, at
    the start of the script and from then on: whatever images arrive and
    whatever operations are performed on a page where it is so, it is so
    afterwards. *)
Theorem undo_button_enabled (evs : list event) (st : state) :
  undoDisabled st = Nat.eqb (List.length (history st)) 0 ->
  let st' := session getPalette evs st in
  undoDisabled st' = Nat.eqb (List.length (history st')) 0.
Proof.
  unfold history. rewrite !length_map.
  revert st. induction evs as [|ev evs IH]; intros st B; [exact B|].
  cbn [session]. apply IH. now apply handle_buttonOk.
Qed.
End ButtonRuns.

Lemma undo_button_enabled_witness :
  let evs := [EvLoad redImage 800 600; EvOp (OpPick (mkMouse 5 5 0));
              EvOp (OpPick (mkMouse 6 6 0)); EvOp OpUndo] in
  let st' := session noExtractor evs (initialState 0 0) in
  undoDisabled st' = Nat.eqb (List.length (history st')) 0
  /\ history st' = [[]]
  /\ undoDisabled (snd (undo st')) = true.
Proof.
  split; [|split].
  - apply (undo_button_enabled noExtractor _ (initialState 0 0)). reflexivity.
  - vm_compute. reflexivity.
  - vm_compute. reflexivity.
Defined.

(** ** Colours only *)

Lemma pick_noop (e : mouseEvent) (st : state) :
  mutates (OpPick e) st = false -> pickColorAtPoint e st = (Normal tt, st).
Proof.
  intros Hm. cbn [mutates] in Hm.
  unfold pickColorAtPoint, bind at 1, get. cbn beta iota.
  destruct (currentImage st) as [img|]; [|reflexivity].
  destruct (Z.of_nat (List.length (palette st)) >=? MAX_COLORS); [reflexivity|].
  cbn [negb andb] in Hm. apply negb_false_iff in Hm.
  unfold outsideImage, imagePoint in Hm.
  destruct (getCanvasCoords st e) as [canvasX canvasY].
  destruct (canvasToImageCoords st canvasX canvasY) as [imageX imageY].
  cbn [fst snd] in Hm. now rewrite Hm.
Qed.

Lemma render_ok (animateNew : bool) (st : state) :
  colors st ∈ dom (heap st) ->
  Forall (fun c => isColor c = true) (palette st) ->
  fst (renderPalette animateNew st) = Normal tt
  /\ palette (snd (renderPalette animateNew st)) = palette st.
Proof.
  intros Hc Hg. destruct (renderPalette_run animateNew st Hc Hg) as (st' & E & _).
  destruct (renderPalette_palette animateNew st Hc) as (P & _).
  rewrite E in *. auto.
Qed.

Lemma splice_render_ok (st : state) (i : nat) :
  colors st ∈ dom (heap st) ->
  Forall (fun c => isColor c = true) (palette st) ->
  let r := bind (Array_splice1 (colors st) i) (fun _ => renderPalette false) st in
  fst r = Normal tt
  /\ Forall (fun c => isColor c = true) (palette (snd r)).
Proof.
  intros Hc Hg r. subst r.
  pose proof (splice_render_palette st i Hc) as P. rewrite P.
  assert (G : Forall (fun c => isColor c = true)
                (firstn i (palette st) ++ skipn (S i) (palette st))).
  { apply Forall_app. split; [now apply Forall_take|now apply Forall_drop]. }
  split; [|exact G].
  unfold Array_splice1, Array_read, Array_write, bind, modify. cbn beta iota.
  set (st1 := set_heap _ st).
  assert (Hc1 : colors st1 ∈ dom (heap st1)) by (subst st1; cbn; apply in_dom_insert_eq).
  assert (G1 : Forall (fun c => isColor c = true) (palette st1)).
  { subst st1. unfold palette at 1. cbn [colors set_heap]. now rewrite arr_insert_eq. }
  apply (render_ok false st1 Hc1 G1).
Qed.

Lemma pushBounded_Forall {A : Type} (P : A -> Prop) (x : A) (stack : list A) :
  P x -> Forall P stack -> Forall P (pushBounded x stack).
Proof.
  intros Hx Hs. apply Forall_forall. intros y Hy.
  apply pushBounded_elem in Hy as [->|Hy]; [exact Hx|].
  rewrite Forall_forall in Hs. auto.
Qed.

Lemma run_ok (r : completion unit * state) (P : state -> Prop) :
  fst r = Normal tt /\ P (snd r) -> exists st', r = (Normal tt, st') /\ P st'.
Proof. destruct r as [c st']. cbn. intros [-> H]. eauto. Qed.

Section ColorsOnly.
Variable getPalette : image -> Z -> completion (list (float * float * float)).
Hypothesis extractor_bytes : byteExtractor getPalette.

Lemma prefill_basic_ok (img : image) (st : state) :
  wf st ->
  Forall (fun c => isColor c = true) (palette st) ->
  fst (prefillPaletteFromImage getPalette (Some img) st) = Normal tt
  /\ Forall (fun c => isColor c = true)
            (palette (snd (prefillPaletteFromImage getPalette (Some img) st))).
Proof.
  intros W Hg. destruct (getPalette img 20) as [pal|err] eqn:Hp.
  - destruct (prefill_basic_state getPalette img st pal Hp) as (st2 & Hc2 & P2 & _ & E).
    assert (G2 : Forall (fun c => isColor c = true) (palette st2)).
    { rewrite P2. apply hexOfTriple_isColor. exact (extractor_bytes _ _ _ Hp). }
    destruct (render_ok true st2 Hc2 G2) as [F P].
    rewrite E. unfold try_catch.
    destruct (renderPalette true st2) as [[[]|err] st3]; cbn [fst snd] in *;
      [|discriminate].
    split; [reflexivity|congruence].
  - rewrite (prefill_basic_failure_run getPalette img st err Hp). cbn [fst snd].
    split; [reflexivity|]. change (palette (add_alert msgExtractFailed (afterSave st)))
      with (palette (afterSave st)). now rewrite (afterSave_palette st W).
Qed.

Lemma history_colorsOnly (op : operation) (st : state) :
  inv st -> colorsOnly st -> isUndo op = false ->
  Forall (Forall (fun c => isColor c = true))
         (history (snd (perform getPalette op st))).
Proof.
  intros I [Gp Gh] Hu. destruct (mutates op st) eqn:Hm.
  - destruct (mutating_history getPalette op st I Hm) as (-> & _).
    now apply pushBounded_Forall.
  - now destruct (nonmutating_history getPalette op st I Hu Hm) as (-> & _).
Qed.

(** X18: while the palette and its snapshots hold colours only, every
    operation but the advanced prefill (a pick in a defined view, the basic
    prefill with an extractor that answers channel triples of the data
    model, a removal, a clearing, their timers, an undo) ends normally and
    leaves colours only. *)
Theorem perform_colorsOnly (op : operation) (st : state) :
  inv st -> colorsOnly st -> followed op st ->
  fst (perform getPalette op st) = Normal tt
  /\ colorsOnly (snd (perform getPalette op st)).
Proof.
  intros I C F. pose proof I as [W _]. pose proof C as [Gp Gh].
  destruct (isUndo op) eqn:Hu.
  - destruct op; try discriminate. cbn [perform].
    destruct (list_last_case (undoStack st)) as [E|(below & top & E)].
    + rewrite (undo_empty st E). auto.
    + destruct (undo_step st below top W E) as (_ & _ & P & H).
      assert (Gh' : Forall (Forall (fun c => isColor c = true))
                      (List.map (arr st) below ++ [arr st top])).
      { unfold history in Gh. rewrite E, map_app in Gh. exact Gh. }
      apply Forall_app in Gh' as [Gb Gt]. apply Forall_cons in Gt as [Gt _].
      split; [|split; [rewrite P; exact Gt|rewrite H; exact Gb]].
      rewrite (undo_run st below top E).
      set (st2 := set_undoDisabled _ _).
      assert (Hc2 : colors st2 ∈ dom (heap st2)).
      { subst st2. cbn. destruct W as (_ & Hs & _). rewrite E in Hs.
        apply Forall_app in Hs as [_ Ht]. now apply Forall_cons in Ht as [Ht _]. }
      destruct (render_ok true st2 Hc2 Gt) as [R _].
      unfold bind. destruct (renderPalette true st2) as [[[]|err] st3];
        [reflexivity|discriminate].
  - pose proof (history_colorsOnly op st I C Hu) as H.
    enough (Q : exists st', perform getPalette op st = (Normal tt, st')
                /\ Forall (fun c => isColor c = true) (palette st'))
      by (destruct Q as (st' & E & Q); rewrite E in *; repeat split; assumption).
    clear H.
    assert (Hc' : colors (afterSave st) ∈ dom (heap (afterSave st))).
    { cbn. apply in_dom_insert, W. }
    assert (Gp' : Forall (fun c => isColor c = true) (palette (afterSave st)))
      by now rewrite (afterSave_palette st W).
    destruct op as [e| | |hex index| |n|]; cbn [perform followed] in *;
      try contradiction; try discriminate.
    + destruct (mutates (OpPick e) st) eqn:Hm.
      * pose proof Hm as Hm'. cbn [mutates] in Hm'.
        destruct (currentImage st) as [img|] eqn:Himg; [|discriminate].
        destruct (pick_appends e st img W Gp Himg Hm F)
          as (st' & E & P & Hhex & _).
        exists st'. split; [exact E|].
        rewrite P. apply Forall_app. split; [exact Gp|now constructor].
      * rewrite (pick_noop e st Hm). eauto.
    + unfold prefillPalette, bind, get. cbn beta iota.
      destruct (currentImage st) as [img|]; [|eauto].
      apply run_ok, (prefill_basic_ok img st W Gp).
    + unfold removeColor, bind at 1, get. cbn beta iota.
      destruct (indexOf hex (palette st)) as [i|]; [|eauto].
      rewrite (snd_bind_Normal _ _ _ _ _ (saveState_run st)).
      destruct (nth_error (blocks st) index) as [blk|].
      * eexists. split; [reflexivity|exact Gp'].
      * apply run_ok, (splice_render_ok (afterSave st) i Hc' Gp').
    + unfold clearAll, bind at 1, get. cbn beta iota.
      destruct (Nat.eqb (List.length (palette st)) 0); [eauto|].
      rewrite (snd_bind_Normal _ _ _ _ _ (saveState_run st)).
      eexists. split; [reflexivity|exact Gp'].
    + destruct (nth_error (tasks st) n) as [t|] eqn:E.
      * rewrite (fire_run getPalette n st t E).
        set (st1 := set_tasks _ st).
        destruct t as [i| |croppedImg]; cbn [runTask].
        -- unfold bind at 1, get. cbn beta iota.
           apply run_ok, (splice_render_ok st1 i (proj1 W) Gp).
        -- unfold Array_new, bind at 1. unfold modify, bind at 1.
           set (st2 := set_colors _ _).
           assert (Hc2 : colors st2 ∈ dom (heap st2))
             by (subst st2; cbn; apply in_dom_insert_eq).
           assert (P2 : palette st2 = []).
           { subst st2. unfold palette. cbn [colors set_colors]. apply arr_insert_eq. }
           assert (G2 : Forall (fun c => isColor c = true) (palette st2))
             by (rewrite P2; constructor).
           destruct (render_ok true st2 Hc2 G2) as [R P].
           apply run_ok. split; [exact R|]. now rewrite P.
        -- unfold bind at 1, get. cbn beta iota.
           change (cropPrefillMode st1) with (cropPrefillMode st).
           rewrite F.
           apply run_ok, (prefill_basic_ok croppedImg st1 W Gp).
      * unfold fire, bind at 1, get. cbn beta iota.
        rewrite E. eauto.
Qed.
End ColorsOnly.

Lemma perform_colorsOnly_witness :
  fst (perform noExtractor (OpPick (mkMouse 50 50 0))
         (pageShowing redImage examplePalette)) = Normal tt.
Proof.
  destruct (perform_colorsOnly noExtractor noExtractor_bytes (OpPick (mkMouse 50 50 0))
              (pageShowing redImage examplePalette)) as [H _].
  - apply pageShowing_inv.
  - split; [apply examplePalette_colors|constructor].
  - vm_compute. reflexivity.
  - exact H.
Defined.

(** ** The crop gesture *)

Section CropGesture.
Variable getPalette : image -> Z -> completion (list (float * float * float)).

Lemma executeCropPrefill_run (st : state) (img : image) (startX : float) :
  currentImage st = Some img -> cropStartX st = Some startX ->
  executeCropPrefill st
  = (Normal tt,
     if selectionTooSmall st img startX then add_notification msgTooSmall st
     else add_task (CropLoadTask (croppedImage st img startX)) st).
Proof.
  intros Himg Hs. unfold executeCropPrefill, bind, get, selectionTooSmall, croppedImage.
  rewrite Himg, Hs.
  destruct (cropRectangle st img startX) as [[[imgX1 imgY1] cropWidth] cropHeight].
  destruct (_ || _); reflexivity.
Qed.

Lemma handleMouseDown_crop (e : mouseEvent) (st : state) (img : image) :
  currentImage st = Some img -> button e = 0 -> isCropMode st = true ->
  handleMouseDown e st
  = (Normal tt,
     set_cropRect (Some (fst (getCanvasCoords st e))) (snd (getCanvasCoords st e))
                  (fst (getCanvasCoords st e)) (snd (getCanvasCoords st e)) st).
Proof.
  intros Himg Hb Hc. unfold handleMouseDown, bind, get, modify. cbn beta iota.
  now rewrite Himg, Hb, Hc.
Qed.

Lemma handleMouseMove_crop (e : mouseEvent) (st : state) (img : image) (startX : float) :
  currentImage st = Some img -> isCropMode st = true -> cropStartX st = Some startX ->
  handleMouseMove e st
  = (Normal tt,
     set_cropRect (Some startX) (cropStartY st)
                  (fst (getCanvasCoords st e)) (snd (getCanvasCoords st e)) st).
Proof.
  intros Himg Hc Hs. unfold handleMouseMove, bind, get, modify. cbn beta iota.
  now rewrite Himg, Hc, Hs.
Qed.

Lemma handleMouseUp_crop (e : mouseEvent) (st : state) (startX : float) :
  isCropMode st = true -> cropStartX st = Some startX ->
  handleMouseUp e st
  = bind executeCropPrefill (fun _ => modify (set_crop false None)) st.
Proof.
  intros Hc Hs. unfold handleMouseUp, bind at 1, get. cbn beta iota.
  now rewrite Hc, Hs.
Qed.

(** X19: choosing a crop button and then pressing, moving and releasing
    leaves crop mode with the palette and the history untouched.  The
    rectangle runs from the press to the last move; when it is too small
    the two messages are shown and nothing is left to run; otherwise one
    image load is left pending, and when it fires it is the prefill of the
    chosen mode on the cut-out image. *)
Theorem cropGesture_extracts (mode : prefillMode) (e0 e1 e2 : mouseEvent)
    (st : state) (img : image) :
  currentImage st = Some img -> button e0 = 0 ->
  let sel := selecting mode e0 e1 st in
  let startX := fst (getCanvasCoords st e0) in
  let st' := snd (cropGesture mode e0 e1 e2 st) in
  fst (cropGesture mode e0 e1 e2 st) = Normal tt
  /\ isCropMode st' = false /\ cropStartX st' = None
  /\ palette st' = palette st /\ history st' = history st
  /\ (selectionTooSmall sel img startX = true ->
      tasks st' = tasks st
      /\ notifications st' = notifications st ++ [msgDraw; msgTooSmall])
  /\ (selectionTooSmall sel img startX = false ->
      tasks st' = tasks st ++ [CropLoadTask (croppedImage sel img startX)]
      /\ fire getPalette (List.length (tasks st)) st'
         = match mode with
           | basic => prefillPaletteFromImage getPalette
           | advanced => prefillAdvancedPaletteFromImage getPalette
           end (Some (croppedImage sel img startX)) (set_tasks (tasks st) st')).
Proof.
  intros Himg Hb sel startX st'.
  assert (E : cropGesture mode e0 e1 e2 st
              = (Normal tt,
                 set_crop false None
                   (if selectionTooSmall sel img startX
                    then add_notification msgTooSmall sel
                    else add_task (CropLoadTask (croppedImage sel img startX)) sel))).
  { unfold cropGesture.
    assert (E0 : startCropMode mode st
                 = (Normal tt, add_notification msgDraw
                      (set_cropPrefillMode (Some mode) (set_crop true None st))))
      by reflexivity.
    rewrite (snd_bind_Normal _ _ _ _ _ E0).
    set (st0 := add_notification _ _).
    rewrite (snd_bind_Normal _ _ _ _ _
               (handleMouseDown_crop e0 st0 img Himg Hb eq_refl)).
    set (st1 := set_cropRect _ _ _ _ st0).
    rewrite (snd_bind_Normal _ _ _ _ _
               (handleMouseMove_crop e1 st1 img _ Himg eq_refl eq_refl)).
    set (st2 := set_cropRect _ _ _ _ st1).
    rewrite (handleMouseUp_crop e2 st2 _ eq_refl eq_refl).
    rewrite (snd_bind_Normal _ _ _ _ _
               (executeCropPrefill_run st2 img startX Himg eq_refl)).
    reflexivity. }
  subst st'. rewrite E. cbn [fst snd].
  split; [reflexivity|]. split; [now destruct (selectionTooSmall _ _ _)|].
  split; [now destruct (selectionTooSmall _ _ _)|].
  split; [now destruct (selectionTooSmall _ _ _)|].
  split; [now destruct (selectionTooSmall _ _ _)|].
  split; intros Hs; rewrite Hs.
  - split; [reflexivity|]. cbn. now rewrite <- app_assoc.
  - split; [reflexivity|].
    rewrite (fire_run getPalette _ _ (CropLoadTask (croppedImage sel img startX))).
    + cbn [runTask]. unfold bind at 1, get. cbn beta iota.
      cbn [cropPrefillMode set_tasks set_crop add_task set_cropRect add_notification
           set_cropPrefillMode].
      assert (T : forall t, firstn (List.length (tasks st)) (tasks st ++ [t])
                            ++ skipn (S (List.length (tasks st))) (tasks st ++ [t])
                            = tasks st).
      { intros t. rewrite splice_at. apply app_nil_r. }
      cbn [tasks set_crop add_task]. 
      change (tasks sel) with (tasks st). rewrite T.
      destruct mode; reflexivity.
    + cbn [tasks set_crop add_task]. change (tasks sel) with (tasks st).
      apply nth_error_last.
Qed.
End CropGesture.

Lemma cropGesture_extracts_witness :
  tasks (snd (cropGesture basic (mkMouse 10 10 0) (mkMouse 60 60 0) (mkMouse 60 60 0)
                (pageShowing redImage examplePalette)))
  = [CropLoadTask
       (croppedImage (selecting basic (mkMouse 10 10 0) (mkMouse 60 60 0)
                        (pageShowing redImage examplePalette)) redImage 10)].
Proof.
  destruct (cropGesture_extracts noExtractor basic (mkMouse 10 10 0) (mkMouse 60 60 0)
              (mkMouse 60 60 0) (pageShowing redImage examplePalette) redImage
              eq_refl eq_refl) as (_ & _ & _ & _ & _ & _ & H).
  destruct H as [T _]; [vm_compute; reflexivity|exact T].
Defined.

(** ** The size of an advanced palette *)

Lemma advancedColors_length (pal : list (float * float * float)) (index : nat) :
  List.length (advancedColors pal index)
  = (4 * List.length pal
     + (if Nat.eqb index 0 then (if Nat.eqb (List.length pal) 0 then 0 else 1) else 0))%nat.
Proof.
  revert index. induction pal as [|c pal IH]; intros index.
  - cbn. now destruct (Nat.eqb index 0).
  - cbn [advancedColors]. rewrite length_app, IH. unfold slotColors.
    rewrite withVariations_length by (destruct (Nat.eqb index 0); auto).
    cbn [List.length Nat.eqb]. destruct (Nat.eqb index 0); cbn; lia.
Qed.

Section AdvancedCount.
Variable getPalette : image -> Z -> completion (list (float * float * float)).

(** X20: whatever number of main colours the extractor answers for 5, the
    advanced prefill ends normally with each main colour followed by its
    variations, four for the first and three for the others: four entries
    per main colour and one more. *)
Theorem prefillAdvanced_count (img : image) (st : state)
    (pal : list (float * float * float)) :
  getPalette img 5 = Normal pal ->
  let st' := snd (prefillAdvancedPaletteFromImage getPalette (Some img) st) in
  palette st' = advancedColors pal 0
  /\ List.length (palette st')
     = (4 * List.length pal + (if Nat.eqb (List.length pal) 0 then 0 else 1))%nat
  /\ fst (prefillAdvancedPaletteFromImage getPalette (Some img) st) = Normal tt.
Proof.
  intros Hp st'.
  assert (Q : exists st2 st3,
             pushMainColors pal 0 st2 = (Normal tt, st3)
             /\ colors st3 ∈ dom (heap st3)
             /\ palette st3 = advancedColors pal 0
             /\ prefillAdvancedPaletteFromImage getPalette (Some img) st
                = try_catch (renderPalette true) (alert msgExtractFailed) st3).
  { set (a := fresh (dom (heap (afterSave st)))).
    set (st2 := set_colors a (set_heap (fun h => <[a := []]> h) (afterSave st))).
    assert (Hc2 : colors st2 ∈ dom (heap st2)) by (cbn; apply in_dom_insert_eq).
    assert (P2 : palette st2 = [])
      by (unfold palette; cbn [colors set_colors st2]; apply arr_insert_eq).
    destruct (pushMainColors_run pal 0 st2 Hc2) as (st3 & E & S3 & _ & P3).
    exists st2.
    exists st3. split; [exact E|]. split; [now destruct S3 as (_ & _ & _ & _ & D)|].
    split; [now rewrite P3, P2|].
    unfold prefillAdvancedPaletteFromImage, try_catch at 1.
    rewrite (snd_bind_Normal _ _ _ _ _ (saveState_run st)).
    unfold bind at 1, lift. rewrite Hp.
    unfold Array_new, bind at 1. unfold modify, bind at 1.
    rewrite (snd_bind_Normal _ _ _ _ _ E). reflexivity. }
  destruct Q as (st2 & st3 & _ & Hc3 & P3 & E).
  assert (P : palette st' = advancedColors pal 0).
  { subst st'. rewrite E. unfold try_catch.
    destruct (renderPalette_palette true st3 Hc3) as (P4 & _).
    destruct (renderPalette true st3) as [[u|err] st4]; cbn [snd] in *; [congruence|].
    change (palette (snd (alert msgExtractFailed st4))) with (palette st4). congruence. }
  split; [exact P|]. split.
  - rewrite P, advancedColors_length. reflexivity.
  - rewrite E. unfold try_catch.
    destruct (renderPalette true st3) as [[[]|err] st4]; reflexivity.
Qed.
End AdvancedCount.

Lemma prefillAdvanced_count_witness :
  List.length (palette (snd (prefillAdvancedPaletteFromImage twoColorExtractor
                               (Some redImage) (pageShowing redImage examplePalette))))
  = 9%nat.
Proof.
  destruct (prefillAdvanced_count twoColorExtractor redImage
              (pageShowing redImage examplePalette) _ eq_refl) as (_ & L & _).
  exact L.
Defined.

(** ** Clearing *)

Section Clearing.
Variable getPalette : image -> Z -> completion (list (float * float * float)).

(** X21: [clearAll] on an empty palette does nothing; otherwise, once its
    timer has fired, the palette and the sidebar are empty, the history has
    gained the palette as it was, and one [undo] brings it back. *)
Theorem clearAll_empties (st : state) :
  inv st ->
  (palette st = [] -> clearAll st = (Normal tt, st))
  /\ (palette st <> [] ->
      palette (afterClearing getPalette st) = []
      /\ blocks (afterClearing getPalette st) = []
      /\ history (afterClearing getPalette st) = pushBounded (palette st) (history st)
      /\ palette (snd (undo (afterClearing getPalette st))) = palette st).
Proof.
  intros I. pose proof I as [W _]. split.
  - intros E. unfold clearAll, bind, get. now rewrite E.
  - intros Hne.
    assert (Hl : Nat.eqb (List.length (palette st)) 0 = false)
      by (destruct (palette st); [congruence|reflexivity]).
    assert (Hm : mutates OpClear st = true) by (cbn [mutates]; now rewrite Hl).
    assert (E : clearAll st = (Normal tt, add_task ClearTask (afterSave st))).
    { unfold clearAll, bind at 1, get. cbn beta iota. rewrite Hl.
      now rewrite (snd_bind_Normal _ _ _ _ _ (saveState_run st)). }
    destruct (mutating_history getPalette OpClear st I Hm) as (Hh & I1 & _).
    unfold afterClearing. cbn [performAll perform] in *. rewrite E in *. cbn [snd] in *.
    set (st1 := add_task ClearTask (afterSave st)) in *.
    assert (T : nth_error (tasks st1) (List.length (tasks st)) = Some ClearTask)
      by apply nth_error_last.
    assert (Hq : mutates (OpTimer (List.length (tasks st))) st1 = false)
      by (cbn [mutates]; now rewrite T).
    destruct (nonmutating_history getPalette (OpTimer (List.length (tasks st))) st1 I1
                eq_refl Hq) as (Hh2 & I2 & _).
    cbn [perform] in Hh2, I2. rewrite Hh in Hh2.
    assert (Q : palette (snd (fire getPalette (List.length (tasks st)) st1)) = []
                /\ blocks (snd (fire getPalette (List.length (tasks st)) st1)) = []).
    { rewrite (fire_run getPalette _ _ _ T). cbn [runTask].
      unfold Array_new, bind, modify. cbn beta iota.
      set (st2 := set_colors _ _).
      assert (Hc2 : colors st2 ∈ dom (heap st2))
        by (subst st2; cbn; apply in_dom_insert_eq).
      assert (P2 : palette st2 = []).
      { subst st2. unfold palette. cbn [colors set_colors]. apply arr_insert_eq. }
      assert (G2 : Forall (fun c => isColor c = true) (palette st2))
        by (rewrite P2; constructor).
      destruct (renderPalette_run true st2 Hc2 G2) as (st3 & E3 & Pm & _).
      destruct (renderPalette_palette true st2 Hc2) as (P3 & _).
      rewrite E3 in *. cbn [snd] in *. split; [congruence|].
      rewrite P2 in Pm. destruct (blocks st3) as [|x xs]; [reflexivity|].
      now apply Permutation_nil_cons in Pm. }
    destruct Q as [Q1 Q2]. split; [exact Q1|]. split; [exact Q2|]. split; [exact Hh2|].
    rewrite pushBounded_snoc in Hh2.
    now destruct (undo_top _ _ _ (proj1 I2) Hh2).
Qed.
End Clearing.

Lemma clearAll_empties_witness :
  palette (afterClearing noExtractor (pageWith examplePalette)) = [].
Proof.
  destruct (clearAll_empties noExtractor (pageWith examplePalette)
              (pageWith_inv examplePalette)) as [_ H].
  destruct H as [P _]; [discriminate|exact P].
Defined.

(** ** Greys *)

Lemma Math_max_same (x : float) : is_nan x = false -> JS.Math_max x x = x.
Proof.
  intros Nx. unfold JS.Math_max. rewrite Nx. cbn [orb].
  rewrite ltb_ordF, Z.ltb_irrefl by assumption. now destruct (get_sign x).
Qed.

Lemma Math_min_same (x : float) : is_nan x = false -> JS.Math_min x x = x.
Proof.
  intros Nx. unfold JS.Math_min. rewrite Nx. cbn [orb].
  rewrite ltb_ordF, Z.ltb_irrefl by assumption. now destruct (get_sign x).
Qed.

(** X22: a colour whose three channels are the same number has hue 0 and
    saturation 0, so the display order puts the greys at the hue of red. *)
Theorem rgbToHsl_grey (v : float) :
  is_nan v = false ->
  h (rgbToHsl v v v) = 0%float /\ s (rgbToHsl v v v) = 0%float.
Proof.
  intros Nv.
  assert (Nx : is_nan (v / 255)%float = false).
  { apply is_nan_false. rewrite FloatAxioms.div_spec.
    apply SFdiv_not_nan; [now apply is_nan_false|exact I]. }
  unfold rgbToHsl. cbv zeta.
  rewrite !Math_max_same, !Math_min_same by exact Nx.
  unfold JS.seq. rewrite eqb_ordF, Z.eqb_refl by exact Nx.
  cbn [fst snd h s l]. repeat split.
Qed.

Lemma rgbToHsl_grey_witness :
  h (rgbToHsl 128 128 128) = 0%float /\ s (rgbToHsl 128 128 128) = 0%float.
Proof. apply (rgbToHsl_grey 128). reflexivity. Defined.

(** ** Sampling a flat image *)

Lemma flatMean_all : forallb flatMean [1; 2; 3; 4; 5; 6; 7; 8; 9] = true.
Proof. vm_compute. reflexivity. Qed.

Lemma roundedMean_flat (c count : Z) :
  0 <= c <= 255 -> 1 <= count <= 9 -> roundedMean (c * count) count = JS.ofZ c.
Proof.
  intros Hc Hn. pose proof flatMean_all as H. rewrite forallb_forall in H.
  assert (Hin : In count [1; 2; 3; 4; 5; 6; 7; 8; 9]) by (cbn; lia).
  specialize (H count Hin). unfold flatMean in H. rewrite forallb_forall in H.
  specialize (H c (byteRange_spec c Hc)).
  now apply FloatAxioms.Leibniz.eqb_spec in H.
Qed.

Lemma sampleFold_solid (w h : Z) (c : Byte.byte * Byte.byte * Byte.byte)
    (x y : float) (ds : list (float * float)) (k : Z) :
  exists k',
    fold_left (sampleStep (solidImage w h c) x y) ds
      (byteZ (fst (fst c)) * k, byteZ (snd (fst c)) * k, byteZ (snd c) * k, k)
    = (byteZ (fst (fst c)) * k', byteZ (snd (fst c)) * k', byteZ (snd c) * k', k').
Proof.
  revert k. induction ds as [|d ds IH]; intros k; [now exists k|].
  cbn [fold_left]. unfold sampleStep at 2. cbn [pixel solidImage width height].
  destruct c as [[cr cg] cb]. cbn [fst snd] in *.
  destruct (_ && _).
  - replace (byteZ cr * k + byteZ cr) with (byteZ cr * (k + 1)) by lia.
    replace (byteZ cg * k + byteZ cg) with (byteZ cg * (k + 1)) by lia.
    replace (byteZ cb * k + byteZ cb) with (byteZ cb * (k + 1)) by lia.
    apply IH.
  - apply IH.
Qed.

(** X23: on an image of a single colour [sampleArea] returns that colour at
    every centre in the image, at the corners and edges too. *)
Theorem sampleArea_flat (w h : Z) (cr cg cb : Byte.byte) (x y : float) :
  inBounds (solidImage w h (cr, cg, cb)) x y = true ->
  sampleArea (solidImage w h (cr, cg, cb)) x y
  = mkRgb (JS.ofZ (byteZ cr)) (JS.ofZ (byteZ cg)) (JS.ofZ (byteZ cb)).
Proof.
  intros Hin.
  destruct (sampleSums_count _ _ _ Hin) as [_ Hcount].
  rewrite sampleArea_means.
  destruct (sampleFold_solid w h (cr, cg, cb) x y neighbourhood 0) as [k Hk].
  cbn [fst snd] in Hk. rewrite !Z.mul_0_r in Hk.
  change (fold_left _ neighbourhood (0, 0, 0, 0))
    with (sampleSums (solidImage w h (cr, cg, cb)) x y) in Hk.
  rewrite Hk in *. unfold sumR, sumG, sumB, countOf in *. cbn [fst snd] in *.
  rewrite !roundedMean_flat by (auto using byteZ_range). reflexivity.
Qed.

Lemma sampleArea_flat_witness :
  sampleArea redImage 50 50 = mkRgb 255 0 0.
Proof.
  apply (sampleArea_flat 100 100 Byte.xff Byte.x00 Byte.x00 50 50).
  vm_compute. reflexivity.
Defined.

(** ** A loaded image has a defined view *)

Lemma Zdigits2_le (m k : Z) : 0 < m < 2 ^ k -> 0 <= k -> Zdigits2 m <= k.
Proof.
  intros [Hm Hk] K. destruct m as [|p|p]; try lia. cbn [Zdigits2].
  pose proof (digits2_pos_bounds p) as [Hlo _].
  destruct (Z.le_gt_cases (Zpos (digits2_pos p)) k) as [H|H]; [exact H|exfalso].
  assert (2 ^ k <= 2 ^ (Zpos (digits2_pos p) - 1)) by (apply Z.pow_le_mono_r; lia).
  lia.
Qed.

Lemma shr_fexp_snd (m e : Z) (l : location) :
  -1074 <= e ->
  snd (shr_fexp prec emax m e l) = Z.max e (Zdigits2 m + e - 53).
Proof.
  intros He. unfold shr_fexp, shr. rewrite fexp_eq.
  destruct (Z.max (Zdigits2 m + e - 53) (-1074) - e) as [|p|p] eqn:En; cbn [snd]; lia.
Qed.

Lemma shr_fexp_m (m e : Z) (l : location) :
  0 < m -> -1074 <= e ->
  0 < shr_m (fst (shr_fexp prec emax m e l)) < 2 ^ 53.
Proof.
  intros Hm He. split; [now apply shr_fexp_pos|].
  unfold shr_fexp, shr. rewrite fexp_eq.
  destruct m as [|q|q]; try lia. cbn [Zdigits2].
  pose proof (digits2_pos_bounds q) as [_ Hq].
  set (d := Zpos (digits2_pos q)) in *.
  destruct (Z.max (d + e - 53) (-1074) - e) as [|p|p] eqn:En;
    cbn [fst]; rewrite ?shr_record_of_loc_m.
  - apply Z.lt_le_trans with (2 ^ d); [exact Hq|]. apply Z.pow_le_mono_r; lia.
  - rewrite iter_shr_1 by (rewrite shr_record_of_loc_m; lia).
    rewrite shr_record_of_loc_m.
    assert (Hp : Zpos p = d - 53) by lia.
    apply Z.div_lt_upper_bound; [apply Z.pow_pos_nonneg; lia|].
    rewrite <- Z.pow_add_r by lia. replace (Zpos p + 53) with d by lia. exact Hq.
  - apply Z.lt_le_trans with (2 ^ d); [exact Hq|]. apply Z.pow_le_mono_r; lia.
Qed.

Lemma round_nearest_even_le (m : Z) (l : location) :
  round_nearest_even m l <= m + 1.
Proof. destruct l as [|[]]; simpl; try lia. destruct (Z.even m); lia. Qed.

Lemma binary_round_aux_finite (s : bool) (m e : Z) (l : location) :
  0 < m < 2 ^ 54 -> -1074 <= e <= 969 ->
  isNonzeroSF (binary_round_aux prec emax s m e l).
Proof.
  intros [Hm Hm'] [He He'].
  pose proof (binary_round_aux_sign s m e l Hm He) as Hs.
  unfold binary_round_aux in *.
  pose proof (shr_fexp_snd m e l He) as S1.
  pose proof (shr_fexp_m m e l Hm He) as [M1 M1'].
  pose proof (Zdigits2_le m 54 (conj Hm Hm') ltac:(lia)) as D1.
  destruct (shr_fexp prec emax m e l) as [mrs' e1]. cbn [fst snd] in *.
  set (m2 := round_nearest_even (shr_m mrs') (loc_of_shr_record mrs')) in *.
  assert (P2 : 0 < m2) by now apply round_nearest_even_pos.
  assert (B2 : m2 < 2 ^ 54).
  { pose proof (round_nearest_even_le (shr_m mrs') (loc_of_shr_record mrs')).
    fold m2 in H. change (2 ^ 54) with (2 * 2 ^ 53). lia. }
  assert (He1 : -1074 <= e1) by lia.
  pose proof (shr_fexp_snd m2 e1 loc_Exact He1) as S2.
  pose proof (Zdigits2_le m2 54 (conj P2 B2) ltac:(lia)) as D2.
  destruct (shr_fexp prec emax m2 e1 loc_Exact) as [mrs'' e2]. cbn [fst snd] in *.
  destruct (shr_m mrs'') as [|p|p].
  - destruct Hs as [(m0 & e0 & H)|H]; discriminate H.
  - destruct (Z.leb_spec e2 (emax - prec)) as [_|Hgt]; [exact I|].
    unfold emax, prec in Hgt. lia.
  - destruct Hs as [(m0 & e0 & H)|H]; discriminate H.
Qed.

Lemma SFdiv_normal (m1 m2 : positive) (e1 e2 : Z) :
  Zpos (digits2_pos m1) = 53 -> Zpos (digits2_pos m2) = 53 ->
  -400 <= e1 <= 400 -> -400 <= e2 <= 400 ->
  isNonzeroSF (SF64div (S754_finite false m1 e1) (S754_finite false m2 e2)).
Proof.
  intros D1 D2 He1 He2. unfold SF64div, SFdiv, SFdiv_core_binary.
  cbn [Zdigits2]. rewrite D1, D2, fexp_eq.
  replace (Z.min (Z.max (53 + e1 - (53 + e2) - 53) (-1074)) (e1 - e2))
    with (e1 - e2 - 53) by lia.
  replace (e1 - e2 - (e1 - e2 - 53)) with 53 by lia.
  pose proof (digits2_pos_bounds m1) as [L1 U1].
  pose proof (digits2_pos_bounds m2) as [L2 U2].
  rewrite D1 in L1, U1. rewrite D2 in L2, U2.
  rewrite Z.shiftl_mul_pow2 by lia.
  pose proof (Z.div_eucl_eq (Zpos m1 * 2 ^ 53) (Zpos m2) ltac:(lia)) as Hq.
  pose proof (Z.mod_pos_bound (Zpos m1 * 2 ^ 53) (Zpos m2) ltac:(lia)) as Hr.
  unfold Z.modulo in Hr.
  destruct (Z.div_eucl (Zpos m1 * 2 ^ 53) (Zpos m2)) as [q r].
  change (2 ^ (53 - 1)) with (2 ^ 52) in *.
  assert (Hq1 : 0 < q).
  { destruct (Z.lt_trichotomy q 0) as [H|[H|H]]; [|subst q|exact H].
    - assert (Zpos m2 * q <= - Zpos m2) by nia. nia.
    - assert (2 ^ 52 * 2 ^ 53 <= Zpos m1 * 2 ^ 53) by nia.
      assert (2 ^ 53 < 2 ^ 52 * 2 ^ 53) by reflexivity. lia. }
  assert (Hq2 : q < 2 ^ 54).
  { destruct (Z.lt_ge_cases q (2 ^ 54)) as [H|H]; [exact H|exfalso].
    assert (2 ^ 52 * 2 ^ 54 <= Zpos m2 * q) by nia.
    assert (Zpos m1 * 2 ^ 53 < 2 ^ 53 * 2 ^ 53) by nia.
    assert (2 ^ 53 * 2 ^ 53 = 2 ^ 52 * 2 ^ 54) by reflexivity. lia. }
  apply binary_round_aux_finite; [split; assumption|lia].
Qed.

Lemma ofZ_normal (n : Z) :
  0 < n < 2 ^ 53 ->
  exists m e, Prim2SF (JS.ofZ n) = S754_finite false m e
              /\ Zpos (digits2_pos m) = 53 /\ -52 <= e <= 0.
Proof.
  intros Hn. destruct (ofZ_Prim2SF n Hn) as (m & e & E & He & Hv).
  pose proof (Prim2SF_valid (JS.ofZ n)) as V. rewrite E in V. cbn in V.
  destruct (bounded_spec m e V) as (_ & Dle & Deq).
  pose proof (digits2_pos_bounds m) as [Lm Um].
  exists m, e. split; [exact E|].
  assert (Um' : Zpos m < 2 ^ 53).
  { apply Z.lt_le_trans with (2 ^ Zpos (digits2_pos m)); [exact Um|].
    apply Z.pow_le_mono_r; lia. }
  assert (P : 0 < 2 ^ (e + 1074)) by (apply Z.pow_pos_nonneg; lia).
  assert (Elo : -52 <= e).
  { destruct (Z.le_gt_cases (-52) e) as [H|H]; [exact H|exfalso].
    assert (2 ^ (e + 1074) <= 2 ^ 1021) by (apply Z.pow_le_mono_r; lia).
    assert (Zpos m * 2 ^ (e + 1074) < 2 ^ 53 * 2 ^ 1021) by nia.
    assert (2 ^ 53 * 2 ^ 1021 = 2 ^ 1074) by reflexivity.
    assert (1 * 2 ^ 1074 <= n * 2 ^ 1074) by (apply Z.mul_le_mono_nonneg_r; lia).
    lia. }
  assert (D : Zpos (digits2_pos m) = 53) by (apply Deq; lia).
  split; [exact D|]. split; [exact Elo|].
  destruct (Z.le_gt_cases e 0) as [H|H]; [exact H|exfalso].
  rewrite D in Lm. change (2 ^ (53 - 1)) with (2 ^ 52) in Lm.
  assert (2 ^ 1075 <= 2 ^ (e + 1074)) by (apply Z.pow_le_mono_r; lia).
  assert (2 ^ 52 * 2 ^ 1075 <= Zpos m * 2 ^ (e + 1074)) by nia.
  assert (n * 2 ^ 1074 < 2 ^ 53 * 2 ^ 1074) by (apply Z.mul_lt_mono_pos_r; lia).
  assert (2 ^ 52 * 2 ^ 1075 = 2 ^ 53 * 2 ^ 1074) by reflexivity.
  lia.
Qed.

Lemma div_ofZ_normal (a b : Z) :
  0 < a < 2 ^ 53 -> 0 < b < 2 ^ 53 ->
  isNonzeroNumber (JS.ofZ a / JS.ofZ b) = true.
Proof.
  intros Ha Hb.
  destruct (ofZ_normal a Ha) as (m1 & e1 & E1 & D1 & B1).
  destruct (ofZ_normal b Hb) as (m2 & e2 & E2 & D2 & B2).
  pose proof (SFdiv_normal m1 m2 e1 e2 D1 D2 ltac:(lia) ltac:(lia)) as H.
  unfold isNonzeroNumber. rewrite FloatAxioms.div_spec, E1, E2.
  now destruct (SF64div _ _).
Qed.

Lemma SFsub_finite_r (x y : spec_float) :
  x <> S754_nan -> isFiniteSF y -> SF64sub x y <> S754_nan.
Proof.
  intros Nx Fy. unfold SF64sub, SFsub.
  destruct y as [sy|sy| |sy my ey]; try contradiction;
  destruct x as [sx|sx| |sx mx ex]; try congruence; try discriminate.
  - destruct sx, sy; discriminate.
  - apply binary_normalize_any_not_nan.
Qed.

Lemma Math_max_normal (a b : float) :
  isNonzeroNumber a = true -> isNonzeroNumber b = true ->
  isNonzeroNumber (JS.Math_max a b) = true.
Proof.
  intros Fa Fb.
  assert (Na : is_nan a = false).
  { apply is_nan_false. unfold isNonzeroNumber in Fa. now destruct (Prim2SF a). }
  assert (Nb : is_nan b = false).
  { apply is_nan_false. unfold isNonzeroNumber in Fb. now destruct (Prim2SF b). }
  unfold JS.Math_max. rewrite Na, Nb. cbn [orb].
  destruct (a <? b)%float; [exact Fb|]. destruct (b <? a)%float; [exact Fa|].
  now destruct (get_sign a).
Qed.

Lemma centred_not_nan (p z w : float) :
  is_nan p = false -> isNonzeroNumber z = true -> isFiniteNumber w = true ->
  is_nan ((p / z - w) / 2)%float = false.
Proof.
  unfold isNonzeroNumber, isFiniteNumber. intros Np Fz Fw.
  apply is_nan_false in Np. apply is_nan_false.
  rewrite FloatAxioms.div_spec, FloatAxioms.sub_spec, FloatAxioms.div_spec.
  assert (Fz' : isNonzeroSF (Prim2SF z)) by now destruct (Prim2SF z).
  assert (Fw' : isFiniteSF (Prim2SF w)) by now destruct (Prim2SF w).
  apply SFdiv_not_nan; [|exact I].
  apply SFsub_finite_r; [|exact Fw'].
  now apply SFdiv_not_nan.
Qed.

Lemma ofZ_finite (n : Z) : 0 < n < 2 ^ 53 -> isFiniteNumber (JS.ofZ n) = true.
Proof.
  intros Hn. destruct (ofZ_Prim2SF n Hn) as (m & e & E & _).
  unfold isFiniteNumber. now rewrite E.
Qed.

(** X24: when an image arrives in a pane, both of positive size, the view
    is defined for every event with finite canvas coordinates, so a click
    that passes the bounds test of [pickColorAtPoint] is sampled at a point
    of the image; the palette and the history are not touched. *)
Theorem imageLoaded_viewport (img : image) (paneWidth paneHeight : Z)
    (st : state) (e : mouseEvent) :
  0 < width img < 2 ^ 53 -> 0 < height img < 2 ^ 53 ->
  0 < paneWidth < 2 ^ 53 -> 0 < paneHeight < 2 ^ 53 ->
  isFiniteNumber (fst (getCanvasCoords st e)) = true ->
  isFiniteNumber (snd (getCanvasCoords st e)) = true ->
  let st' := snd (imageLoaded img paneWidth paneHeight st) in
  currentImage st' = Some img
  /\ viewportDefined st' e = true
  /\ (mutates (OpPick e) st' = true ->
      inBounds img (JS.Math_floor (fst (imagePoint st' e)))
                   (JS.Math_floor (snd (imagePoint st' e))) = true)
  /\ palette st' = palette st /\ history st' = history st.
Proof.
  intros Hw Hh Hpw Hph Fx Fy st'.
  assert (Z1 : isNonzeroNumber (zoom st') = true).
  { apply Math_max_normal; now apply div_ofZ_normal. }
  assert (V : viewportDefined st' e = true).
  { unfold viewportDefined. rewrite Z1.
    change (getCanvasCoords st' e) with (getCanvasCoords st e). rewrite Fx, Fy.
    assert (Px : is_nan (panX st') = false).
    { apply centred_not_nan; [apply ofZ_not_nan|exact Z1|now apply ofZ_finite]. }
    assert (Py : is_nan (panY st') = false).
    { apply centred_not_nan; [apply ofZ_not_nan|exact Z1|now apply ofZ_finite]. }
    now rewrite Px, Py. }
  split; [reflexivity|]. split; [exact V|]. split; [|split; reflexivity].
  intros Hm. now apply (pick_floor_inBounds st' e img).
Qed.

Lemma imageLoaded_viewport_witness :
  viewportDefined (snd (imageLoaded redImage 800 600 (pageWith examplePalette)))
                  (mkMouse 5 5 0) = true.
Proof.
  assert (H100 : 0 < 100 < 2 ^ 53) by (split; reflexivity).
  assert (H800 : 0 < 800 < 2 ^ 53) by (split; reflexivity).
  assert (H600 : 0 < 600 < 2 ^ 53) by (split; reflexivity).
  exact (proj1 (proj2 (imageLoaded_viewport redImage 800 600 (pageWith examplePalette)
                         (mkMouse 5 5 0) H100 H100 H800 H600 eq_refl eq_refl))).
Defined.

(** * Edges of the script: channels, variations, sampling and timers *)

(** ** Channels that are not bytes *)

Lemma ofZ_ord (n : Z) :
  0 <= n < 2 ^ 53 -> is_nan (JS.ofZ n) = false /\ ordF (JS.ofZ n) = n * 2 ^ 1074.
Proof.
  intros Hn. destruct (Z.eq_dec n 0) as [->|Hz]; [split; reflexivity|].
  apply ofZ_exact. lia.
Qed.

Lemma byteValue_ord (x : float) :
  isByteValue x
  <-> is_nan x = false /\ exists n, 0 <= n <= 255 /\ ordF x = n * 2 ^ 1074.
Proof.
  unfold isByteValue, JS.seq. split.
  - intros (n & Hn & E).
    destruct (is_nan x) eqn:Nx.
    + apply is_nan_eq in Nx. subst x. vm_compute in E.
      rewrite FloatAxioms.eqb_spec in E.
      change (Prim2SF nan) with S754_nan in E. discriminate E.
    + destruct (ofZ_ord n) as [Nn On]; [lia|].
      rewrite eqb_ordF in E by assumption. apply Z.eqb_eq in E.
      split; [reflexivity|]. exists n. split; [exact Hn|]. congruence.
  - intros (Nx & n & Hn & E). exists n. split; [exact Hn|].
    destruct (ofZ_ord n) as [Nn On]; [lia|].
    rewrite eqb_ordF by assumption. apply Z.eqb_eq. congruence.
Qed.

Lemma twoHexDigits_minus (s : string) : twoHexDigits (String "-"%char s) = false.
Proof. unfold twoHexDigits. cbn. apply andb_false_r. Qed.

Lemma twoHexDigits_point (s1 s2 : string) :
  twoHexDigits (s1 ++ String "."%char s2) = false.
Proof.
  unfold twoHexDigits. rewrite chars_append, forallb_app.
  cbn [list_ascii_of_string forallb].
  change (isHexChar "."%char) with false. cbn [andb].
  now rewrite !andb_false_r.
Qed.

Lemma pad_long (hex : string) :
  (2 <= String.length hex)%nat ->
  (if (String.length hex =? 1)%nat then ("0" ++ hex)%string else hex) = hex.
Proof.
  intros H. destruct (Nat.eqb_spec (String.length hex) 1); [lia|reflexivity].
Qed.

Lemma twoHexDigits_long (hex : string) :
  (3 <= String.length hex)%nat -> twoHexDigits hex = false.
Proof.
  intros H. unfold twoHexDigits.
  destruct (Nat.eqb_spec (String.length hex) 2); [lia|reflexivity].
Qed.

(** The text of a channel, for every Number: it has at least two
    characters, and it is two hexadecimal digits exactly when the Number is
    an integer from 0 to 255. *)
Lemma channelHex_any (x : float) :
  (2 <= String.length (channelHex x))%nat
  /\ (twoHexDigits (channelHex x) = true <-> isByteValue x).
Proof.
  rewrite byteValue_ord.
  pose proof (Prim2SF_valid x) as V.
  unfold channelHex, JS.Number_toString16, ordF.
  rewrite <- (not_true_iff_false (is_nan x)), is_nan_spec.
  destruct (Prim2SF x) as [s|s| |s m e] eqn:E; cbv zeta.
  - (* a zero *)
    split; [simpl; lia|].
    split; [|intros _; reflexivity].
    intros _. split; [discriminate|]. exists 0. split; [lia|reflexivity].
  - (* an infinity *)
    pose proof beyondFinite_pos as Hinf.
    destruct s; (split; [simpl; lia|]);
      (split; [discriminate|]); intros (_ & n & Hn & Hv); cbn in Hv.
    + assert (0 <= n * 2 ^ 1074) by (apply Z.mul_nonneg_nonneg; lia). lia.
    + assert (n * 2 ^ 1074 < beyondFinite); [|lia].
      unfold beyondFinite.
      apply Z.lt_le_trans with (2 ^ 8 * 2 ^ 1074).
      * apply Z.mul_lt_mono_pos_r; [apply Z.pow_pos_nonneg; lia|].
        change (2 ^ 8) with 256. lia.
      * rewrite <- Z.pow_add_r by lia. apply Z.pow_le_mono_r; lia.
  - (* NaN *)
    split; [simpl; lia|].
    split; [discriminate|]. intros [N _]. now elim N.
  - (* a finite Number that is not zero *)
    cbn [valid_binary] in V. pose proof (finite_bounds m e V) as Hord.
    apply bounded_spec in V as (He & Hd & Hn53).
    pose proof (digits2_pos_bounds m) as [Hlow Hm].
    assert (Hm53 : Zpos m < 2 ^ 53).
    { eapply Z.lt_le_trans; [exact Hm|]. apply Z.pow_le_mono_r; lia. }
    assert (P1074 : 0 < 2 ^ 1074) by (apply Z.pow_pos_nonneg; lia).
    set (ip := if 0 <=? e then Z.pos m * 2 ^ e else Z.shiftr (Z.pos m) (- e)).
    set (den := if 0 <=? e then 1 else 2 ^ (- e)).
    set (num := if 0 <=? e then 0 else Z.land (Z.pos m) (den - 1)).
    set (frac := if num =? 0 then ""%string
                 else String "."%char (JS.fracDigits16 (Z.to_nat (- e)) num den)).
    pose proof (intToString16_nonempty ip) as Hip.
    destruct s.
    + (* negative *)
      change ("-" ++ JS.intToString16 ip ++ frac)%string
        with (String "-"%char (JS.intToString16 ip ++ frac)).
      assert (L : (2 <= String.length (String "-"%char (JS.intToString16 ip ++ frac)))%nat).
      { cbn [String.length]. rewrite length_append. lia. }
      rewrite pad_long by exact L. split; [exact L|].
      rewrite twoHexDigits_minus. split; [discriminate|].
      intros (_ & n & Hn & Hv). cbn [ordZ cond_Zopp] in Hv.
      assert (0 <= n * 2 ^ 1074) by (apply Z.mul_nonneg_nonneg; lia). lia.
    + change ("" ++ JS.intToString16 ip ++ frac)%string
        with (JS.intToString16 ip ++ frac)%string.
      cbn [ordZ cond_Zopp].
      destruct (Z.leb_spec 0 e) as [H0|H0].
      * (* an integer of at least 2^52 *)
        subst frac num. cbn [Z.eqb]. rewrite append_empty_r.
        assert (Hm52 : 2 ^ 52 <= Zpos m).
        { rewrite Hn53 in Hlow by lia. exact Hlow. }
        assert (Pe : 1 <= 2 ^ e) by (assert (0 < 2 ^ e) by (apply Z.pow_pos_nonneg; lia); lia).
        assert (Hbig : 2 ^ 52 <= ip).
        { subst ip. apply Z.le_trans with (Zpos m * 1); [lia|].
          apply Z.mul_le_mono_nonneg_l; lia. }
        assert (L : (3 <= String.length (JS.intToString16 ip))%nat).
        { apply intToString16_long. apply Z.le_trans with (2 ^ 52); [|exact Hbig].
          change (2 ^ 52) with 4503599627370496. lia. }
        rewrite pad_long by lia. split; [lia|].
        rewrite twoHexDigits_long by exact L. split; [discriminate|].
        intros (_ & n & Hn & Hv).
        rewrite Z.pow_add_r, Z.mul_assoc in Hv by lia.
        apply Z.mul_reg_r in Hv; [|lia].
        subst ip. rewrite Hv in Hbig. change (2 ^ 52) with 4503599627370496 in Hbig. lia.
      * destruct (Z.eqb_spec num 0) as [Hnum|Hnum].
        -- (* an integer below 2^53 *)
           subst frac. rewrite append_empty_r.
           assert (Pd : 0 < 2 ^ (- e)) by (apply Z.pow_pos_nonneg; lia).
           assert (Hmod : Zpos m mod 2 ^ (- e) = 0).
           { subst num den. change (2 ^ (- e) - 1) with (Z.pred (2 ^ (- e))) in Hnum.
             rewrite <- Z.ones_equiv, Z.land_ones in Hnum by lia. exact Hnum. }
           assert (Hdiv : ip = Zpos m / 2 ^ (- e)).
           { subst ip. apply Z.shiftr_div_pow2. lia. }
           assert (Hmul : Zpos m = ip * 2 ^ (- e)).
           { rewrite Hdiv. rewrite (Z.div_mod (Zpos m) (2 ^ (- e))) at 1 by lia.
             rewrite Hmod. lia. }
           assert (Hpos : 0 < ip) by nia.
           assert (Hlt : ip < 2 ^ 53) by nia.
           assert (Hv : Zpos m * 2 ^ (e + 1074) = ip * 2 ^ 1074).
           { rewrite Hmul, <- Z.mul_assoc, <- Z.pow_add_r by lia.
             f_equal. f_equal. lia. }
           assert (Ex : x = JS.ofZ ip).
           { destruct (ofZ_exact ip (conj Hpos Hlt)) as [Nn On].
             apply ordF_eq_nonzero.
             - apply is_nan_false. rewrite E. discriminate.
             - exact Nn.
             - unfold ordF at 1. rewrite E. cbn [ordZ cond_Zopp]. congruence.
             - unfold ordF. rewrite E. cbn [ordZ cond_Zopp]. lia. }
           pose proof (channelHex_length ip ltac:(lia)) as L.
           pose proof (channelHex_twoHex ip ltac:(lia)) as T.
           unfold channelHex in L, T. rewrite toString16_ofZ in L, T by lia.
           cbv zeta in L, T. unfold signedDigits16 in L, T.
           destruct (Z.ltb_spec ip 0); [lia|].
           rewrite Z.abs_eq in L, T by lia.
           change ("" ++ JS.intToString16 ip)%string with (JS.intToString16 ip) in L, T.
           split; [exact L|]. rewrite T, andb_true_iff, !Z.leb_le. split.
           ++ intros [_ H255]. split; [discriminate|]. exists ip. split; [lia|exact Hv].
           ++ intros (_ & n & Hn & Hv'). rewrite Hv in Hv'.
              apply Z.mul_reg_r in Hv'; lia.
        -- (* a fraction *)
           subst frac.
           assert (L : (2 <= String.length
                     (JS.intToString16 ip
                      ++ String "."%char (JS.fracDigits16 (Z.to_nat (- e)) num den)))%nat).
           { rewrite length_append. cbn [String.length]. lia. }
           rewrite pad_long by exact L. split; [exact L|].
           rewrite twoHexDigits_point. split; [discriminate|].
           intros (_ & n & Hn & Hv). exfalso. apply Hnum.
           assert (Hnpos : 0 < n) by nia.
           destruct (finite_integer_digits false m e n Hnpos (proj1 He) Hv) as [_ Hz].
           subst num den. destruct (Z.leb_spec 0 e); [lia|exact Hz].
Qed.

Lemma rgbToHex_color (r g b : float) :
  isColor (rgbToHex r g b) = true
  <-> isByteValue r /\ isByteValue g /\ isByteValue b.
Proof.
  rewrite rgbToHex_unfold, isColor_channels by apply channelHex_any.
  rewrite !andb_true_iff.
  rewrite (proj2 (channelHex_any r)), (proj2 (channelHex_any g)),
          (proj2 (channelHex_any b)).
  tauto.
Qed.
Lemma outOfRange_not_byte (x : float) : outOfRange x = true -> ~ isByteValue x.
Proof.
  unfold outOfRange, JS.lt, JS.gt. intros H B.
  apply byteValue_ord in B as (Nx & n & Hn & Hv).
  rewrite Nx in H. cbn [orb] in H.
  assert (P1074 : 0 < 2 ^ 1074) by (apply Z.pow_pos_nonneg; lia).
  apply orb_prop in H as [H|H].
  - rewrite ltb_ordF in H by (assumption || reflexivity).
    apply Z.ltb_lt in H. change (ordF 0) with 0 in H. nia.
  - destruct (ofZ_ord 255) as [N255 O255]; [split; [lia|reflexivity]|].
    change (JS.ofZ 255) with 255%float in N255, O255.
    rewrite ltb_ordF in H by assumption.
    apply Z.ltb_lt in H. rewrite O255, Hv in H.
    apply Z.mul_lt_mono_pos_r in H; lia.
Qed.

(** C9, as the script has it: [rgbToHex] neither rejects nor clamps a
    channel.  For any three Numbers it returns [#] and the radix-16 text of
    each channel, padded to two characters when it has one; that string is a
    Color (six hexadecimal digits) exactly when every channel is an integer
    from 0 to 255, so that a channel that is NaN, infinite, negative, above
    255 or fractional, alone or with others, gives a string that is not a
    Color. *)
Theorem rgbToHex_unchecked (r g b : float) :
  rgbToHex r g b
  = String "#"%char (channelHex r ++ channelHex g ++ channelHex b)%string
  /\ (isColor (rgbToHex r g b) = true
      <-> isByteValue r /\ isByteValue g /\ isByteValue b)
  /\ (outOfRange r || outOfRange g || outOfRange b = true ->
      isColor (rgbToHex r g b) = false)
  /\ (isByteNumber r /\ isByteNumber g /\ isByteNumber b ->
      isColor (rgbToHex r g b) = true).
Proof.
  split; [apply rgbToHex_unfold|]. split; [apply rgbToHex_color|]. split.
  - intros H. apply not_true_iff_false. intros C.
    apply rgbToHex_color in C as (Br & Bg & Bb).
    apply orb_prop in H as [H|H]; [apply orb_prop in H as [H|H]|].
    + exact (outOfRange_not_byte r H Br).
    + exact (outOfRange_not_byte g H Bg).
    + exact (outOfRange_not_byte b H Bb).
  - intros (Br & Bg & Bb). apply rgbToHex_color.
    assert (W : forall x, isByteNumber x -> isByteValue x).
    { intros x (n & Hn & ->). exists n. split; [exact Hn|].
      destruct (ofZ_ord n) as [Nn _]; [lia|].
      unfold JS.seq. rewrite eqb_ordF by assumption. apply Z.eqb_refl. }
    auto.
Qed.

Lemma rgbToHex_unchecked_witness :
  isColor (rgbToHex infinity 0 (-5)) = false.
Proof.
  exact (proj1 (proj2 (proj2 (rgbToHex_unchecked infinity 0 (-5)))) eq_refl).
Defined.

(** A channel of 256 is neither refused nor clamped to 255: the result has
    seven digits.  A negative channel keeps its sign, NaN and the infinities
    are printed by name, a fraction with its point; the other channels are
    printed as usual. *)
Lemma rgbToHex_out_of_range :
  rgbToHex 256 0 0 = "#1000000"%string
  /\ isColor (rgbToHex 256 0 0) = false
  /\ rgbToHex 256 0 0 <> rgbToHex 255 0 0
  /\ rgbToHex (-1) 0 0 = "#-10000"%string
  /\ rgbToHex nan 0 0 = "#NaN0000"%string
  /\ rgbToHex infinity 0 0 = "#Infinity0000"%string
  /\ rgbToHex neg_infinity 0 0 = "#-Infinity0000"%string
  /\ rgbToHex 0.5 0 0 = "#0.80000"%string
  /\ rgbToHex 0 300 (-5) = "#0012c-5"%string.
Proof. vm_compute. repeat split; discriminate. Qed.

(** ** The variations, measured *)

Lemma sameTexts_eq (l1 l2 : list string) : sameTexts l1 l2 = true -> l1 = l2.
Proof.
  revert l2. induction l1 as [|x l1 IH]; intros [|y l2] H; try discriminate;
    [reflexivity|].
  cbn [sameTexts] in H. apply andb_prop in H as [E H].
  apply String.eqb_eq in E. subst y. f_equal. now apply IH.
Qed.

Lemma greyVariations_agree :
  forallb (fun v => sameTexts (createColorVariations (JS.ofZ v) (JS.ofZ v) (JS.ofZ v) 4)
                              (greyVariations v)) byteRange = true.
Proof. vm_compute. reflexivity. Qed.

Lemma createColorVariations_grey (v : Z) :
  0 <= v <= 255 ->
  createColorVariations (JS.ofZ v) (JS.ofZ v) (JS.ofZ v) 4 = greyVariations v.
Proof.
  intros Hv.
  assert (Hin : In v byteRange) by (apply byteRange_spec; lia).
  pose proof (proj1 (forallb_forall _ byteRange) greyVariations_agree v Hin) as H.
  cbv beta in H. exact (sameTexts_eq _ _ H).
Qed.

(** Without saturation the three channels are the lightness. *)
Lemma hslToRgb_unsaturated (h l : float) :
  rgbHex (hslToRgb h 0 l)
  = rgbToHex (JS.Math_round (l / 100 * 255)) (JS.Math_round (l / 100 * 255))
             (JS.Math_round (l / 100 * 255)).
Proof. reflexivity. Qed.

Lemma clampBelow0_low (x : float) : (x <=? 0)%float = true -> clampBelow0 x = 0%float.
Proof. intros H. unfold clampBelow0. now rewrite H. Qed.

Lemma createColorVariations_structure (r g b : float) (count : Z) :
  count = 3 \/ count = 4 ->
  createColorVariations r g b count = deriveVariations r g b count.
Proof.
  intros Hc.
  unfold createColorVariations, deriveVariations, withLightness, withSaturation.
  cbv zeta. rewrite !Math_min_100, !Math_max_0.
  destruct Hc as [-> | ->]; reflexivity.
Qed.

(** C6: for every base colour and a count of 3 or 4, [createColorVariations]
    returns, in this order, the lighter (+15, at most 100), the darker (-15,
    at least 0) and the desaturated (-30, at least 0) variation and, for a
    count of 4 only, the more saturated one (+20, at most 100): exactly
    [count] entries, the three of a count of 3 being the first three of a
    count of 4, a function of the arguments alone.  What the entries are is
    fixed as well: a base colour of saturation at most 30 has for third
    variation the grey of its lightness; the variations of the grey of level
    [v] are the greys 38 levels up and down (at most 255, at least 0), that
    grey itself and its red tint; and the corners of the colour cube have the
    variations of the table. *)
Theorem createColorVariations_spec (r g b : float) (count : Z) :
  count = 3 \/ count = 4 ->
  createColorVariations r g b count = deriveVariations r g b count
  /\ Z.of_nat (List.length (createColorVariations r g b count)) = count
  /\ createColorVariations r g b 3 = firstn 3 (createColorVariations r g b 4)
  /\ ((s (rgbToHsl r g b) - 30 <=? 0)%float = true ->
      let level := JS.Math_round (l (rgbToHsl r g b) / 100 * 255) in
      nth_error (createColorVariations r g b count) 2
      = Some (rgbToHex level level level))
  /\ (forall v, 0 <= v <= 255 ->
        createColorVariations (JS.ofZ v) (JS.ofZ v) (JS.ofZ v) count
        = firstn (Z.to_nat count) (greyVariations v))
  /\ List.map (fun '(r, g, b) => createColorVariations r g b 4) cubeCorners
     = cornerVariations.
Proof.
  intros Hc.
  pose proof (createColorVariations_structure r g b count Hc) as E.
  split; [exact E|]. split.
  { rewrite E. unfold deriveVariations. destruct Hc as [-> | ->]; reflexivity. }
  split.
  { rewrite !createColorVariations_structure by auto. reflexivity. }
  split.
  { intros Hs level. rewrite E. unfold deriveVariations.
    assert (D : withSaturation (rgbToHsl r g b) (clampBelow0 (s (rgbToHsl r g b) - 30))
                = rgbToHex level level level).
    { unfold withSaturation. rewrite clampBelow0_low by exact Hs.
      apply hslToRgb_unsaturated. }
    destruct Hc as [-> | ->]; cbn [Z.eqb Z.to_nat Pos.to_nat Pos.iter_op Nat.add
                                   firstn app nth_error]; now rewrite D. }
  split.
  { intros v Hv.
    destruct Hc as [-> | ->].
    - rewrite (createColorVariations_structure _ _ _ 3) by auto.
      rewrite <- (createColorVariations_grey v Hv).
      rewrite (createColorVariations_structure _ _ _ 4) by auto. reflexivity.
    - now rewrite createColorVariations_grey. }
  vm_compute. reflexivity.
Qed.

Lemma createColorVariations_spec_witness :
  createColorVariations (JS.ofZ 128) (JS.ofZ 128) (JS.ofZ 128) 4
  = ["#a6a6a6"; "#5a5a5a"; "#808080"; "#996767"]%string
  /\ Z.of_nat (List.length (createColorVariations (JS.ofZ 128) (JS.ofZ 128) (JS.ofZ 128) 4))
     = 4.
Proof.
  destruct (createColorVariations_spec (JS.ofZ 128) (JS.ofZ 128) (JS.ofZ 128) 4)
    as (_ & L & _ & _ & G & _); [right; reflexivity|].
  split; [|exact L].
  rewrite (G 128) by lia. vm_compute. reflexivity.
Defined.

(** ** Sampling at a point that is not a number *)
















(** ** Snapshots and the timers *)



Section Timers.
Variable getPalette : image -> Z -> completion (list (float * float * float)).






End Timers.



(** Eleven picks on an empty palette: ten snapshots remain, the empty
    palette at the bottom having left; ten undos empty the stack. *)
Example eleven_picks :
  let ops := repeat (OpPick (mkMouse 50 50 0)) 11 in
  let st := performAll noExtractor ops (pageShowing redImage []) in
  mutations noExtractor ops (pageShowing redImage []) = 11%nat
  /\ List.length (history st) = 10%nat
  /\ hd_error (history st) = Some ["#ff0000"%string]
  /\ history (undoTimes 10 st) = []
  /\ palette (undoTimes 10 st) = ["#ff0000"%string]
  /\ fst (undo (undoTimes 10 st)) = Normal tt
  /\ palette (snd (undo (undoTimes 10 st))) = ["#ff0000"%string].
Proof. vm_compute. repeat split; reflexivity. Qed.
